(** * Minimix: class composition ([Mix]) and the [reuse] memoizer

    A shallow embedding of [library/reuse.ts] and of the composition module
    ([Mix], [clonePrototype], [hasPrototype], [clonePrototypeDeep]) over a
    small model of the JavaScript object heap: objects with a prototype link,
    an ordered table of own data properties with their attributes, an
    extensibility flag and a construction behaviour. *)

From Stdlib Require Import ZArith Lia.
From stdpp Require Import base option list strings relations.

(** ** Values *)

Abbreviation loc := nat.

Inductive symbol :=
  | SymHasInstance          (* Symbol.hasInstance *)
  | SymMixOf                (* export const mixOf = Symbol("mixOf") *)
  | SymReuse                (* const reuseSymbol = Symbol("reuse") *)
  | SymUser (n : nat).

Inductive key :=
  | KStr (s : string)
  | KSym (y : symbol).

#[global] Instance symbol_eq_dec : EqDecision symbol.
Proof. solve_decision. Defined.

#[global] Instance key_eq_dec : EqDecision key.
Proof. solve_decision. Defined.

Definition reuseSymbol : key := KSym SymReuse.
Definition mixOf : key := KSym SymMixOf.
Definition hasInstanceKey : key := KSym SymHasInstance.

(** Function values are the two predicates the module deals with: the
    built-in [Function.prototype[Symbol.hasInstance]] and the arrow function
    that [clonePrototype] installs, with the two variables it captures. *)
#[local] Set Warnings "-register-all".

Inductive value :=
  | VUndef
  | VNull
  | VBool (b : bool)
  | VNum (n : Z)
  | VStr (s : string)
  | VObj (l : loc)
  | VArr (vs : list value)
  | VFun (f : closure)
with closure :=
  | NativeHasInstance
  | AugmentedHasInstance (originalInstanceOf : value) (clone : loc).

(** ** Objects and the heap *)

Record property := mkProperty {
  p_value : value;
  p_writable : bool;
  p_enumerable : bool;
  p_configurable : bool
}.

(** What [new] does on an object. User classes are given by the fields their
    initializer defines on [this] from the arguments; a derived class first
    calls [super] with arguments computed from its own. [MixClass] is the
    class expression of [Mix], which captures [constructors]. The
    initializer of a [DefiningClass] gives [this] members with the
    attributes it chooses, by [Object.defineProperty(this, k, descriptor)]:
    so does a constructor that calls [reuse(this, value)], whose slot is
    neither writable, enumerable nor configurable. *)
Inductive behaviour :=
  | Ordinary
  | BaseClass (init : list value -> list (key * value))
  | DerivedClass (superArgs : list value -> list value)
                 (init : list value -> list (key * value))
  | MixClass (constructors : list loc)
  | DefiningClass (define : list value -> list (key * property)).

Record object := mkObject {
  proto : option loc;
  props : list (key * property);
  extensible : bool;
  construct_of : behaviour
}.

Abbreviation heap := (list object).

(** The two intrinsics the code relies on. *)
Definition ObjectPrototype : loc := 0.
Definition FunctionPrototype : loc := 1.

(** ** Errors *)

Inductive error :=
  | TypeError
  | OutOfFuel
  | BadRef          (* a reference to an object that is not in the heap *)
  | Unsupported.    (* property access on a primitive, array or closure *)

Inductive result (A : Type) :=
  | Ok (a : A)
  | Fail (e : error).
Arguments Ok {A} a.
Arguments Fail {A} e.

Definition bind {A B} (m : result A) (f : A -> result B) : result B :=
  match m with
  | Ok a => f a
  | Fail e => Fail e
  end.

Notation "'let*' p ':=' m 'in' f" := (bind m (fun p => f))
  (at level 10, p as pattern, m at level 100, f at level 200).

Definition is_ok {A} (m : result A) : bool :=
  match m with Ok _ => true | Fail _ => false end.

(** ** Own properties *)

Fixpoint own (ps : list (key * property)) (k : key) : option property :=
  match ps with
  | [] => None
  | (k', p) :: ps' => if decide (k' = k) then Some p else own ps' k
  end.

(** Replace the entry of [k] in place, or append it: own keys keep their
    creation order. *)
Fixpoint put (ps : list (key * property)) (k : key) (p : property)
  : list (key * property) :=
  match ps with
  | [] => [(k, p)]
  | (k', p') :: ps' =>
      if decide (k' = k) then (k, p) :: ps' else (k', p') :: put ps' k p
  end.

Definition data (v : value) : property := mkProperty v true true true.

Definition with_props (o : object) (ps : list (key * property)) : object :=
  mkObject (proto o) ps (extensible o) (construct_of o).

Definition with_proto (o : object) (p : option loc) : object :=
  mkObject p (props o) (extensible o) (construct_of o).

Definition alloc (h : heap) (o : object) : heap * loc := (h ++ [o], length h).

Definition fetch (h : heap) (l : loc) : result object :=
  match h !! l with
  | Some o => Ok o
  | None => Fail BadRef
  end.

(** ** Prototype chain walks *)

(** [hasPrototype]'s loop: [current] is [currentInstancePrototype]. *)
Fixpoint hasPrototype_loop (fuel : nat) (h : heap) (current : option loc)
    (prototype : loc) : result bool :=
  match current with
  | None => Ok false
  | Some c =>
      match fuel with
      | 0 => Fail OutOfFuel
      | S n =>
          if decide (c = prototype) then Ok true
          else let* o := fetch h c in hasPrototype_loop n h (proto o) prototype
      end
  end.

(** The first property named [k] along the chain that starts at [start]. *)
Fixpoint find_prop (fuel : nat) (h : heap) (start : option loc) (k : key)
  : result (option property) :=
  match start with
  | None => Ok None
  | Some l =>
      match fuel with
      | 0 => Fail OutOfFuel
      | S n =>
          let* o := fetch h l in
          match own (props o) k with
          | Some p => Ok (Some p)
          | None => find_prop n h (proto o) k
          end
      end
  end.

(** ** The built-in operations the module calls *)

(** Property access needs a heap object: [undefined] and [null] throw,
    the other values (whose properties live on intrinsics that are not in the
    heap) are outside the model. *)
Definition to_loc (v : value) : result loc :=
  match v with
  | VObj l => Ok l
  | VUndef | VNull => Fail TypeError
  | _ => Fail Unsupported
  end.

(** [v[k]] *)
Definition js_get (h : heap) (v : value) (k : key) : result value :=
  let* l := to_loc v in
  let* p := find_prop (length h) h (Some l) k in
  Ok (match p with Some p => p_value p | None => VUndef end).

(** [k in v] *)
Definition js_in (h : heap) (k : key) (v : value) : result bool :=
  match v with
  | VObj l =>
      let* p := find_prop (length h) h (Some l) k in
      Ok (match p with Some _ => true | None => false end)
  | VArr _ | VFun _ => Fail Unsupported
  | _ => Fail TypeError
  end.

(** SameValue. Arrays and closures carry no identity here and are compared
    by structure. *)
Fixpoint same_value (a b : value) : bool :=
  match a, b with
  | VUndef, VUndef => true
  | VNull, VNull => true
  | VBool x, VBool y => Bool.eqb x y
  | VNum x, VNum y => Z.eqb x y
  | VStr x, VStr y => bool_decide (x = y)
  | VObj x, VObj y => Nat.eqb x y
  | VArr xs, VArr ys =>
      (fix go (xs ys : list value) : bool :=
         match xs, ys with
         | [], [] => true
         | x :: xs', y :: ys' => same_value x y && go xs' ys'
         | _, _ => false
         end) xs ys
  | VFun f, VFun g => same_closure f g
  | _, _ => false
  end
with same_closure (f g : closure) : bool :=
  match f, g with
  | NativeHasInstance, NativeHasInstance => true
  | AugmentedHasInstance o c, AugmentedHasInstance o' c' =>
      same_value o o' && Nat.eqb c c'
  | _, _ => false
  end.

(** ValidateAndApplyPropertyDescriptor for a complete data descriptor [d]:
    [None] when the definition is rejected. *)
Definition define_own (o : object) (k : key) (d : property) : option object :=
  match own (props o) k with
  | None =>
      if extensible o then Some (with_props o (put (props o) k d)) else None
  | Some cur =>
      if p_configurable cur then Some (with_props o (put (props o) k d))
      else if p_configurable d then None
      else if negb (Bool.eqb (p_enumerable d) (p_enumerable cur)) then None
      else if p_writable cur then Some (with_props o (put (props o) k d))
      else if p_writable d then None
      else if same_value (p_value d) (p_value cur) then Some o
      else None
  end.

(** [Object.defineProperty(v, k, d)] *)
Definition object_defineProperty (h : heap) (v : value) (k : key)
    (d : property) : result heap :=
  match v with
  | VObj l =>
      let* o := fetch h l in
      match define_own o k d with
      | Some o' => Ok (<[l := o']> h)
      | None => Fail TypeError
      end
  | VArr _ | VFun _ => Fail Unsupported
  | _ => Fail TypeError
  end.

Definition of_proto (p : option loc) : value :=
  match p with
  | Some l => VObj l
  | None => VNull
  end.

(** [Object.getPrototypeOf(v)] for a heap object. *)
Definition object_getPrototypeOf (h : heap) (v : value) : result value :=
  let* l := to_loc v in
  let* o := fetch h l in
  Ok (of_proto (proto o)).

(** [Object.setPrototypeOf(target, p)]: [p] must be an object or [null];
    a non-extensible target and a cycle ([target] found on the chain that
    starts at [p]) are rejected. *)
Definition set_proto (h : heap) (t : loc) (p : option loc) : result heap :=
  let* o := fetch h t in
  if decide (proto o = p) then Ok h
  else if negb (extensible o) then Fail TypeError
  else
    let* cyclic := hasPrototype_loop (length h) h p t in
    if (cyclic : bool) then Fail TypeError
    else Ok (<[t := with_proto o p]> h).

Definition object_setPrototypeOf (h : heap) (target : value) (p : value)
  : result heap :=
  match target with
  | VUndef | VNull => Fail TypeError
  | VObj t =>
      match p with
      | VObj l => set_proto h t (Some l)
      | VNull => set_proto h t None
      | _ => Fail TypeError
      end
  | VArr _ | VFun _ => Fail Unsupported
  | _ =>
      match p with
      | VObj _ | VNull => Ok h
      | _ => Fail TypeError
      end
  end.

(** [target[k] = v] in strict code (OrdinarySet with [target] as receiver,
    data properties only). *)
Definition js_set (h : heap) (target : loc) (k : key) (v : value)
  : result heap :=
  let* found := find_prop (length h) h (Some target) k in
  let* o := fetch h target in
  match found with
  | Some p =>
      if negb (p_writable p) then Fail TypeError
      else
        match own (props o) k with
        | Some e =>
            Ok (<[target := with_props o
                   (put (props o) k
                      (mkProperty v (p_writable e) (p_enumerable e)
                         (p_configurable e)))]> h)
        | None =>
            if extensible o
            then Ok (<[target := with_props o (put (props o) k (data v))]> h)
            else Fail TypeError
        end
  | None =>
      if extensible o
      then Ok (<[target := with_props o (put (props o) k (data v))]> h)
      else Fail TypeError
  end.

(** [Object.assign(target, source)]: for every own key of [source], in key
    order, the property is read again and, when enumerable, assigned to
    [target]. *)
Fixpoint assign_keys (h : heap) (target source : loc) (keys : list key)
  : result heap :=
  match keys with
  | [] => Ok h
  | k :: keys' =>
      let* s := fetch h source in
      match own (props s) k with
      | Some p =>
          if p_enumerable p
          then let* h := js_set h target k (p_value p) in
               assign_keys h target source keys'
          else assign_keys h target source keys'
      | None => assign_keys h target source keys'
      end
  end.

Definition object_assign (h : heap) (target source : loc) : result heap :=
  let* _ := fetch h target in
  let* s := fetch h source in
  assign_keys h target source (map fst (props s)).

(** [Object.getOwnPropertyDescriptors(v)] *)
Definition object_getOwnPropertyDescriptors (h : heap) (v : value)
  : result (list (key * property)) :=
  let* l := to_loc v in
  let* o := fetch h l in
  Ok (props o).

(** [Object.create(null, descriptors)] *)
Definition object_create_null (h : heap) (descriptors : list (key * property))
  : heap * loc :=
  alloc h (mkObject None descriptors true Ordinary).

(** ** The composition module *)

(** [Object.getPrototypeOf(instance)] up to the first prototype that is a
    heap object: the prototypes of primitives and arrays are intrinsics
    outside the heap, which the walk of [hasPrototype] can only pass. *)
Definition first_prototype (h : heap) (instance : value)
  : result (option loc) :=
  match instance with
  | VObj l => let* o := fetch h l in Ok (proto o)
  | VUndef | VNull => Fail TypeError
  | VFun _ => Ok (Some FunctionPrototype)
  | _ => Ok (Some ObjectPrototype)
  end.

Definition hasPrototype (h : heap) (instance : value) (prototype : loc)
  : result bool :=
  let* currentInstancePrototype := first_prototype h instance in
  hasPrototype_loop (length h) h currentInstancePrototype prototype.

Definition is_callable (h : heap) (v : value) : result bool :=
  match v with
  | VFun _ => Ok true
  | VObj l =>
      let* o := fetch h l in
      Ok (match construct_of o with Ordinary => false | _ => true end)
  | _ => Ok false
  end.

(** OrdinaryHasInstance(C, O) *)
Definition ordinary_has_instance (h : heap) (C O : value) : result bool :=
  let* callable := is_callable h C in
  if negb callable then Ok false
  else
    match O with
    | VObj _ | VArr _ | VFun _ =>
        let* P := js_get h C (KStr "prototype") in
        match P with
        | VObj p =>
            let* start := first_prototype h O in
            hasPrototype_loop (length h) h start p
        | _ => Fail TypeError
        end
    | _ => Ok false
    end.

(** Calling a predicate with a [this] value and one argument. The arrow
    function of [clonePrototype] is
    [originalInstanceOf?.(instance) || hasPrototype(instance, clone)]:
    it calls [originalInstanceOf] as a plain function, so with [this]
    undefined, and ignores its own [this]. *)
Fixpoint call_closure (h : heap) (f : closure) (this : value)
    (instance : value) : result bool :=
  match f with
  | NativeHasInstance => ordinary_has_instance h this instance
  | AugmentedHasInstance originalInstanceOf clone =>
      let* r :=
        match originalInstanceOf with
        | VUndef | VNull => Ok false
        | VFun g => call_closure h g VUndef instance
        | _ => Fail TypeError
        end in
      if (r : bool) then Ok true else hasPrototype h instance clone
  end.

(** [V instanceof target] *)
Definition instance_of (h : heap) (V target : value) : result bool :=
  match target with
  | VObj _ =>
      let* handler := js_get h target hasInstanceKey in
      match handler with
      | VUndef | VNull =>
          let* callable := is_callable h target in
          if (callable : bool) then ordinary_has_instance h target V
          else Fail TypeError
      | VFun f => call_closure h f target V
      | _ => Fail TypeError
      end
  | VArr _ | VFun _ => Fail Unsupported
  | _ => Fail TypeError
  end.

Definition clonePrototype (h : heap) (prototype : value)
  : result (heap * loc) :=
  let* descriptors := object_getOwnPropertyDescriptors h prototype in
  let (h, clone) := object_create_null h descriptors in
  let* constructor := js_get h prototype (KStr "constructor") in
  let* h := js_set h clone (KStr "constructor") constructor in
  let* constructor := js_get h prototype (KStr "constructor") in
  let* originalInstanceOf := js_get h constructor hasInstanceKey in
  let* constructor := js_get h prototype (KStr "constructor") in
  let* h :=
    object_defineProperty h constructor hasInstanceKey
      (mkProperty (VFun (AugmentedHasInstance originalInstanceOf clone))
         true false true) in
  Ok (h, clone).

Fixpoint clonePrototypeDeep_loop (fuel : nat) (h : heap) (lastPrototype : loc)
    (nextPrototype : value) : result (heap * loc) :=
  match nextPrototype with
  | VNull | VUndef => Ok (h, lastPrototype)
  | VObj np =>
      if decide (np = ObjectPrototype) then Ok (h, lastPrototype)
      else
        match fuel with
        | 0 => Fail OutOfFuel
        | S n =>
            let* (h, nextPrototypeClone) := clonePrototype h nextPrototype in
            let* h :=
              object_setPrototypeOf h (VObj lastPrototype)
                (VObj nextPrototypeClone) in
            let* nextPrototype := object_getPrototypeOf h nextPrototype in
            clonePrototypeDeep_loop n h nextPrototypeClone nextPrototype
        end
  | _ => Fail Unsupported
  end.

(** Returns the heap, [prototype] (the clone) and [lastPrototype]. *)
Definition clonePrototypeDeep (h : heap) (prototype : value)
  : result (heap * loc * loc) :=
  let* (h, clone) := clonePrototype h prototype in
  let* nextPrototype := object_getPrototypeOf h prototype in
  let* (h, lastPrototype) :=
    clonePrototypeDeep_loop (length h) h clone nextPrototype in
  Ok (h, clone, lastPrototype).

(** ** Classes and construction *)

Definition is_constructor (h : heap) (l : loc) : result bool :=
  let* o := fetch h l in
  Ok (match construct_of o with Ordinary => false | _ => true end).

Fixpoint define_all (o : object) (fields : list (key * value))
  : option object :=
  match fields with
  | [] => Some o
  | (k, v) :: fields' =>
      match define_own o k (data v) with
      | Some o' => define_all o' fields'
      | None => None
      end
  end.

Definition hidden (v : value) : property := mkProperty v true false true.

(** Evaluation of a class definition
    [class name (extends superclass)? { static k = v; ... m() {} ... }]:
    the prototype object is allocated first, then the constructor. *)
Definition define_class (h : heap) (name : string) (superclass : option loc)
    (b : behaviour) (statics : list (key * value))
    (methods : list (key * value)) : result (heap * loc) :=
  let* parents :=
    match superclass with
    | None => Ok (Some ObjectPrototype, Some FunctionPrototype)
    | Some s =>
        let* c := is_constructor h s in
        if negb c then Fail TypeError
        else
          let* protoParent := js_get h (VObj s) (KStr "prototype") in
          match protoParent with
          | VObj p => Ok (Some p, Some s)
          | VNull => Ok (None, Some s)
          | _ => Fail TypeError
          end
    end in
  let F := S (length h) in
  let prototype :=
    mkObject (fst parents)
      ((KStr "constructor", hidden (VObj F))
       :: map (fun m => (fst m, hidden (snd m))) methods)
      true Ordinary in
  let constructor :=
    mkObject (snd parents)
      [(KStr "length", mkProperty (VNum 0) false false true);
       (KStr "name", mkProperty (VStr name) false false true);
       (KStr "prototype", mkProperty (VObj (length h)) false false false)]
      true b in
  match define_all constructor statics with
  | Some constructor => Ok (h ++ [prototype; constructor], F)
  | None => Fail TypeError
  end.

(** [...v] in an argument list *)
Definition spread (v : option value) : result (list value) :=
  match v with
  | Some (VArr vs) => Ok vs
  | Some (VStr _) => Fail Unsupported
  | _ => Fail TypeError
  end.

Definition define_fields (h : heap) (this : loc) (fields : list (key * value))
  : result heap :=
  let* o := fetch h this in
  match define_all o fields with
  | Some o' => Ok (<[this := o']> h)
  | None => Fail TypeError
  end.

(** The statements [Object.defineProperty(this, k, d)] of an initializer,
    in order. *)
Fixpoint define_properties (h : heap) (this : loc)
    (members : list (key * property)) : result heap :=
  match members with
  | [] => Ok h
  | (k, d) :: members' =>
      let* h := object_defineProperty h (VObj this) k d in
      define_properties h this members'
  end.

(** The [forEach] of the composite constructor, over
    [constructors.slice(1)], with [construct] the operator [new]. *)
Fixpoint mix_each (construct : heap -> loc -> list value -> loc ->
                               result (heap * loc))
    (h : heap) (this : loc) (rest : list loc) (index : nat)
    (parameters : list value) : result heap :=
  match rest with
  | [] => Ok h
  | nextConstructor :: rest' =>
      let* args := spread (parameters !! (index + 1)) in
      let* (h, instance) := construct h nextConstructor args nextConstructor in
      let* h := object_assign h this instance in
      mix_each construct h this rest' (S index) parameters
  end.

(** [new c(...args)] with [new.target = newTarget]. *)
Fixpoint construct_fuel (fuel : nat) (h : heap) (c : loc)
    (args : list value) (newTarget : loc) : result (heap * loc) :=
  match fuel with
  | 0 => Fail OutOfFuel
  | S n =>
      let* co := fetch h c in
      match construct_of co with
      | Ordinary => Fail TypeError
      | BaseClass init =>
          let* p := js_get h (VObj newTarget) (KStr "prototype") in
          let (h, this) :=
            alloc h (mkObject
                       (match p with
                        | VObj l => Some l
                        | _ => Some ObjectPrototype
                        end) [] true Ordinary) in
          let* h := define_fields h this (init args) in
          Ok (h, this)
      | DerivedClass superArgs init =>
          match proto co with
          | Some super =>
              let* (h, this) :=
                construct_fuel n h super (superArgs args) newTarget in
              let* h := define_fields h this (init args) in
              Ok (h, this)
          | None => Fail TypeError
          end
      | MixClass constructors =>
          match proto co with
          | Some super =>
              let* args0 := spread (args !! 0) in
              let* (h, this) := construct_fuel n h super args0 newTarget in
              let* h :=
                mix_each (construct_fuel n) h this (tail constructors) 0
                  args in
              Ok (h, this)
          | None => Fail TypeError
          end
      | DefiningClass define =>
          let* p := js_get h (VObj newTarget) (KStr "prototype") in
          let (h, this) :=
            alloc h (mkObject
                       (match p with
                        | VObj l => Some l
                        | _ => Some ObjectPrototype
                        end) [] true Ordinary) in
          let* h := define_properties h this (define args) in
          Ok (h, this)
      end
  end.

(** [Reflect.construct(c, args, newTarget)], what [super(...args)] does in
    a constructor called with that [new.target]. *)
Definition construct_as (h : heap) (c : loc) (args : list value)
    (newTarget : loc) : result (heap * loc) :=
  construct_fuel (length h) h c args newTarget.

(** [new c(...args)] *)
Definition construct (h : heap) (c : loc) (args : list value)
  : result (heap * loc) :=
  construct_as h c args c.

(** ** [Mix] *)

(** The [for] loop over [constructors.slice(1)]. *)
Fixpoint Mix_link (h : heap) (lastPrototype : value) (rest : list loc)
  : result (heap * value) :=
  match rest with
  | [] => Ok (h, lastPrototype)
  | nextConstructor :: rest' =>
      let* nextPrototype :=
        js_get h (VObj nextConstructor) (KStr "prototype") in
      let* (h, prototype, _) := clonePrototypeDeep h nextPrototype in
      let* h := object_setPrototypeOf h lastPrototype (VObj prototype) in
      let* lastPrototype := object_getPrototypeOf h lastPrototype in
      Mix_link h lastPrototype rest'
  end.

(** The [for] loop that assigns the static properties. *)
Fixpoint Mix_statics (h : heap) (create : loc) (constructors : list loc)
  : result heap :=
  match constructors with
  | [] => Ok h
  | nextConstructor :: rest =>
      let* h := object_assign h create nextConstructor in
      Mix_statics h create rest
  end.

Definition Mix (h : heap) (constructors : list loc) : result (heap * loc) :=
  match constructors with
  | [] => define_class h "" None (BaseClass (fun _ => [])) [] []
  | [firstConstructor] => Ok (h, firstConstructor)
  | firstConstructor :: rest =>
      let lastConstructor := List.last rest firstConstructor in
      (* 1. Build the prototype chain *)
      let* firstPrototype :=
        js_get h (VObj firstConstructor) (KStr "prototype") in
      let* (h, prototype, lastPrototype) :=
        clonePrototypeDeep h firstPrototype in
      let* (h, lastPrototype) := Mix_link h (VObj lastPrototype) rest in
      let* lastOriginal :=
        js_get h (VObj lastConstructor) (KStr "prototype") in
      let* h := object_setPrototypeOf h lastPrototype lastOriginal in
      (* 2. Create the constructor that compose all other constructors *)
      let* (h, create) :=
        define_class h "create" (Some firstConstructor)
          (MixClass constructors)
          [(mixOf, VArr (map VObj constructors))] [] in
      (* 3. Assign the prototype chain *)
      let* createPrototype := js_get h (VObj create) (KStr "prototype") in
      let* h := object_setPrototypeOf h createPrototype (VObj prototype) in
      (* 4. assign static properties *)
      let* h := Mix_statics h create constructors in
      Ok (h, create)
  end.

(** ** [reuse] *)

Definition reuse (h : heap) (container val : value)
  : result (heap * value) :=
  let* present := js_in h reuseSymbol container in
  if (present : bool) then
    let* stored := js_get h container reuseSymbol in
    Ok (h, stored)
  else
    let* h :=
      object_defineProperty h container reuseSymbol
        (mkProperty val false false false) in
    Ok (h, val).

(** ** Prototype chains and well-formed heaps *)

(** [chain h start c]: following the prototype links from [start] visits
    exactly the objects [c] and ends on [null]. *)
Inductive chain (h : heap) : option loc -> list loc -> Prop :=
  | chain_nil : chain h None []
  | chain_cons l o c :
      h !! l = Some o -> chain h (proto o) c -> chain h (Some l) (l :: c).

(** Every prototype chain of the heap ends: there is no cycle and no link
    to an object that is not in the heap. *)
Definition heap_ok (h : heap) : Prop :=
  forall l o, h !! l = Some o -> exists c, chain h (proto o) c.

Fixpoint chain_of (fuel : nat) (h : heap) (start : option loc)
  : result (list loc) :=
  match start with
  | None => Ok []
  | Some l =>
      match fuel with
      | 0 => Fail OutOfFuel
      | S n =>
          let* o := fetch h l in
          let* c := chain_of n h (proto o) in
          Ok (l :: c)
      end
  end.

Definition heap_okb (h : heap) : bool :=
  forallb (fun o => is_ok (chain_of (length h) h (proto o))) h.

(** No own property holds a reference to an object outside the heap. *)
Definition refs_ok (h : heap) : Prop :=
  forall l o k p q,
    h !! l = Some o -> own (props o) k = Some p -> p_value p = VObj q ->
    q < length h.

Definition refs_okb (h : heap) : bool :=
  forallb (fun o =>
    forallb (fun kp =>
      match p_value (snd kp) with
      | VObj q => bool_decide (q < length h)
      | _ => true
      end) (props o)) h.

(** The first own property named [k] among the objects [c]. *)
Fixpoint first_own (h : heap) (c : list loc) (k : key) : option property :=
  match c with
  | [] => None
  | l :: c' =>
      match h !! l with
      | Some o =>
          match own (props o) k with
          | Some p => Some p
          | None => first_own h c' k
          end
      | None => None
      end
  end.

(** [edge h a b]: [b] is the prototype of [a]. *)
Definition edge (h : heap) (a b : loc) : Prop :=
  exists o, h !! a = Some o /\ proto o = Some b.

(** An edge that does not leave [t]. *)
Definition edge_avoid (h : heap) (t : loc) (a b : loc) : Prop :=
  a <> t /\ edge h a b.

(** ** Predicates stored under [Symbol.hasInstance] *)

(** Values that [originalInstanceOf?.(instance)] can be applied to without
    a TypeError: nothing, or one of the two predicates. *)
Fixpoint safe_closure (f : closure) : Prop :=
  match f with
  | NativeHasInstance => True
  | AugmentedHasInstance o _ =>
      match o with
      | VUndef | VNull => True
      | VFun g => safe_closure g
      | _ => False
      end
  end.

Definition safe_value (v : value) : Prop :=
  match v with
  | VUndef | VNull => True
  | VFun f => safe_closure f
  | _ => False
  end.

Definition predicates_ok (h : heap) : Prop :=
  forall l o p,
    h !! l = Some o -> own (props o) hasInstanceKey = Some p ->
    safe_value (p_value p).



(** [consults f c]: the predicate [f] tests for the duplicate [c]. *)
Fixpoint consults (f : closure) (c : loc) : Prop :=
  match f with
  | NativeHasInstance => False
  | AugmentedHasInstance o c' =>
      c' = c \/ match o with VFun g => consults g c | _ => False end
  end.

(** [wraps n f orig]: [f] is a tower of one or more augmentations, each for
    a duplicate allocated at [n] or later, around the predicate [orig]. *)
Fixpoint wraps (n : nat) (f : closure) (orig : value) : Prop :=
  match f with
  | NativeHasInstance => False
  | AugmentedHasInstance o c =>
      n <= c /\
      (o = orig \/ match o with VFun g => wraps n g orig | _ => False end)
  end.

(** The property [clonePrototype] defines on a constructor. *)
Definition augmented (f : closure) : property :=
  mkProperty (VFun f) true false true.

(** ** Relations between the heaps of one composition *)

(** Objects that differ at most in their property table. *)
Definition same_shape (o o' : object) : Prop :=
  proto o' = proto o /\ extensible o' = extensible o /\
  construct_of o' = construct_of o.

(** [old_ok n h]: the first [n] objects, those that existed when the
    composition started, refer only to each other. *)
Definition old_ok (n : nat) (h : heap) : Prop :=
  n <= length h /\
  (forall l, l < n ->
     exists c, chain h (Some l) c /\ Forall (fun x => x < n) c) /\
  (forall l o k p q,
     l < n -> h !! l = Some o -> own (props o) k = Some p ->
     p_value p = VObj q -> q < n).

(** [grows n h h']: from [h] to [h'] each of the first [n] objects is either
    untouched or had its own [Symbol.hasInstance] replaced by a tower of
    augmentations around the predicate it answered to in [h]; and it is then
    the [constructor] of one of these objects. *)
Definition grows (n : nat) (h h' : heap) : Prop :=
  length h <= length h' /\
  forall l o, l < n -> h !! l = Some o ->
    exists o', h' !! l = Some o' /\ same_shape o o' /\
      (props o' = props o \/
       exists f orig q,
         props o' = put (props o) hasInstanceKey (augmented f) /\
         js_get h (VObj l) hasInstanceKey = Ok orig /\
         wraps n f orig /\
         q < n /\ js_get h (VObj q) (KStr "constructor") = Ok (VObj l)).

Definition protos_kept (h h' : heap) : Prop :=
  length h <= length h' /\
  forall l o, h !! l = Some o ->
    exists o', h' !! l = Some o' /\ proto o' = proto o.

(** The constructor [S] answers for the duplicate [c]. *)
Definition registered (h : heap) (S : loc) (c : loc) : Prop :=
  exists o p f,
    h !! S = Some o /\ own (props o) hasInstanceKey = Some p /\
    p_value p = VFun f /\ consults f c.

Definition state_ok (n : nat) (h : heap) : Prop :=
  heap_ok h /\ old_ok n h.

Definition value_of (p : option property) : value :=
  match p with
  | Some p => p_value p
  | None => VUndef
  end.

(** A constructor whose [prototype] is an object that names it as its
    [constructor], as every class definition makes it. *)
Definition class_like (h : heap) (s : loc) : Prop :=
  exists p,
    js_get h (VObj s) (KStr "prototype") = Ok (VObj p) /\
    js_get h (VObj p) (KStr "constructor") = Ok (VObj s).

Definition class_likeb (h : heap) (s : loc) : bool :=
  match js_get h (VObj s) (KStr "prototype") with
  | Ok (VObj p) =>
      match js_get h (VObj p) (KStr "constructor") with
      | Ok (VObj s') => bool_decide (s' = s)
      | _ => false
      end
  | _ => false
  end.

(** ** Reading own properties *)

Definition own_value (o : object) (k : key) : option value :=
  p_value <$> own (props o) k.

(** The value [Object.assign] copies from [o] for the key [k]. *)
Definition enumerable_own (o : object) (k : key) : option value :=
  match own (props o) k with
  | Some p => if p_enumerable p then Some (p_value p) else None
  | None => None
  end.

(** The value of the static [k] on the last of [srcs] that has it as an own
    enumerable property. *)
Fixpoint last_static (h : heap) (srcs : list loc) (k : key) : option value :=
  match srcs with
  | [] => None
  | s :: rest =>
      match last_static h rest k with
      | Some v => Some v
      | None =>
          match h !! s with
          | Some so => enumerable_own so k
          | None => None
          end
      end
  end.

(** The own properties of the class [create] when its definition has been
    evaluated. *)
Definition create_props (prototype : loc) (constructors : list loc)
  : list (key * property) :=
  [(KStr "length", mkProperty (VNum 0) false false true);
   (KStr "name", mkProperty (VStr "create") false false true);
   (KStr "prototype", mkProperty (VObj prototype) false false false);
   (mixOf, data (VArr (map VObj constructors)))].

(** ** Construction *)





(** ** Example programs *)

(** The intrinsics: [Object.prototype], [Function.prototype] and
    [Object]. *)
Definition realm : heap :=
  [ mkObject None [(KStr "constructor", hidden (VObj 2))] true Ordinary;
    mkObject (Some ObjectPrototype)
      [(hasInstanceKey, mkProperty (VFun NativeHasInstance) false false false)]
      true Ordinary;
    mkObject (Some FunctionPrototype)
      [(KStr "length", mkProperty (VNum 1) false false true);
       (KStr "name", mkProperty (VStr "Object") false false true);
       (KStr "prototype", mkProperty (VObj ObjectPrototype) false false false)]
      true (BaseClass (fun _ => [])) ].

Definition arg0 (args : list value) : value :=
  match args with
  | v :: _ => v
  | [] => VUndef
  end.

Definition no_fields (args : list value) : list (key * value) := [].

Definition run {A} (m : result A) (default : A) : A :=
  match m with
  | Ok a => a
  | Fail _ => default
  end.

(** [class A { static value = "a"; constructor(arg) { this.a = arg } }]
    [class B { static value = "b"; constructor(arg) { this.b = arg } }] *)
Definition classes_AB : heap * loc * loc :=
  run (let* (h, A) :=
         define_class realm "A" None
           (BaseClass (fun args => [(KStr "a", arg0 args)]))
           [(KStr "value", VStr "a")] [] in
       let* (h, B) :=
         define_class h "B" None
           (BaseClass (fun args => [(KStr "b", arg0 args)]))
           [(KStr "value", VStr "b")] [] in
       Ok (h, A, B)) ([], 0, 0).

Definition heap_AB : heap := fst (fst classes_AB).
Definition class_A : loc := snd (fst classes_AB).
Definition class_B : loc := snd classes_AB.

(** [const a = new A("x")] in the heap of the two classes. *)
Definition heap_AB_a : heap * loc :=
  run (construct heap_AB class_A [VStr "x"]) ([], 0).

(** [class A {}  class B0 { m() {} }  class B extends B0 {}  class C {}] *)
Definition classes_ABC : heap * (loc * loc * loc * loc) :=
  run (let* (h, A) := define_class realm "A" None (BaseClass no_fields) [] [] in
       let* (h, B0) :=
         define_class h "B0" None (BaseClass no_fields) []
           [(KStr "m", VStr "B0.prototype.m")] in
       let* (h, B) :=
         define_class h "B" (Some B0)
           (DerivedClass (fun args => args) no_fields) [] [] in
       let* (h, C) := define_class h "C" None (BaseClass no_fields) [] [] in
       Ok (h, (A, B0, B, C))) ([], (0, 0, 0, 0)).

(** [class T {}  class S extends T {}  class U {}  class V {}] *)
Definition classes_TSUV : heap * (loc * loc * loc * loc) :=
  run (let* (h, T) := define_class realm "T" None (BaseClass no_fields) [] [] in
       let* (h, Sub) :=
         define_class h "S" (Some T)
           (DerivedClass (fun args => args) no_fields) [] [] in
       let* (h, U) := define_class h "U" None (BaseClass no_fields) [] [] in
       let* (h, V) := define_class h "V" None (BaseClass no_fields) [] [] in
       Ok (h, (T, Sub, U, V))) ([], (0, 0, 0, 0)).

(** [const m1 = new (Mix(T, U))([], [])] *)
Definition heap_TU_instance : heap * loc :=
  run (let* (h, M1) :=
         Mix (fst classes_TSUV)
           [fst (fst (fst (snd classes_TSUV))); snd (fst (snd classes_TSUV))] in
       construct h M1 [VArr []; VArr []]) ([], 0).

(** Three plain containers: a parent, a child that inherits from it, and
    a frozen object. *)
Definition containers : heap :=
  realm ++
  [ mkObject (Some ObjectPrototype) [] true Ordinary;
    mkObject (Some 3) [] true Ordinary;
    mkObject (Some ObjectPrototype) [(KStr "x", mkProperty (VNum 1) false true false)]
      false Ordinary ].

Definition parent_container : loc := 3.
Definition child_container : loc := 4.
Definition frozen_container : loc := 5.

(** A sequence of calls [reuse(container, value)]. *)
Fixpoint reuse_all (h : heap) (calls : list (value * value)) : result heap :=
  match calls with
  | [] => Ok h
  | (container, val) :: calls' =>
      let* (h, _) := reuse h container val in
      reuse_all h calls'
  end.

(** [Mix(A, B)] and [new (Mix(A, B))(["x"], ["y"])]. *)
Definition mixed_AB : heap * loc :=
  run (Mix heap_AB [class_A; class_B]) ([], 0).

Definition parameters_xy : list value := [VArr [VStr "x"]; VArr [VStr "y"]].

Definition instance_AB : heap * loc :=
  run (construct (fst mixed_AB) (snd mixed_AB) parameters_xy) ([], 0).

(** [Mix(A, B)] evaluated after [const a = new A("x")]. *)
Definition mixed_AB_after_a : heap * loc :=
  run (Mix (fst heap_AB_a) [class_A; class_B]) ([], 0).

Definition class_B0 : loc := snd (fst (fst (snd classes_ABC))).
Definition class_B_of_B0 : loc := snd (fst (snd classes_ABC)).

(** [new (Mix(A, B, C))([], [], [])], where [B extends B0]. *)
Definition instance_ABC : heap * loc :=
  run (let* (h, M) :=
         Mix (fst classes_ABC)
           [fst (fst (fst (snd classes_ABC))); class_B_of_B0;
            snd (snd classes_ABC)] in
       construct h M [VArr []; VArr []; VArr []]) ([], 0).

(** [new B()] in the same heap. *)
Definition instance_B_of_B0 : heap * loc :=
  run (construct (fst classes_ABC) class_B_of_B0 []) ([], 0).

Definition class_S_of_T : loc := snd (fst (fst (snd classes_TSUV))).
Definition class_V : loc := snd (snd classes_TSUV).

(** [Mix(S, V)] evaluated after [m1] was built from [Mix(T, U)]. *)
Definition mixed_SV : heap * loc :=
  run (Mix (fst heap_TU_instance) [class_S_of_T; class_V]) ([], 0).

(** The containers after [reuse(parent, "a")]. *)
Definition containers_after_parent : heap :=
  fst (run (reuse containers (VObj parent_container) (VStr "a"))
         ([], VUndef)).









(** ** Failures of the model itself *)

(** [genuine m]: if [m] fails, it is with an error of the program (a
    TypeError, or a value outside the model), not because the fuel ran out
    or a reference pointed outside the heap. *)
Definition genuine {A} (m : result A) : Prop :=
  forall e, m = Fail e -> e <> OutOfFuel /\ e <> BadRef.

(** ** Duplicates of member tables *)

(** [duplicate_of h h' q c]: the object [c] of [h'] carries the own
    properties of the object [q] of [h], with their attributes, but for
    [constructor], which holds the object that [q.constructor] evaluates
    to in [h] (and for [Symbol.hasInstance], which [clonePrototype] may have
    replaced on [q] before it is duplicated). *)
Definition duplicate_of (h h' : heap) (q c : loc) : Prop :=
  exists qo co ctor,
    h !! q = Some qo /\ h' !! c = Some co /\
    (forall k, k <> KStr "constructor" -> k <> hasInstanceKey ->
       own (props co) k = own (props qo) k) /\
    js_get h (VObj q) (KStr "constructor") = Ok (VObj ctor) /\
    own_value co (KStr "constructor") = Some (VObj ctor).

(** The part of a prototype chain that the loop of [clonePrototypeDeep]
    walks: up to [Object.prototype], which is left out. *)
Fixpoint until_root (c : list loc) : list loc :=
  match c with
  | [] => []
  | a :: c' =>
      if decide (a = ObjectPrototype) then [] else a :: until_root c'
  end.

(** ** More example programs *)

Definition class_T : loc := fst (fst (fst (snd classes_TSUV))).

(** [Mix(T, V)] evaluated after [m1] was built from [Mix(T, U)]. *)
Definition mixed_TV : heap * loc :=
  run (Mix (fst heap_TU_instance) [class_T; class_V]) ([], 0).

(** [clonePrototype(A.prototype)] in the heap of the classes [A] and [B]. *)
Definition cloned_A_prototype : heap * loc :=
  run (clonePrototype heap_AB (VObj 3)) ([], 0).

(** [clonePrototypeDeep(B.prototype)] where [B extends B0]. *)
Definition cloned_B_ancestry : heap * loc * loc :=
  run (let* p := js_get (fst classes_ABC) (VObj class_B_of_B0)
                   (KStr "prototype") in
       clonePrototypeDeep (fst classes_ABC) p) ([], 0, 0).










(** [class N { static name = "n" }] beside [A] and [B]. *)
Definition class_with_static_name : heap * loc :=
  run (define_class heap_AB "N" None (BaseClass no_fields)
         [(KStr "name", VStr "n")] []) ([], 0).

(** [Mix(Mix(A, B), A)] *)
Definition mixed_AB_A : heap * loc :=
  run (Mix (fst mixed_AB) [snd mixed_AB; class_A]) ([], 0).




(** ** Fields *)


(** ** Sealed objects *)

(** What [Object.seal] and [Object.freeze] leave: no property can be added
    and none reconfigured. *)
Definition sealed (o : object) : Prop :=
  extensible o = false /\
  forall k p, own (props o) k = Some p -> p_configurable p = false.

Definition seal (o : object) : object :=
  mkObject (proto o)
    (map (fun kp =>
            (fst kp,
             mkProperty (p_value (snd kp)) (p_writable (snd kp))
               (p_enumerable (snd kp)) false)) (props o))
    false (construct_of o).

(** [Object.seal(B)] in the heap of the classes [A] and [B]. *)
Definition heap_AB_sealed : heap :=
  match heap_AB !! class_B with
  | Some o => <[class_B := seal o]> heap_AB
  | None => heap_AB
  end.

(** [Object.assign(child, parent)] after [reuse(parent, "a")]. *)
Definition containers_assigned : heap :=
  run (object_assign containers_after_parent child_container
         parent_container) [].






(** * Proofs *)

(** ** The error monad *)

Lemma bind_ok {A B} (m : result A) (f : A -> result B) (b : B) :
  bind m f = Ok b -> exists a, m = Ok a /\ f a = Ok b.
Proof. destruct m; simpl; [eauto | discriminate]. Qed.

Lemma fetch_ok (h : heap) (l : loc) (o : object) :
  fetch h l = Ok o <-> h !! l = Some o.
Proof. unfold fetch. destruct (h !! l); split; congruence. Qed.

Lemma fetch_some (h : heap) (l : loc) (o : object) :
  h !! l = Some o -> fetch h l = Ok o.
Proof. apply fetch_ok. Qed.

(** ** Own property tables *)

Lemma own_put_eq (ps : list (key * property)) (k : key) (p : property) :
  own (put ps k p) k = Some p.
Proof.
  induction ps as [|[k' p'] ps IH]; simpl.
  - destruct (decide (k = k)); congruence.
  - destruct (decide (k' = k)) as [->|Hne]; simpl.
    + destruct (decide (k = k)); congruence.
    + destruct (decide (k' = k)); [congruence | exact IH].
Qed.

Lemma own_put_ne (ps : list (key * property)) (k k' : key) (p : property) :
  k <> k' -> own (put ps k p) k' = own ps k'.
Proof.
  intros Hne. induction ps as [|[k0 p0] ps IH]; simpl.
  - destruct (decide (k = k')); congruence.
  - destruct (decide (k0 = k)) as [->|Hne0]; simpl.
    + destruct (decide (k = k')); [congruence | reflexivity].
    + destruct (decide (k0 = k')); [reflexivity | exact IH].
Qed.

Lemma put_put (ps : list (key * property)) (k : key) (p p' : property) :
  put (put ps k p) k p' = put ps k p'.
Proof.
  induction ps as [|[k0 p0] ps IH]; simpl.
  - destruct (decide (k = k)); congruence.
  - destruct (decide (k0 = k)) as [->|Hne]; simpl.
    + destruct (decide (k = k)); congruence.
    + destruct (decide (k0 = k)); [congruence | by rewrite IH].
Qed.

Lemma own_put (ps : list (key * property)) (k k' : key) (p : property) :
  own (put ps k p) k' = if decide (k = k') then Some p else own ps k'.
Proof.
  destruct (decide (k = k')) as [->|Hne];
    [apply own_put_eq | by apply own_put_ne].
Qed.

(** ** Chains *)

Lemma chain_det (h : heap) (s : option loc) (c1 c2 : list loc) :
  chain h s c1 -> chain h s c2 -> c1 = c2.
Proof.
  intros H1. revert c2. induction H1 as [|l o c Hl Hc IH]; intros c2 H2.
  - by inversion H2.
  - inversion H2 as [|l' o' c' Hl' Hc']; subst.
    rewrite Hl in Hl'. injection Hl' as <-. f_equal. by apply IH.
Qed.

Lemma chain_bound (h : heap) (s : option loc) (c : list loc) :
  chain h s c -> Forall (fun x => x < length h) c.
Proof.
  induction 1 as [|l o c Hl Hc IH]; constructor; [|done].
  by eapply lookup_lt_Some.
Qed.

(** From any object of a chain, the rest of the chain is its chain. *)
Lemma chain_split (h : heap) (s : option loc) (c : list loc) (x : loc) :
  chain h s c -> x ∈ c ->
  exists c1 c2, c = c1 ++ x :: c2 /\ chain h (Some x) (x :: c2).
Proof.
  induction 1 as [|l o c Hl Hc IH]; intros Hx.
  - by apply elem_of_nil in Hx.
  - destruct (decide (x = l)) as [->|Hne].
    + exists [], c. split; [done | by econstructor].
    + apply elem_of_cons in Hx as [?|Hx]; [done|].
      destruct (IH Hx) as (c1 & c2 & -> & Hc2).
      by exists (l :: c1), c2.
Qed.

Lemma chain_NoDup (h : heap) (s : option loc) (c : list loc) :
  chain h s c -> NoDup c.
Proof.
  induction 1 as [|l o c Hl Hc IH]; constructor; [|done].
  intros Hin.
  destruct (chain_split _ _ _ _ Hc Hin) as (c1 & c2 & -> & Hc2).
  assert (Heq : l :: c2 = l :: c1 ++ l :: c2).
  { eapply chain_det; [exact Hc2 | by econstructor]. }
  apply (f_equal length) in Heq. simpl in Heq.
  rewrite length_app in Heq. simpl in Heq. lia.
Qed.

Lemma NoDup_bounded_length (c : list nat) (n : nat) :
  NoDup c -> Forall (fun x => x < n) c -> length c <= n.
Proof.
  intros Hnd Hb.
  assert (Hsub : c ⊆ seq 0 n).
  { intros x Hx. apply elem_of_seq. rewrite Forall_forall in Hb.
    specialize (Hb x Hx). lia. }
  pose proof (submseteq_length _ _ (NoDup_submseteq _ _ Hnd Hsub)) as Hlen.
  by rewrite length_seq in Hlen.
Qed.

Lemma chain_length (h : heap) (s : option loc) (c : list loc) :
  chain h s c -> length c <= length h.
Proof.
  intros Hc. apply NoDup_bounded_length;
    [by eapply chain_NoDup | by eapply chain_bound].
Qed.

Lemma heap_ok_chain (h : heap) (l : loc) :
  heap_ok h -> l < length h -> exists c, chain h (Some l) c.
Proof.
  intros Hok Hl. destruct (lookup_lt_is_Some_2 h l Hl) as [o Ho].
  destruct (Hok l o Ho) as [c Hc]. exists (l :: c). by econstructor.
Qed.

(** Enough fuel: the walks compute what the chain says. *)
Lemma hasPrototype_loop_chain (h : heap) (s : option loc) (c : list loc)
    (t : loc) (fuel : nat) :
  chain h s c -> length c <= fuel ->
  hasPrototype_loop fuel h s t = Ok (bool_decide (t ∈ c)).
Proof.
  intros Hc. revert fuel. induction Hc as [|l o c Hl Hc IH]; intros fuel Hf.
  - by destruct fuel.
  - destruct fuel as [|n]; simpl in *; [lia|].
    destruct (decide (l = t)) as [->|Hne].
    + rewrite bool_decide_eq_true_2; [done | apply elem_of_cons; by left].
    + rewrite (fetch_some _ _ _ Hl). simpl. rewrite IH by lia.
      f_equal. apply bool_decide_ext. rewrite elem_of_cons.
      split; [by right | intros [?|?]; [congruence | done]].
Qed.

Lemma find_prop_chain (h : heap) (s : option loc) (c : list loc) (k : key)
    (fuel : nat) :
  chain h s c -> length c <= fuel ->
  find_prop fuel h s k = Ok (first_own h c k).
Proof.
  intros Hc. revert fuel. induction Hc as [|l o c Hl Hc IH]; intros fuel Hf.
  - by destruct fuel.
  - destruct fuel as [|n]; simpl in *; [lia|].
    rewrite (fetch_some _ _ _ Hl), Hl. simpl.
    destruct (own (props o) k); [done|]. apply IH. lia.
Qed.

Lemma chain_of_chain (h : heap) (s : option loc) (c : list loc) (fuel : nat) :
  chain_of fuel h s = Ok c -> chain h s c.
Proof.
  revert s c. induction fuel as [|n IH]; intros [l|] c H; simpl in H;
    try discriminate.
  - injection H as <-. constructor.
  - apply bind_ok in H as (o & Ho & H). apply bind_ok in H as (c' & Hc & H).
    injection H as <-. apply fetch_ok in Ho. econstructor; eauto.
  - injection H as <-. constructor.
Qed.

Lemma heap_okb_ok (h : heap) : heap_okb h = true -> heap_ok h.
Proof.
  unfold heap_okb. rewrite forallb_forall. intros H l o Hl.
  specialize (H o). rewrite <- list_elem_of_In in H.
  assert (Hin : o ∈ h) by (apply list_elem_of_lookup; eauto).
  specialize (H Hin).
  destruct (chain_of (length h) h (proto o)) as [c|] eqn:E; [|done].
  exists c. by eapply chain_of_chain.
Qed.

Lemma refs_okb_ok (h : heap) : refs_okb h = true -> refs_ok h.
Proof.
  unfold refs_okb. rewrite forallb_forall. intros H l o k p q Hl Hown Hq.
  assert (Hin : o ∈ h) by (apply list_elem_of_lookup; eauto).
  apply list_elem_of_In in Hin. specialize (H o Hin).
  rewrite forallb_forall in H.
  assert (Hkp : exists k', In (k', p) (props o)).
  { clear -Hown. induction (props o) as [|[k0 p0] ps IH]; simpl in *;
      [discriminate|].
    destruct (decide (k0 = k)).
    - injection Hown as ->. eauto.
    - destruct (IH Hown) as [k' Hk']. eauto. }
  destruct Hkp as [k' Hk']. specialize (H _ Hk'). simpl in H.
  rewrite Hq in H. by apply bool_decide_eq_true in H.
Qed.



(** ** Well-formedness is kept by the heap updates *)

Lemma hasPrototype_loop_false (fuel : nat) (h : heap) (s : option loc)
    (t : loc) :
  hasPrototype_loop fuel h s t = Ok false ->
  exists c, chain h s c /\ t ∉ c.
Proof.
  revert s. induction fuel as [|n IH]; intros [l|] H; simpl in H;
    try discriminate.
  - exists []. split; [constructor | apply not_elem_of_nil].
  - destruct (decide (l = t)) as [->|Hne]; [discriminate|].
    apply bind_ok in H as (o & Ho & H). apply fetch_ok in Ho.
    destruct (IH _ H) as (c & Hc & Hn). exists (l :: c).
    split; [by econstructor|]. rewrite elem_of_cons. intros [?|?]; congruence.
  - exists []. split; [constructor | apply not_elem_of_nil].
Qed.

Lemma chain_frame (h h' : heap) (s : option loc) (c : list loc) :
  chain h s c ->
  (forall l o, l ∈ c -> h !! l = Some o ->
     exists o', h' !! l = Some o' /\ proto o' = proto o) ->
  chain h' s c.
Proof.
  induction 1 as [|l o c Hl Hc IH]; intros Hf; [constructor|].
  destruct (Hf l o) as (o' & Hl' & Hp); [apply elem_of_cons; by left | done |].
  econstructor; [exact Hl'|]. rewrite Hp. apply IH.
  intros l0 o0 Hin. apply Hf. apply elem_of_cons. by right.
Qed.

Lemma chain_app (h : heap) (o : object) (s : option loc) (c : list loc) :
  chain h s c -> chain (h ++ [o]) s c.
Proof.
  intros Hc. eapply chain_frame; [exact Hc|].
  intros l o0 _ Hl. exists o0. split; [|done].
  by apply lookup_app_l_Some.
Qed.

Lemma heap_ok_alloc (h : heap) (o : object) :
  heap_ok h -> (forall p, proto o = Some p -> p < length h) ->
  heap_ok (h ++ [o]).
Proof.
  intros Hok Hp l o' Hl.
  apply lookup_app_Some in Hl as [Hl|[Hlen Hl]].
  - destruct (Hok _ _ Hl) as [c Hc]. exists c. by apply chain_app.
  - apply list_lookup_singleton_Some in Hl as [_ <-].
    destruct (proto o) as [p|] eqn:E.
    + destruct (heap_ok_chain h p Hok (Hp p eq_refl)) as [c Hc].
      exists c. by apply chain_app.
    + exists []. constructor.
Qed.

Lemma heap_ok_insert (h : heap) (l : loc) (o o' : object) :
  heap_ok h -> h !! l = Some o -> proto o' = proto o ->
  heap_ok (<[l := o']> h).
Proof.
  intros Hok Hl Hp.
  assert (Hfr : forall s c, chain h s c -> chain (<[l := o']> h) s c).
  { intros s c Hc. eapply chain_frame; [exact Hc|].
    intros l0 o0 _ Hl0. destruct (decide (l0 = l)) as [->|Hne].
    - exists o'. split; [|congruence].
      apply list_lookup_insert_eq. by eapply lookup_lt_Some.
    - exists o0. by rewrite list_lookup_insert_ne. }
  intros l0 o0 Hl0. destruct (decide (l0 = l)) as [->|Hne].
  - rewrite list_lookup_insert_eq in Hl0 by (by eapply lookup_lt_Some).
    injection Hl0 as <-. rewrite Hp.
    destruct (Hok _ _ Hl) as [c Hc]. eauto.
  - rewrite list_lookup_insert_ne in Hl0 by done.
    destruct (Hok _ _ Hl0) as [c Hc]. eauto.
Qed.

Lemma set_proto_shape (h h' : heap) (t : loc) (p : option loc) :
  set_proto h t p = Ok h' ->
  exists o, h !! t = Some o /\
    ((h' = h /\ proto o = p) \/
     (h' = <[t := with_proto o p]> h /\ proto o <> p /\
      extensible o = true /\
      hasPrototype_loop (length h) h p t = Ok false)).
Proof.
  unfold set_proto. intros H. apply bind_ok in H as (o & Ho & H).
  apply fetch_ok in Ho. exists o. split; [done|].
  destruct (decide (proto o = p)); [injection H as <-; by left|].
  destruct (extensible o); simpl in H; [|discriminate].
  apply bind_ok in H as (cyc & Hc & H). destruct cyc; [discriminate|].
  injection H as <-. by right.
Qed.

Lemma heap_ok_set_proto (h h' : heap) (t : loc) (p : option loc) :
  heap_ok h -> set_proto h t p = Ok h' -> heap_ok h'.
Proof.
  intros Hok H. apply set_proto_shape in H as (o & Ho & [[-> _]|H]); [done|].
  destruct H as (-> & _ & _ & Hloop).
  apply hasPrototype_loop_false in Hloop as (cp & Hcp & Hn).
  assert (Hlt : t < length h) by (by eapply lookup_lt_Some).
  assert (Hcp' : chain (<[t := with_proto o p]> h) p cp).
  { eapply chain_frame; [exact Hcp|]. intros l o0 Hin Hl.
    exists o0. rewrite list_lookup_insert_ne; [done|]. by intros ->. }
  assert (Hall : forall s c, chain h s c ->
            exists c', chain (<[t := with_proto o p]> h) s c').
  { induction 1 as [|l o0 c Hl Hc [c' IH]]; [exists []; constructor|].
    destruct (decide (l = t)) as [->|Hne].
    - exists (t :: cp). econstructor;
        [by apply list_lookup_insert_eq | done].
    - exists (l :: c'). econstructor; [|exact IH].
      by rewrite list_lookup_insert_ne. }
  intros l o0 Hl. destruct (decide (l = t)) as [->|Hne].
  - rewrite list_lookup_insert_eq in Hl by done. injection Hl as <-.
    simpl. eauto.
  - rewrite list_lookup_insert_ne in Hl by done.
    destruct (Hok _ _ Hl) as [c Hc]. eauto.
Qed.

(** ** What a successful update did *)

Lemma define_own_shape (o o' : object) (k : key) (d : property) :
  define_own o k d = Some o' ->
  o' = o \/ o' = with_props o (put (props o) k d).
Proof.
  unfold define_own. intros H.
  repeat match type of H with
  | context [match ?x with _ => _ end] => destruct x
  end; try discriminate; injection H as <-; auto.
Qed.

Lemma with_props_id (o : object) : with_props o (props o) = o.
Proof. by destruct o. Qed.

Lemma defineProperty_shape (h h' : heap) (l : loc) (k : key) (d : property) :
  object_defineProperty h (VObj l) k d = Ok h' ->
  exists o o', h !! l = Some o /\ define_own o k d = Some o' /\
    h' = <[l := o']> h.
Proof.
  simpl. intros H. apply bind_ok in H as (o & Ho & H). apply fetch_ok in Ho.
  destruct (define_own o k d) as [o'|] eqn:E; [|discriminate].
  injection H as <-. eauto.
Qed.

Lemma js_set_shape (h h' : heap) (t : loc) (k : key) (v : value) :
  js_set h t k v = Ok h' ->
  exists o p, h !! t = Some o /\ p_value p = v /\
    h' = <[t := with_props o (put (props o) k p)]> h.
Proof.
  unfold js_set. intros H. apply bind_ok in H as (found & Hf & H).
  apply bind_ok in H as (o & Ho & H). apply fetch_ok in Ho.
  exists o.
  destruct found as [p|].
  - destruct (p_writable p); simpl in H; [|discriminate].
    destruct (own (props o) k) as [e|].
    + injection H as <-. eexists. split; [done|]. split; [|done]. done.
    + destruct (extensible o); [|discriminate]. injection H as <-.
      exists (data v). done.
  - destruct (extensible o); [|discriminate]. injection H as <-.
    exists (data v). done.
Qed.

(** ** Lookups on the objects that existed before a composition *)

Lemma js_get_chain (h : heap) (l : loc) (c : list loc) (k : key) :
  chain h (Some l) c ->
  js_get h (VObj l) k = Ok (value_of (first_own h c k)).
Proof.
  intros Hc. unfold js_get. simpl.
  rewrite (find_prop_chain _ _ _ k _ Hc (chain_length _ _ _ Hc)). done.
Qed.

Lemma find_prop_own (fuel : nat) (h : heap) (s : option loc) (k : key)
    (p : property) :
  find_prop fuel h s k = Ok (Some p) ->
  exists l o, h !! l = Some o /\ own (props o) k = Some p.
Proof.
  revert s. induction fuel as [|n IH]; intros [l|] H; simpl in H;
    try discriminate.
  apply bind_ok in H as (o & Ho & H). apply fetch_ok in Ho.
  destruct (own (props o) k) as [p'|] eqn:E.
  - injection H as ->. eauto.
  - eauto.
Qed.

Lemma first_own_cons (h : heap) (l : loc) (c : list loc) (k : key) (o : object) :
  h !! l = Some o ->
  first_own h (l :: c) k =
    match own (props o) k with
    | Some p => Some p
    | None => first_own h c k
    end.
Proof. intros Hl. cbn [first_own]. by rewrite Hl. Qed.

Lemma first_own_in (h : heap) (c : list loc) (k : key) (p : property) :
  first_own h c k = Some p ->
  exists l o, l ∈ c /\ h !! l = Some o /\ own (props o) k = Some p.
Proof.
  induction c as [|l c IH]; simpl; [discriminate|].
  destruct (h !! l) as [o|] eqn:El; [|discriminate].
  destruct (own (props o) k) as [p'|] eqn:E.
  - intros [= ->]. exists l, o. split; [apply elem_of_cons; by left | done].
  - intros H. destruct (IH H) as (l' & o' & Hin & ?).
    exists l', o'. split; [apply elem_of_cons; by right | done].
Qed.

Lemma js_get_own (h : heap) (l : loc) (o : object) (k : key) (p : property) :
  h !! l = Some o -> own (props o) k = Some p ->
  js_get h (VObj l) k = Ok (p_value p).
Proof.
  intros Hl Hown. unfold js_get. simpl.
  destruct (length h) as [|n] eqn:E.
  - apply lookup_lt_Some in Hl. lia.
  - simpl. rewrite (fetch_some _ _ _ Hl). simpl. by rewrite Hown.
Qed.

Lemma old_ok_get_lt (n : nat) (h : heap) (l q : loc) (k : key) :
  old_ok n h -> l < n -> js_get h (VObj l) k = Ok (VObj q) -> q < n.
Proof.
  intros (Hlen & Hch & Hrefs) Hl Hget.
  destruct (Hch l Hl) as (c & Hc & Hb).
  rewrite (js_get_chain _ _ _ _ Hc) in Hget. injection Hget as Hget.
  destruct (first_own h c k) as [p|] eqn:E; [|discriminate].
  apply first_own_in in E as (l' & o' & Hin & Hl' & Hown).
  rewrite Forall_forall in Hb. simpl in Hget.
  exact (Hrefs l' o' k p q (Hb _ Hin) Hl' Hown Hget).
Qed.

(** Induction on a predicate through the predicate it wraps. *)
Lemma closure_wrapped_ind (P : closure -> Prop) :
  P NativeHasInstance ->
  (forall o c, (forall g, o = VFun g -> P g) ->
     P (AugmentedHasInstance o c)) ->
  forall f, P f.
Proof.
  intros HN HA. fix IH 1. intros [|o c]; [exact HN|].
  apply HA. destruct o as [| | | | | | |g0]; intros g Hg; try discriminate Hg.
  injection Hg as <-. exact (IH g0).
Qed.

Lemma wraps_trans (n : nat) (f g : closure) (orig : value) :
  wraps n f (VFun g) -> wraps n g orig -> wraps n f orig.
Proof.
  induction f as [|o c IH] using closure_wrapped_ind; simpl; [done|].
  intros [Hc Ho] Hg. split; [done|]. right.
  destruct Ho as [->|Ho]; [done|].
  destruct o; try done. by apply IH.
Qed.

Lemma wraps_consults (n : nat) (f g : closure) (c : loc) :
  wraps n f (VFun g) -> consults g c -> consults f c.
Proof.
  induction f as [|o c' IH] using closure_wrapped_ind; simpl; [done|].
  intros [Hc Ho] Hg. right.
  destruct Ho as [->|Ho]; [done|].
  destruct o; try done. by apply IH.
Qed.

Section Grows.
Variable n : nat.

Lemma grows_refl (h : heap) : grows n h h.
Proof.
  split; [done|]. intros l o _ Hl. exists o. repeat split; auto.
Qed.

Lemma grows_chain (h h' : heap) (l : loc) (c : list loc) :
  grows n h h' -> chain h (Some l) c -> Forall (fun x => x < n) c ->
  chain h' (Some l) c.
Proof.
  intros [_ Hg] Hc Hb. eapply chain_frame; [exact Hc|].
  intros l0 o0 Hin Hl0. rewrite Forall_forall in Hb.
  destruct (Hg l0 o0 (Hb _ Hin) Hl0) as (o' & Hl' & (Hp & _) & _). eauto.
Qed.

(** Along a chain of old objects, the first own property named [k] is
    the same when [k] is not [Symbol.hasInstance]. *)
Lemma grows_first_own (h h' : heap) (c : list loc) (k : key) :
  grows n h h' -> Forall (fun x => x < n) c ->
  Forall (fun x => is_Some (h !! x)) c ->
  k <> hasInstanceKey ->
  first_own h' c k = first_own h c k.
Proof.
  intros [_ Hg] Hb Hs Hk. induction c as [|l c IH]; [done|].
  apply Forall_cons in Hb as [Hl Hb]. apply Forall_cons in Hs as [[o Ho] Hs].
  destruct (Hg l o Hl Ho) as (o' & Hl' & _ & Hprops).
  rewrite (first_own_cons _ _ _ _ _ Ho), (first_own_cons _ _ _ _ _ Hl').
  assert (Hown : own (props o') k = own (props o) k).
  { destruct Hprops as [->|(f & orig & q & -> & _)]; [done|].
    by apply own_put_ne. }
  rewrite Hown. destruct (own (props o) k); [done | by apply IH].
Qed.

Lemma chain_is_Some (h : heap) (s : option loc) (c : list loc) :
  chain h s c -> Forall (fun x => is_Some (h !! x)) c.
Proof. induction 1; constructor; eauto. Qed.

Lemma grows_get (h h' : heap) (l : loc) (k : key) :
  old_ok n h -> grows n h h' -> l < n -> k <> hasInstanceKey ->
  js_get h' (VObj l) k = js_get h (VObj l) k.
Proof.
  intros (Hlen & Hch & Hrefs) Hg Hl Hk.
  destruct (Hch l Hl) as (c & Hc & Hb).
  rewrite (js_get_chain _ _ _ _ Hc).
  rewrite (js_get_chain _ _ _ _ (grows_chain _ _ _ _ Hg Hc Hb)).
  rewrite (grows_first_own h h' c k); auto. by eapply chain_is_Some.
Qed.

(** The predicate an old object answers to is the one it answered to
    before, or a tower of augmentations around it. *)
Lemma grows_first_hasInstance (h h' : heap) (s : option loc)
    (c : list loc) :
  grows n h h' -> chain h s c -> Forall (fun x => x < n) c ->
  value_of (first_own h' c hasInstanceKey)
    = value_of (first_own h c hasInstanceKey) \/
  exists f, value_of (first_own h' c hasInstanceKey) = VFun f /\
    wraps n f (value_of (first_own h c hasInstanceKey)).
Proof.
  intros Hg Hc Hb. induction Hc as [|l o c Hl Hc IH]; [by left|].
  apply Forall_cons in Hb as [Hln Hb].
  pose proof Hg as [Hlen Hg'].
  destruct (Hg' l o Hln Hl) as (o' & Hl' & _ & Hprops).
  rewrite (first_own_cons _ _ _ _ _ Hl), (first_own_cons _ _ _ _ _ Hl').
  destruct Hprops as [->|(f & orig & q & -> & Hget & Hw & _)].
  - destruct (own (props o) hasInstanceKey); [by left | by apply IH].
  - rewrite own_put_eq. right. exists f. split; [done|].
    assert (Hcl : chain h (Some l) (l :: c)) by (by econstructor).
    rewrite (js_get_chain _ _ _ _ Hcl) in Hget.
    rewrite (first_own_cons _ _ _ _ _ Hl) in Hget. by injection Hget as <-.
Qed.

Lemma grows_get_hasInstance (h h' : heap) (l : loc) :
  old_ok n h -> grows n h h' -> l < n ->
  exists orig v,
    js_get h (VObj l) hasInstanceKey = Ok orig /\
    js_get h' (VObj l) hasInstanceKey = Ok v /\
    (v = orig \/ exists f, v = VFun f /\ wraps n f orig).
Proof.
  intros (Hlen & Hch & Hrefs) Hg Hl.
  destruct (Hch l Hl) as (c & Hc & Hb).
  exists (value_of (first_own h c hasInstanceKey)),
         (value_of (first_own h' c hasInstanceKey)).
  split; [by apply js_get_chain|].
  split; [apply js_get_chain; by eapply grows_chain|].
  by eapply grows_first_hasInstance.
Qed.

Lemma grows_old_ok (h h' : heap) :
  old_ok n h -> grows n h h' -> old_ok n h'.
Proof.
  intros Hold Hg. pose proof Hold as (Hlen & Hch & Hrefs).
  split; [destruct Hg; lia|]. split.
  - intros l Hl. destruct (Hch l Hl) as (c & Hc & Hb).
    exists c. split; [by eapply grows_chain | done].
  - intros l o' k p q Hl Hl' Hown Hq.
    destruct (lookup_lt_is_Some_2 h l ltac:(lia)) as [o Ho].
    destruct Hg as [_ Hg].
    destruct (Hg l o Hl Ho) as (o'' & Hl'' & _ & Hprops).
    rewrite Hl' in Hl''. injection Hl'' as <-.
    destruct Hprops as [Hp|(f & orig & q' & Hp & _)]; rewrite Hp in Hown.
    + eauto.
    + rewrite own_put in Hown.
      destruct (decide (hasInstanceKey = k)); [|eauto].
      injection Hown as <-. discriminate.
Qed.

Lemma grows_trans (h1 h2 h3 : heap) :
  old_ok n h1 -> grows n h1 h2 -> grows n h2 h3 -> grows n h1 h3.
Proof.
  intros Hold H12 H23.
  pose proof (grows_old_ok _ _ Hold H12) as Hold2.
  split; [destruct H12, H23; lia|].
  intros l o1 Hl Hl1.
  destruct (proj2 H12 l o1 Hl Hl1) as (o2 & Hl2 & (Ha & Hb & Hc) & Hp12).
  destruct (proj2 H23 l o2 Hl Hl2) as (o3 & Hl3 & (Ha' & Hb' & Hc') & Hp23).
  exists o3. split; [done|].
  split; [repeat split; congruence|].
  destruct Hp23 as [->|(f2 & orig2 & q2 & -> & Hget2 & Hw2 & Hq2 & Hctor2)];
    [done|].
  right.
  destruct (grows_get_hasInstance h1 h2 l Hold H12 Hl)
    as (orig1 & v & Hget1 & Hget2' & Hv).
  rewrite Hget2 in Hget2'. injection Hget2' as <-.
  exists f2, orig1, q2.
  split.
  { destruct Hp12 as [->|(f1 & ? & ? & -> & _)]; [done|].
    by rewrite put_put. }
  split; [done|]. split.
  { destruct Hv as [->|(f1 & -> & Hw1)]; [done|]. by eapply wraps_trans. }
  split; [done|].
  rewrite <- Hctor2. symmetry. by apply grows_get.
Qed.

Lemma grows_app (h : heap) (objs : list object) :
  grows n h (h ++ objs).
Proof.
  split; [rewrite length_app; lia|].
  intros l o _ Hl. exists o. split; [by apply lookup_app_l_Some|].
  repeat split; auto.
Qed.

Lemma grows_insert_fresh (h : heap) (l : loc) (o : object) :
  n <= l -> grows n h (<[l := o]> h).
Proof.
  intros Hl. split; [by rewrite length_insert|].
  intros l0 o0 Hl0 Hlook. exists o0.
  rewrite list_lookup_insert_ne by lia. repeat split; auto.
Qed.

Lemma registered_grows (h h' : heap) (S c : loc) :
  grows n h h' -> S < n -> registered h S c -> registered h' S c.
Proof.
  intros [_ Hg] HS (o & p & f & Hl & Hown & Hv & Hc).
  destruct (Hg S o HS Hl) as (o' & Hl' & _ & Hprops).
  destruct Hprops as [Hp|(f' & orig & q & Hp & Hget & Hw & _)].
  - exists o', p, f. rewrite Hp. done.
  - exists o', (augmented f'), f'. rewrite Hp, own_put_eq.
    repeat split; try done.
    rewrite (js_get_own _ _ _ _ _ Hl Hown) in Hget. injection Hget as <-.
    rewrite Hv in Hw. by eapply wraps_consults.
Qed.
End Grows.

(** ** Invariants under the primitive updates *)

Lemma js_get_lt (h : heap) (l : loc) (k : key) (v : value) :
  js_get h (VObj l) k = Ok v -> l < length h.
Proof.
  unfold js_get. simpl. intros H. apply bind_ok in H as (p & Hp & _).
  destruct (length h) as [|n] eqn:E; [discriminate|]. simpl in Hp.
  apply bind_ok in Hp as (o & Ho & _). apply fetch_ok in Ho.
  apply lookup_lt_Some in Ho. lia.
Qed.

Lemma js_get_app (h : heap) (objs : list object) (l : loc) (k : key) :
  heap_ok h -> l < length h ->
  js_get (h ++ objs) (VObj l) k = js_get h (VObj l) k.
Proof.
  intros Hok Hl. destruct (heap_ok_chain h l Hok Hl) as [c Hc].
  assert (Hc' : chain (h ++ objs) (Some l) c).
  { eapply chain_frame; [exact Hc|]. intros l0 o0 _ Hl0.
    exists o0. split; [by apply lookup_app_l_Some | done]. }
  rewrite (js_get_chain _ _ _ _ Hc), (js_get_chain _ _ _ _ Hc').
  f_equal. f_equal. pose proof (chain_is_Some _ _ _ Hc) as Hs.
  clear Hc Hc'. induction c as [|x c IH]; [done|].
  apply Forall_cons in Hs as [[o Ho] Hs].
  rewrite (first_own_cons _ _ _ _ _ Ho).
  rewrite (first_own_cons _ _ _ _ o (lookup_app_l_Some _ _ _ _ Ho)).
  destruct (own (props o) k); [done | by apply IH].
Qed.

Lemma class_likeb_ok (h : heap) (s : loc) :
  class_likeb h s = true -> class_like h s.
Proof.
  unfold class_likeb, class_like.
  destruct (js_get h (VObj s) (KStr "prototype")) as [[]|]; try done.
  destruct (js_get h (VObj l) (KStr "constructor")) as [[]|] eqn:E; try done.
  intros Hb. apply bool_decide_eq_true in Hb as ->. eauto.
Qed.

Lemma class_like_lt (h : heap) (s : loc) : class_like h s -> s < length h.
Proof. intros (p & Hp & _). by eapply js_get_lt. Qed.

Lemma class_like_grows (n : nat) (h h' : heap) (s : loc) :
  old_ok n h -> grows n h h' -> s < n -> class_like h s -> class_like h' s.
Proof.
  intros Hold Hg Hs (p & Hp & Hc). exists p.
  assert (Hpn : p < n) by (by eapply old_ok_get_lt).
  rewrite !(grows_get n h h') by done. done.
Qed.

Lemma old_ok_start (h : heap) :
  heap_ok h -> refs_ok h -> old_ok (length h) h.
Proof.
  intros Hok Hrefs. split; [done|]. split.
  - intros l Hl. destruct (heap_ok_chain h l Hok Hl) as [c Hc].
    exists c. split; [done | by eapply chain_bound].
  - intros l o k p q _ Hl Hown Hq. eauto.
Qed.

Lemma predicates_ok_get (h : heap) (v : value) (x : value) :
  predicates_ok h -> js_get h v hasInstanceKey = Ok x -> safe_value x.
Proof.
  intros Hp H. unfold js_get in H. apply bind_ok in H as (l & _ & H).
  apply bind_ok in H as ([p|] & Hf & H); injection H as <-; [|done].
  apply find_prop_own in Hf as (l' & o & Hl & Hown). simpl. eauto.
Qed.

Lemma predicates_ok_app (h : heap) (objs : list object) :
  predicates_ok h ->
  Forall (fun o => forall p, own (props o) hasInstanceKey = Some p ->
                             safe_value (p_value p)) objs ->
  predicates_ok (h ++ objs).
Proof.
  intros Hp Hobjs l o p Hl Hown.
  apply lookup_app_Some in Hl as [Hl|[_ Hl]]; [eauto|].
  rewrite Forall_forall in Hobjs. eapply Hobjs; [|exact Hown].
  apply list_elem_of_lookup. eauto.
Qed.

Lemma predicates_ok_insert (h : heap) (l : loc) (o : object) :
  predicates_ok h ->
  (forall p, own (props o) hasInstanceKey = Some p -> safe_value (p_value p)) ->
  predicates_ok (<[l := o]> h).
Proof.
  intros Hp Ho l' o' p Hl Hown.
  destruct (decide (l' = l)) as [->|Hne].
  - destruct (decide (l < length h)).
    + rewrite list_lookup_insert_eq in Hl by done. injection Hl as <-. eauto.
    + rewrite list_insert_ge in Hl by lia. eauto.
  - rewrite list_lookup_insert_ne in Hl by done. eauto.
Qed.

Lemma protos_kept_trans (h1 h2 h3 : heap) :
  protos_kept h1 h2 -> protos_kept h2 h3 -> protos_kept h1 h3.
Proof.
  intros [L1 H1] [L2 H2]. split; [lia|]. intros l o Hl.
  destruct (H1 _ _ Hl) as (o' & Hl' & Hp).
  destruct (H2 _ _ Hl') as (o'' & Hl'' & Hp'). exists o''. split; congruence.
Qed.

Lemma protos_kept_app (h : heap) (objs : list object) :
  protos_kept h (h ++ objs).
Proof.
  split; [rewrite length_app; lia|]. intros l o Hl. exists o.
  split; [by apply lookup_app_l_Some | done].
Qed.

Lemma protos_kept_insert (h : heap) (l : loc) (o o' : object) :
  h !! l = Some o -> proto o' = proto o -> protos_kept h (<[l := o']> h).
Proof.
  intros Hl Hp. split; [by rewrite length_insert|]. intros l0 o0 Hl0.
  destruct (decide (l0 = l)) as [->|Hne].
  - exists o'. rewrite list_lookup_insert_eq by (by eapply lookup_lt_Some).
    split; congruence.
  - exists o0. by rewrite list_lookup_insert_ne.
Qed.

Lemma protos_kept_edge (h h' : heap) (a b : loc) :
  protos_kept h h' -> edge h a b -> edge h' a b.
Proof.
  intros [_ Hk] (o & Hl & Hp). destruct (Hk _ _ Hl) as (o' & Hl' & Hp').
  exists o'. split; congruence.
Qed.

(** An update of the property table of an object allocated by the
    composition keeps the invariants. *)
Lemma state_ok_fresh_props (n : nat) (h : heap) (l : loc) (o : object)
    (ps : list (key * property)) :
  state_ok n h -> n <= l -> h !! l = Some o ->
  state_ok n (<[l := with_props o ps]> h).
Proof.
  intros (Hok & Hold) Hl Hlook. split.
  - by eapply heap_ok_insert.
  - eapply grows_old_ok; [exact Hold | by apply grows_insert_fresh].
Qed.

Lemma set_proto_effect (h h' : heap) (t : loc) (p : option loc) :
  set_proto h t p = Ok h' ->
  exists o, h !! t = Some o /\ h' = <[t := with_proto o p]> h.
Proof.
  intros H. apply set_proto_shape in H as (o & Ho & [[-> <-]|(-> & _)]).
  - exists o. split; [done|]. rewrite list_insert_id; [done|].
    rewrite Ho. by destruct o.
  - eauto.
Qed.

Lemma state_ok_set_proto (n : nat) (h h' : heap) (t : loc) (p : option loc) :
  state_ok n h -> n <= t -> set_proto h t p = Ok h' ->
  state_ok n h' /\ grows n h h' /\ (predicates_ok h -> predicates_ok h').
Proof.
  intros (Hok & Hold) Ht H.
  pose proof (heap_ok_set_proto _ _ _ _ Hok H) as Hok'.
  apply set_proto_effect in H as (o & Ho & ->).
  pose proof (grows_insert_fresh n h t (with_proto o p) Ht) as Hg.
  split; [|split; [done|]].
  - split; [done | by eapply grows_old_ok].
  - intros Hp. apply predicates_ok_insert; [done|]. simpl. eauto.
Qed.

Lemma set_proto_kept (h h' : heap) (t : loc) (p : option loc) :
  set_proto h t p = Ok h' ->
  length h' = length h /\
  (forall l, l <> t -> h' !! l = h !! l) /\
  exists o', h' !! t = Some o' /\ proto o' = p.
Proof.
  intros H. apply set_proto_effect in H as (o & Ho & ->).
  split; [by rewrite length_insert|]. split.
  - intros l Hne. by rewrite list_lookup_insert_ne.
  - exists (with_proto o p). split; [|done].
    apply list_lookup_insert_eq. by eapply lookup_lt_Some.
Qed.

Lemma define_own_augmented (o o' : object) (f : closure) :
  define_own o hasInstanceKey (augmented f) = Some o' ->
  o' = with_props o (put (props o) hasInstanceKey (augmented f)).
Proof.
  unfold define_own. intros H.
  destruct (own (props o) hasInstanceKey) as [cur|].
  - destruct (p_configurable cur); [by injection H as <-|]. discriminate.
  - destruct (extensible o); [by injection H as <-|]. discriminate.
Qed.

(** ** [clonePrototype] *)

Lemma insert_last (h : heap) (x y : object) :
  <[length h := x]> (h ++ [y]) = h ++ [x].
Proof. rewrite insert_app_r_alt by lia. by rewrite Nat.sub_diag. Qed.

Lemma to_loc_ok (v : value) (l : loc) : to_loc v = Ok l -> v = VObj l.
Proof. destruct v; simpl; congruence. Qed.

Lemma js_get_object (h : heap) (v : value) (k : key) (x : value) :
  js_get h v k = Ok x -> exists l, v = VObj l.
Proof.
  unfold js_get. intros H. apply bind_ok in H as (l & Hl & _).
  apply to_loc_ok in Hl. eauto.
Qed.

(** The heap after [clonePrototype(q)]: one new object, the duplicate, and
    one changed property, on the constructor that [q] names. *)
Lemma clonePrototype_shape (n : nat) (h h' : heap) (q c : loc) :
  state_ok n h -> q < n -> clonePrototype h (VObj q) = Ok (h', c) ->
  exists qo ctor co orig p,
    h !! q = Some qo /\
    js_get h (VObj q) (KStr "constructor") = Ok (VObj ctor) /\
    ctor < n /\ h !! ctor = Some co /\
    js_get h (VObj ctor) hasInstanceKey = Ok orig /\
    c = length h /\
    h' = <[ctor := with_props co
             (put (props co) hasInstanceKey
                (augmented (AugmentedHasInstance orig c)))]>
           (h ++ [mkObject None (put (props qo) (KStr "constructor") p)
                    true Ordinary]).
Proof.
  intros (Hok & Hold) Hq H. pose proof Hold as (Hlen & _).
  unfold clonePrototype, object_getOwnPropertyDescriptors in H. simpl in H.
  apply bind_ok in H as (ds & Hds & H).
  apply bind_ok in Hds as (qo & Hqo & Hds). apply fetch_ok in Hqo.
  injection Hds as <-.
  apply bind_ok in H as (ctor1 & Hc1 & H).
  apply bind_ok in H as (h2 & Hset & H).
  apply bind_ok in H as (ctor2 & Hc2 & H).
  apply bind_ok in H as (orig & Horig & H).
  apply bind_ok in H as (ctor3 & Hc3 & H).
  apply bind_ok in H as (h3 & Hdef & H).
  injection H as <- <-.
  rewrite js_get_app in Hc1 by (done || lia).
  apply js_set_shape in Hset as (o0 & p & Ho0 & Hp & ->).
  rewrite lookup_app_r in Ho0 by lia. rewrite Nat.sub_diag in Ho0.
  injection Ho0 as <-. simpl in *. rewrite insert_last in *.
  rewrite js_get_app in Hc2 by (done || lia).
  rewrite js_get_app in Hc3 by (done || lia).
  rewrite Hc1 in Hc2. injection Hc2 as <-.
  rewrite Hc1 in Hc3. injection Hc3 as <-.
  destruct (js_get_object _ _ _ _ Horig) as [ctor ->].
  assert (Hctor : ctor < n) by (by eapply old_ok_get_lt).
  rewrite js_get_app in Horig by (done || lia).
  apply defineProperty_shape in Hdef as (co & co' & Hco & Hdef & ->).
  apply define_own_augmented in Hdef as ->.
  rewrite lookup_app_l in Hco by lia.
  exists qo, ctor, co, orig, p. repeat split; done.
Qed.

Lemma clonePrototype_spec (n : nat) (h h' : heap) (q c : loc) :
  state_ok n h -> q < n -> clonePrototype h (VObj q) = Ok (h', c) ->
  state_ok n h' /\ grows n h h' /\ protos_kept h h' /\
  (predicates_ok h -> predicates_ok h') /\
  c = length h /\ length h' = S (length h) /\
  (exists co, h' !! c = Some co /\ proto co = None) /\
  (forall S, js_get h (VObj q) (KStr "constructor") = Ok (VObj S) ->
     registered h' S c).
Proof.
  intros Hst Hq H. pose proof Hst as (Hok & Hold).
  pose proof Hold as (Hlen & _).
  destruct (clonePrototype_shape _ _ _ _ _ Hst Hq H)
    as (qo & ctor & co & orig & p & Hqo & Hctor & Hcn & Hco & Horig & -> & ->).
  set (cl := mkObject None (put (props qo) (KStr "constructor") p) true
               Ordinary).
  set (f := AugmentedHasInstance orig (length h)).
  assert (Hco1 : (h ++ [cl]) !! ctor = Some co)
    by (by apply lookup_app_l_Some).
  assert (Hok1 : heap_ok (h ++ [cl])).
  { apply heap_ok_alloc; [done|]. intros ? Hp. discriminate Hp. }
  assert (Hg : grows n h
            (<[ctor := with_props co
                 (put (props co) hasInstanceKey (augmented f))]>
               (h ++ [cl]))).
  { split; [rewrite length_insert, length_app; lia|].
    intros l o Hl Hlo. destruct (decide (l = ctor)) as [->|Hne].
    - rewrite Hco in Hlo. injection Hlo as <-.
      eexists. split;
        [apply list_lookup_insert_eq; rewrite length_app; lia|].
      split; [done|]. right. exists f, orig, q. repeat split; auto.
    - exists o. rewrite list_lookup_insert_ne by done.
      split; [by apply lookup_app_l_Some|]. repeat split; auto. }
  split; [|split; [exact Hg|]].
  { split; [by eapply heap_ok_insert | by eapply grows_old_ok]. }
  split.
  { eapply protos_kept_trans; [apply protos_kept_app|].
    by eapply protos_kept_insert. }
  split.
  { intros Hpred. apply predicates_ok_insert.
    - apply predicates_ok_app; [done|]. constructor; [|done].
      intros p0. unfold cl. simpl. rewrite own_put_ne by done. eauto.
    - intros p0. simpl. rewrite own_put_eq. intros [= <-]. simpl.
      pose proof (predicates_ok_get _ _ _ Hpred Horig) as Hs.
      by destruct orig. }
  split; [done|].
  split; [rewrite length_insert, length_app; simpl; lia|].
  split.
  { exists cl. split; [|done]. rewrite list_lookup_insert_ne by lia.
    rewrite lookup_app_r by lia. by rewrite Nat.sub_diag. }
  intros S HS. rewrite Hctor in HS. injection HS as <-.
  eexists _, (augmented f), f.
  split; [apply list_lookup_insert_eq; rewrite length_app; lia|].
  simpl. rewrite own_put_eq. repeat split; auto.
Qed.

(** ** [clonePrototypeDeep] *)

Lemma old_ok_proto_lt (n : nat) (h : heap) (l x : loc) (o : object) :
  old_ok n h -> l < n -> h !! l = Some o -> proto o = Some x -> x < n.
Proof.
  intros (_ & Hch & _) Hl Hlo Hp. destruct (Hch l Hl) as (c & Hc & Hb).
  inversion Hc as [|l' o' c' Hl' Hc']; subst.
  rewrite Hlo in Hl'. injection Hl' as <-. rewrite Hp in Hc'.
  inversion Hc'; subst. apply Forall_cons in Hb as [_ Hb].
  by apply Forall_cons in Hb as [Hb _].
Qed.

Lemma getPrototypeOf_old (n : nat) (h : heap) (l x : loc) :
  old_ok n h -> l < n ->
  object_getPrototypeOf h (VObj l) = Ok (VObj x) -> x < n.
Proof.
  intros Hold Hl H. unfold object_getPrototypeOf in H. simpl in H.
  apply bind_ok in H as (o & Ho & H). apply fetch_ok in Ho.
  injection H as H. destruct (proto o) as [y|] eqn:E; [|discriminate].
  injection H as ->. by eapply old_ok_proto_lt.
Qed.

Lemma clonePrototypeDeep_loop_spec (n : nat) (fuel : nat) :
  forall (h h' : heap) (last tail : loc) (next : value),
    state_ok n h -> n <= last -> last < length h ->
    (forall np, next = VObj np -> np < n) ->
    clonePrototypeDeep_loop fuel h last next = Ok (h', tail) ->
    state_ok n h' /\ grows n h h' /\ length h <= length h' /\
    (predicates_ok h -> predicates_ok h') /\
    last <= tail /\ tail < length h' /\
    (forall l o, h !! l = Some o -> l <> last ->
       exists o', h' !! l = Some o' /\ proto o' = proto o) /\
    rtc (edge_avoid h' tail) last tail.
Proof.
  assert (Hbase : forall (h : heap) (last : loc),
    state_ok n h -> last < length h ->
    state_ok n h /\ grows n h h /\ length h <= length h /\
    (predicates_ok h -> predicates_ok h) /\
    last <= last /\ last < length h /\
    (forall l o, h !! l = Some o -> l <> last ->
       exists o', h !! l = Some o' /\ proto o' = proto o) /\
    rtc (edge_avoid h last) last last).
  { intros h last Hst Hl. split; [done|]. split; [apply grows_refl|].
    repeat split; eauto. apply rtc_refl. }
  induction fuel as [|fuel IH]; intros h h' last tail next Hst Hn Hl Hnext H.
  - destruct next as [| | | | |np| |]; simpl in H; try discriminate.
    + injection H as <- <-. by apply Hbase.
    + injection H as <- <-. by apply Hbase.
    + destruct (decide (np = ObjectPrototype)); [|discriminate].
      injection H as <- <-. by apply Hbase.
  - destruct next as [| | | | |np| |]; simpl in H; try discriminate.
    + injection H as <- <-. by apply Hbase.
    + injection H as <- <-. by apply Hbase.
    + destruct (decide (np = ObjectPrototype));
        [injection H as <- <-; by apply Hbase|].
      specialize (Hnext np eq_refl).
      apply bind_ok in H as ([h1 npc] & Hclone & H).
      apply bind_ok in H as (h2 & Hset & H).
      apply bind_ok in H as (next' & Hget & H).
      destruct (clonePrototype_spec _ _ _ _ _ Hst Hnext Hclone)
        as (Hst1 & Hg1 & Hk1 & Hpr1 & -> & Hlen1 & _ & _).
      simpl in Hset.
      destruct (state_ok_set_proto _ _ _ _ _ Hst1 Hn Hset)
        as (Hst2 & Hg2 & Hpr2).
      destruct (set_proto_kept _ _ _ _ Hset) as (Hlen2 & Hother & Hlast).
      pose proof Hst as (_ & Hold).
      pose proof Hst1 as (_ & Hold1).
      pose proof Hst2 as (_ & Hold2).
      assert (Hg02 : grows n h h2) by (by eapply grows_trans).
      destruct (IH h2 h' (length h) tail next' Hst2) as
        (Hst' & Hg' & Hlen' & Hpr' & Htail & Htl & Hframe & Hpath);
        [lia | lia | | exact H |].
      { intros x ->. by eapply getPrototypeOf_old. }
      split; [done|]. split; [by eapply grows_trans|].
      split; [lia|]. split; [auto|]. split; [lia|]. split; [done|].
      assert (Hfr : forall l o, h !! l = Some o -> l <> last ->
                exists o', h' !! l = Some o' /\ proto o' = proto o).
      { intros l o Hlo Hne.
        destruct (proj2 Hk1 _ _ Hlo) as (o1 & Hl1 & Hp1).
        rewrite <- Hother in Hl1 by done.
        destruct (Hframe _ _ Hl1) as (o' & Hl' & Hp').
        { apply lookup_lt_Some in Hlo. lia. }
        exists o'. split; congruence. }
      split; [exact Hfr|].
      destruct Hlast as (lo & Hlo & Hplo).
      destruct (Hframe _ _ Hlo) as (lo' & Hlo' & Hplo'); [lia|].
      eapply rtc_l; [|exact Hpath].
      split; [lia|]. exists lo'. split; congruence.
Qed.

Lemma clonePrototypeDeep_spec (n : nat) (h h' : heap) (q head tail : loc) :
  state_ok n h -> q < n ->
  clonePrototypeDeep h (VObj q) = Ok (h', head, tail) ->
  state_ok n h' /\ grows n h h' /\ protos_kept h h' /\
  (predicates_ok h -> predicates_ok h') /\
  head = length h /\ head <= tail /\ tail < length h' /\
  rtc (edge_avoid h' tail) head tail /\
  (forall S, js_get h (VObj q) (KStr "constructor") = Ok (VObj S) ->
     registered h' S head).
Proof.
  intros Hst Hq H. unfold clonePrototypeDeep in H.
  apply bind_ok in H as ([h1 clone] & Hclone & H).
  apply bind_ok in H as (next & Hnext & H).
  apply bind_ok in H as ([h2 last] & Hloop & H).
  injection H as <- <- <-.
  destruct (clonePrototype_spec _ _ _ _ _ Hst Hq Hclone)
    as (Hst1 & Hg1 & Hk1 & Hpr1 & -> & Hlen1 & _ & Hreg).
  pose proof Hst as (_ & Hold). pose proof Hst1 as (_ & Hold1).
  pose proof Hold as (Hlen & _).
  destruct (clonePrototypeDeep_loop_spec n (length h1) h1 h2 (length h) last
              next Hst1)
    as (Hst2 & Hg2 & Hlen2 & Hpr2 & Htail & Htl & Hframe & Hpath);
    [lia | lia | | exact Hloop |].
  { intros x ->. by eapply getPrototypeOf_old. }
  split; [done|]. split; [by eapply grows_trans|].
  split.
  { split; [lia|]. intros l o Hlo.
    destruct (proj2 Hk1 _ _ Hlo) as (o1 & Hl1 & Hp1).
    destruct (Hframe _ _ Hl1) as (o' & Hl' & Hp').
    { apply lookup_lt_Some in Hlo. lia. }
    exists o'. split; congruence. }
  split; [auto|].
  repeat (split; [done|]).
  intros S HS.
  apply (registered_grows n h1 h2 S (length h) Hg2);
    [exact (old_ok_get_lt n h q S _ Hold Hq HS) | by apply Hreg].
Qed.

(** ** The linking loop of [Mix] *)

Lemma edge_lt (h : heap) (a b : loc) : edge h a b -> a < length h.
Proof. intros (o & Hl & _). by eapply lookup_lt_Some. Qed.

Lemma clonePrototypeDeep_object (h : heap) (v : value)
    (r : heap * loc * loc) :
  clonePrototypeDeep h v = Ok r -> exists q, v = VObj q.
Proof.
  unfold clonePrototypeDeep, clonePrototype, object_getOwnPropertyDescriptors.
  intros H. apply bind_ok in H as (? & H & _).
  apply bind_ok in H as (? & H & _). apply bind_ok in H as (l & H & _).
  apply to_loc_ok in H. eauto.
Qed.

Lemma Mix_link_spec (n prototype : loc) (rest : list loc) :
  forall (h h' : heap) (last : loc) (v' : value),
    state_ok n h -> Forall (fun s => s < n) rest ->
    n <= last -> last < length h ->
    Mix_link h (VObj last) rest = Ok (h', v') ->
    exists last',
      v' = VObj last' /\ n <= last' /\ last' < length h' /\
      state_ok n h' /\ grows n h h' /\
      (predicates_ok h -> predicates_ok h') /\
      (forall a b, edge_avoid h last a b -> edge_avoid h' last' a b) /\
      (rtc (edge_avoid h last) prototype last ->
       rtc (edge_avoid h' last') prototype last' /\
       Forall (fun s => class_like h s ->
                 exists c, registered h' s c /\
                   rtc (edge_avoid h' last') prototype c) rest).
Proof.
  induction rest as [|s rest IH];
    intros h h' last v' Hst Hlt Hn Hl H; simpl in H.
  - injection H as <- <-. exists last.
    repeat (split; [done|]). split; [apply grows_refl|].
    split; [done|]. split; [done|]. intros Hp. split; [done | constructor].
  - apply Forall_cons in Hlt as [Hs Hlt].
    pose proof Hst as (_ & Hold). pose proof Hold as (Hlen & _).
    apply bind_ok in H as (nextPrototype & Hps & H).
    apply bind_ok in H as ([[h1 pr] tl] & Hdeep & H).
    destruct (clonePrototypeDeep_object _ _ _ Hdeep) as [ps ->].
    assert (Hpsn : ps < n) by (by eapply old_ok_get_lt).
    apply bind_ok in H as (h2 & Hset & H).
    apply bind_ok in H as (lp & Hget & H).
    destruct (clonePrototypeDeep_spec _ _ _ _ _ _ Hst Hpsn Hdeep)
      as (Hst1 & Hg1 & Hk1 & Hpr1 & -> & Htl & Htl' & _ & Hreg).
    simpl in Hset.
    destruct (state_ok_set_proto _ _ _ _ _ Hst1 Hn Hset)
      as (Hst2 & Hg2 & Hpr2).
    destruct (set_proto_kept _ _ _ _ Hset)
      as (Hlen2 & Hother & lo & Hlo & Hplo).
    unfold object_getPrototypeOf in Hget. simpl in Hget.
    rewrite (fetch_some _ _ _ Hlo) in Hget. simpl in Hget.
    rewrite Hplo in Hget. injection Hget as <-. simpl in H.
    pose proof Hst1 as (_ & Hold1).
    assert (Hg02 : grows n h h2) by (by eapply grows_trans).
    destruct (IH h2 h' (length h) v' Hst2 Hlt ltac:(lia) ltac:(lia) H)
      as (last' & -> & Hn' & Hl' & Hst' & Hg' & Hpr' & Hedge & Hpath).
    assert (Hedge0 : forall a b, edge_avoid h last a b ->
                                 edge_avoid h2 (length h) a b).
    { intros a b [Hne Hab]. pose proof (edge_lt _ _ _ Hab).
      split; [lia|]. apply (protos_kept_edge _ _ _ _ Hk1) in Hab.
      destruct Hab as (o & Ho & Hp). exists o. by rewrite Hother. }
    exists last'. repeat (split; [done|]).
    split; [by eapply grows_trans|].
    split; [auto|].
    split; [intros a b Hab; by apply Hedge, Hedge0|].
    intros Hp0.
    assert (Hp2 : rtc (edge_avoid h2 (length h)) prototype (length h)).
    { eapply rtc_r; [eapply rtc_subrel; [exact Hedge0 | exact Hp0]|].
      split; [lia|]. exists lo. done. }
    destruct (Hpath Hp2) as (Hp' & Hrest). split; [done|].
    constructor.
    + intros (ps' & Hps' & Hctor). rewrite Hps in Hps'.
      injection Hps' as <-. exists (length h). split.
      * eapply registered_grows; [|exact Hs|exact (Hreg s Hctor)].
        eapply grows_trans; [apply Hst1 | exact Hg2 | exact Hg'].
      * eapply rtc_subrel; [exact Hedge | exact Hp2].
    + rewrite Forall_forall in Hrest, Hlt. apply Forall_forall.
      intros x Hx Hclx. apply (Hrest x Hx).
      exact (class_like_grows n h h2 x Hold Hg02 (Hlt x Hx) Hclx).
Qed.

(** ** Assignment and [Object.assign] *)

Lemma find_prop_own_first (h : heap) (t : loc) (o : object) (k : key)
    (p : property) :
  h !! t = Some o -> own (props o) k = Some p ->
  find_prop (length h) h (Some t) k = Ok (Some p).
Proof.
  intros Hl Hown. destruct (length h) as [|n] eqn:E.
  - apply lookup_lt_Some in Hl. lia.
  - simpl. rewrite (fetch_some _ _ _ Hl). simpl. by rewrite Hown.
Qed.

Lemma js_set_effect (h h' : heap) (t : loc) (k : key) (v : value) :
  js_set h t k v = Ok h' ->
  exists o ps,
    h !! t = Some o /\ h' = <[t := with_props o ps]> h /\
    p_value <$> own ps k = Some v /\
    (forall k', k' <> k -> own ps k' = own (props o) k') /\
    (forall p, own (props o) k = Some p -> p_writable p = true).
Proof.
  unfold js_set. intros H. apply bind_ok in H as (found & Hf & H).
  apply bind_ok in H as (o & Ho & H). apply fetch_ok in Ho.
  exists o.
  assert (Hro : forall p, own (props o) k = Some p ->
                          found = Some p).
  { intros p Hown. rewrite (find_prop_own_first _ _ _ _ _ Ho Hown) in Hf.
    by injection Hf as <-. }
  destruct found as [p|].
  - destruct (p_writable p) eqn:Hw; simpl in H; [|discriminate].
    destruct (own (props o) k) as [e|] eqn:He.
    + injection H as <-. eexists. split; [done|]. split; [done|].
      rewrite own_put_eq. split; [done|].
      split; [intros; by apply own_put_ne|].
      intros p' [= <-]. specialize (Hro e eq_refl). by injection Hro as <-.
    + destruct (extensible o); [|discriminate]. injection H as <-.
      eexists. split; [done|]. split; [done|].
      rewrite own_put_eq. split; [done|].
      split; [intros; by apply own_put_ne | done].
  - destruct (extensible o); [|discriminate]. injection H as <-.
    eexists. split; [done|]. split; [done|].
    rewrite own_put_eq. split; [done|].
    split; [intros; by apply own_put_ne|].
    intros p Hown. by specialize (Hro p Hown).
Qed.

Lemma same_shape_refl (o : object) : same_shape o o.
Proof. by repeat split. Qed.

Lemma same_shape_trans (o1 o2 o3 : object) :
  same_shape o1 o2 -> same_shape o2 o3 -> same_shape o1 o3.
Proof. intros (?&?&?) (?&?&?). repeat split; congruence. Qed.

(** [Object.assign(t, s)] changes [t] alone; each key of [s] in turn
    overwrites the value [t] had. *)
Lemma assign_keys_effect (t s : loc) (so : object) (keys : list key) :
  forall (h h' : heap) (o : object),
    s <> t -> h !! s = Some so -> h !! t = Some o ->
    assign_keys h t s keys = Ok h' ->
    exists o',
      h' = <[t := o']> h /\ same_shape o o' /\
      (forall k p, own (props o) k = Some p -> p_writable p = false ->
                   own (props o') k = Some p) /\
      (forall k, own_value o' k =
         if decide (k ∈ keys)
         then match enumerable_own so k with
              | Some v => Some v
              | None => own_value o k
              end
         else own_value o k).
Proof.
  induction keys as [|k0 keys IH]; intros h h' o Hne Hs Ht H; simpl in H.
  - injection H as <-. exists o.
    split; [by rewrite list_insert_id|]. split; [apply same_shape_refl|].
    split; done.
  - rewrite (fetch_some _ _ _ Hs) in H. simpl in H.
    assert (Hskip : assign_keys h t s keys = Ok h' ->
              enumerable_own so k0 = None ->
              exists o',
                h' = <[t := o']> h /\ same_shape o o' /\
                (forall k p, own (props o) k = Some p ->
                   p_writable p = false -> own (props o') k = Some p) /\
                (forall k, own_value o' k =
                   if decide (k ∈ k0 :: keys)
                   then match enumerable_own so k with
                        | Some v => Some v
                        | None => own_value o k
                        end
                   else own_value o k)).
    { intros H' Hen.
      destruct (IH h h' o Hne Hs Ht H') as (o' & Hh' & Hsh & Hro & Hval).
      exists o'. repeat (split; [done|]).
      intros k. rewrite Hval.
      destruct (decide (k ∈ keys)) as [Hin|Hnin].
      - rewrite decide_True by (apply elem_of_cons; by right). done.
      - destruct (decide (k ∈ k0 :: keys)) as [Hin'|]; [|done].
        apply elem_of_cons in Hin' as [->|?]; [|done]. by rewrite Hen. }
    destruct (own (props so) k0) as [p0|] eqn:Hown;
      [|apply Hskip; [done | unfold enumerable_own; by rewrite Hown]].
    destruct (p_enumerable p0) eqn:Hen;
      [|apply Hskip; [done | unfold enumerable_own; by rewrite Hown, Hen]].
    apply bind_ok in H as (h1 & Hset & H).
    apply js_set_effect in Hset as (o0 & ps & Ho0 & -> & Hv1 & Hk1 & Hw1).
    rewrite Ht in Ho0. injection Ho0 as <-.
    pose proof (lookup_lt_Some _ _ _ Ht) as Hlt.
    assert (Hs1 : <[t := with_props o ps]> h !! s = Some so)
      by (by rewrite list_lookup_insert_ne).
    assert (Ht1 : <[t := with_props o ps]> h !! t = Some (with_props o ps))
      by (by apply list_lookup_insert_eq).
    destruct (IH _ h' _ Hne Hs1 Ht1 H) as (o' & -> & Hsh' & Hro' & Hval').
    exists o'. split; [by rewrite list_insert_insert_eq|].
    split; [eapply same_shape_trans; [|exact Hsh']; by repeat split|].
    split.
    { intros k p Hk Hw. apply Hro'; [|done]. simpl.
      destruct (decide (k = k0)) as [->|Hkne].
      - specialize (Hw1 _ Hk). congruence.
      - by rewrite Hk1. }
    intros k. rewrite Hval'.
    assert (Hen0 : enumerable_own so k0 = Some (p_value p0)).
    { unfold enumerable_own. by rewrite Hown, Hen. }
    assert (Hov : forall k', k' <> k0 ->
              own_value (with_props o ps) k' = own_value o k').
    { intros k' Hk'. unfold own_value. simpl. by rewrite Hk1. }
    destruct (decide (k = k0)) as [->|Hkne].
    + rewrite (decide_True (P := k0 ∈ k0 :: keys))
        by (apply elem_of_cons; by left).
      rewrite Hen0. destruct (decide (k0 ∈ keys)); [done | exact Hv1].
    + rewrite Hov by done.
      destruct (decide (k ∈ keys)) as [Hin|Hnin].
      * rewrite decide_True by (apply elem_of_cons; by right). done.
      * rewrite decide_False; [done|].
        rewrite elem_of_cons. intros [?|?]; done.
Qed.

Lemma own_keys (ps : list (key * property)) (k : key) :
  k ∈ map fst ps <-> is_Some (own ps k).
Proof.
  induction ps as [|[k0 p0] ps IH]; simpl.
  - split; [intros H; by apply elem_of_nil in H | intros [? H]; discriminate].
  - rewrite elem_of_cons. destruct (decide (k0 = k)) as [->|Hne].
    + split; [eauto | by left].
    + rewrite <- IH. split; [intros [?|?]; [congruence | done] | by right].
Qed.

Lemma object_assign_effect (h h' : heap) (t s : loc) :
  s <> t -> object_assign h t s = Ok h' ->
  exists o o' so,
    h !! t = Some o /\ h !! s = Some so /\
    h' = <[t := o']> h /\ same_shape o o' /\
    (forall k p, own (props o) k = Some p -> p_writable p = false ->
                 own (props o') k = Some p) /\
    (forall k, own_value o' k =
       match enumerable_own so k with
       | Some v => Some v
       | None => own_value o k
       end).
Proof.
  intros Hne H. unfold object_assign in H.
  apply bind_ok in H as (o & Ho & H). apply fetch_ok in Ho.
  apply bind_ok in H as (so & Hso & H). apply fetch_ok in Hso.
  destruct (assign_keys_effect t s so _ h h' o Hne Hso Ho H)
    as (o' & Hh' & Hsh & Hro & Hval).
  exists o, o', so. repeat (split; [done|]).
  intros k. rewrite Hval.
  destruct (decide (k ∈ map fst (props so))) as [|Hnin]; [done|].
  rewrite own_keys in Hnin. unfold enumerable_own.
  destruct (own (props so) k); [|done]. exfalso. eauto.
Qed.

Lemma object_assign_spec (n : nat) (h h' : heap) (t s : loc) :
  state_ok n h -> n <= t -> s <> t ->
  object_assign h t s = Ok h' ->
  state_ok n h' /\ grows n h h' /\
  (predicates_ok h -> predicates_ok h') /\
  (forall l, l <> t -> h' !! l = h !! l) /\
  exists o o' so,
    h !! t = Some o /\ h' !! t = Some o' /\ h !! s = Some so /\
    same_shape o o' /\
    (forall k p, own (props o) k = Some p -> p_writable p = false ->
                 own (props o') k = Some p) /\
    (forall k, own_value o' k =
       match enumerable_own so k with
       | Some v => Some v
       | None => own_value o k
       end).
Proof.
  intros (Hok & Hold) Hn Hne H.
  destruct (object_assign_effect _ _ _ _ Hne H)
    as (o & o' & so & Ho & Hso & -> & Hsh & Hro & Hval).
  pose proof (lookup_lt_Some _ _ _ Ho) as Hlt.
  pose proof (grows_insert_fresh n h t o' Hn) as Hg.
  split.
  { split; [eapply heap_ok_insert; [done..|apply Hsh] | by eapply grows_old_ok]. }
  split; [done|]. split.
  { intros Hp. apply predicates_ok_insert; [done|]. intros p Hown.
    specialize (Hval hasInstanceKey). unfold own_value in Hval.
    rewrite Hown in Hval. simpl in Hval. unfold enumerable_own in Hval.
    destruct (own (props so) hasInstanceKey) as [p0|] eqn:E0.
    - destruct (p_enumerable p0).
      + injection Hval as Hval. rewrite Hval. exact (Hp s so p0 Hso E0).
      + destruct (own (props o) hasInstanceKey) as [p1|] eqn:E1;
          [|discriminate]. injection Hval as Hval. rewrite Hval.
        exact (Hp t o p1 Ho E1).
    - destruct (own (props o) hasInstanceKey) as [p1|] eqn:E1;
        [|discriminate]. injection Hval as Hval. rewrite Hval.
      exact (Hp t o p1 Ho E1). }
  split; [intros l Hl; by rewrite list_lookup_insert_ne|].
  exists o, o', so. rewrite list_lookup_insert_eq by done. done.
Qed.

(** ** The static properties loop and the class [create] *)

Lemma last_static_ext (h h' : heap) (srcs : list loc) (k : key) :
  Forall (fun s => h' !! s = h !! s) srcs ->
  last_static h' srcs k = last_static h srcs k.
Proof.
  induction 1 as [|s srcs Hs _ IH]; simpl; [done|]. by rewrite IH, Hs.
Qed.

Lemma Mix_statics_spec (n : nat) (create : loc) (srcs : list loc) :
  forall (h h' : heap) (o : object),
    state_ok n h -> n <= create -> Forall (fun s => s < n) srcs ->
    h !! create = Some o ->
    Mix_statics h create srcs = Ok h' ->
    state_ok n h' /\ grows n h h' /\
    (predicates_ok h -> predicates_ok h') /\
    (forall l, l <> create -> h' !! l = h !! l) /\
    exists o',
      h' !! create = Some o' /\ same_shape o o' /\
      (forall k p, own (props o) k = Some p -> p_writable p = false ->
                   own (props o') k = Some p) /\
      (forall k, own_value o' k =
         match last_static h srcs k with
         | Some v => Some v
         | None => own_value o k
         end).
Proof.
  induction srcs as [|s srcs IH]; intros h h' o Hst Hn Hlt Ho H; simpl in H.
  - injection H as <-. split; [done|]. split; [apply grows_refl|].
    split; [done|]. split; [done|]. exists o. repeat split; auto.
  - apply Forall_cons in Hlt as [Hs Hlt].
    apply bind_ok in H as (h1 & Hassign & H).
    destruct (object_assign_spec n h h1 create s Hst Hn ltac:(lia) Hassign)
      as (Hst1 & Hg1 & Hp1 & Hoth1 & o0 & o1 & so & Ho0 & Ho1 & Hso & Hsh1
          & Hro1 & Hval1).
    rewrite Ho in Ho0. injection Ho0 as <-.
    destruct (IH h1 h' o1 Hst1 Hn Hlt Ho1 H)
      as (Hst' & Hg' & Hp' & Hoth' & o' & Ho' & Hsh' & Hro' & Hval').
    split; [done|]. split; [eapply grows_trans; [apply Hst|done..]|].
    split; [auto|].
    split; [intros l Hl; by rewrite Hoth', Hoth1|].
    exists o'. split; [done|].
    split.
    { destruct Hsh1 as (?&?&?), Hsh' as (?&?&?). repeat split; congruence. }
    split; [intros k p Hk Hw; apply Hro'; auto|].
    intros k. rewrite Hval'. simpl.
    rewrite (last_static_ext h h1).
    + destruct (last_static h srcs k); [done|]. by rewrite Hval1, Hso.
    + eapply Forall_impl; [exact Hlt|]. intros x Hx. simpl in Hx.
      apply Hoth1. lia.
Qed.

Lemma setPrototypeOf_object (h h' : heap) (t : loc) (v : value) :
  object_setPrototypeOf h (VObj t) v = Ok h' ->
  exists p, v = of_proto p /\ set_proto h t p = Ok h'.
Proof.
  simpl. destruct v; try discriminate; intros H.
  - by exists None.
  - by exists (Some l).
Qed.

(** The two objects that the class expression of [Mix] allocates. *)
Lemma define_class_create (h h' : heap) (first create : loc)
    (constructors : list loc) :
  define_class h "create" (Some first) (MixClass constructors)
    [(mixOf, VArr (map VObj constructors))] [] = Ok (h', create) ->
  exists pp,
    js_get h (VObj first) (KStr "prototype") = Ok (of_proto pp) /\
    first < length h /\
    create = S (length h) /\
    h' = h ++ [mkObject pp [(KStr "constructor", hidden (VObj create))]
                 true Ordinary;
               mkObject (Some first)
                 (create_props (length h) constructors) true
                 (MixClass constructors)].
Proof.
  unfold define_class. intros H. apply bind_ok in H as ([pp cp] & Hpar & H).
  apply bind_ok in Hpar as (c & Hc & Hpar).
  unfold is_constructor in Hc. apply bind_ok in Hc as (fo & Hfo & _).
  apply fetch_ok in Hfo. apply lookup_lt_Some in Hfo.
  destruct c; simpl in Hpar; [|discriminate].
  apply bind_ok in Hpar as (pv & Hpv & Hpar).
  simpl in H. injection H as <- <-.
  destruct pv; try discriminate; injection Hpar as <- <-.
  - by exists None.
  - by exists (Some l).
Qed.

(** ** [Mix] on two or more constructors *)

Lemma Mix_spec (h hF : heap) (first second : loc) (rest : list loc)
    (create : loc) :
  let srcs := first :: second :: rest in
  let n := length h in
  heap_ok h -> refs_ok h -> Forall (fun s => s < n) srcs ->
  Mix h srcs = Ok (hF, create) ->
  state_ok n hF /\ grows n h hF /\
  (predicates_ok h -> predicates_ok hF) /\
  exists hS cp head co coS po,
    state_ok n hS /\ grows n h hS /\
    Mix_statics hS create srcs = Ok hF /\
    hS !! create = Some coS /\ props coS = create_props cp srcs /\
    n <= cp /\ create = S cp /\
    hF !! create = Some co /\ proto co = Some first /\
    construct_of co = MixClass srcs /\
    own (props co) (KStr "prototype")
      = Some (mkProperty (VObj cp) false false false) /\
    hF !! cp = Some po /\ proto po = Some head /\
    Forall (fun s => class_like h s ->
              exists c, registered hF s c /\ rtc (edge hF) cp c) srcs.
Proof.
  intros srcs n Hok Hrefs Hlt H.
  assert (Hold : old_ok n h) by (by apply old_ok_start).
  assert (Hst : state_ok n h) by done.
  pose proof Hlt as Hlt0.
  apply Forall_cons in Hlt as [Hfirst Hlt].
  unfold Mix in H. fold srcs in H.
  apply bind_ok in H as (firstPrototype & Hfp & H).
  apply bind_ok in H as ([[h1 prototype] lastP] & Hdeep & H).
  destruct (clonePrototypeDeep_object _ _ _ Hdeep) as [fp ->].
  assert (Hfpn : fp < n) by (by eapply old_ok_get_lt).
  destruct (clonePrototypeDeep_spec _ _ _ _ _ _ Hst Hfpn Hdeep)
    as (Hst1 & Hg1 & Hk1 & Hpr1 & -> & Htl & Htl' & Hpath1 & Hreg1).
  apply bind_ok in H as ([h2 v'] & Hlink & H).
  assert (Hn1 : n <= lastP) by (unfold n; lia).
  destruct (Mix_link_spec n (length h) _ _ _ _ _ Hst1 Hlt Hn1 Htl' Hlink)
    as (last' & -> & Hn2 & Hl2 & Hst2 & Hg2 & Hpr2 & Hedge2 & Hpath2).
  destruct (Hpath2 Hpath1) as (Hp2 & Hregs).
  apply bind_ok in H as (lastOriginal & Hlo & H).
  apply bind_ok in H as (h3 & Hset3 & H).
  apply setPrototypeOf_object in Hset3 as (lp & -> & Hset3).
  destruct (state_ok_set_proto _ _ _ _ _ Hst2 Hn2 Hset3)
    as (Hst3 & Hg3 & Hpr3).
  destruct (set_proto_kept _ _ _ _ Hset3) as (Hlen3 & Hoth3 & _).
  apply bind_ok in H as ([h4 create'] & Hclass & H).
  apply define_class_create in Hclass as (pp & Hpp & _ & -> & ->).
  set (cp := length h3) in *.
  set (po0 := mkObject pp [(KStr "constructor", hidden (VObj (S cp)))] true
                Ordinary) in *.
  set (co0 := mkObject (Some first) (create_props cp srcs) true
                (MixClass srcs)) in *.
  assert (Hg01 : grows n h h1) by done.
  assert (Hg02 : grows n h h2) by (by eapply grows_trans).
  assert (Hg03 : grows n h h3) by (by eapply grows_trans).
  pose proof Hst3 as (Hok3 & Hold3). pose proof Hold3 as (Hlen3' & _).
  assert (Hok4 : heap_ok (h3 ++ [po0; co0])).
  { change (h3 ++ [po0; co0]) with (h3 ++ [po0] ++ [co0]).
    rewrite app_assoc. apply heap_ok_alloc.
    - apply heap_ok_alloc; [done|]. intros p Hp. simpl in Hp. subst pp.
      simpl in Hpp. rewrite (grows_get n h h3) in Hpp by done.
      pose proof (old_ok_get_lt _ _ _ _ _ Hold Hfirst Hpp). lia.
    - intros p [= <-]. rewrite length_app. simpl. lia. }
  assert (Hg34 : grows n h3 (h3 ++ [po0; co0])) by apply grows_app.
  assert (Hst4 : state_ok n (h3 ++ [po0; co0])).
  { split; [done | by eapply grows_old_ok]. }
  assert (Hco4 : (h3 ++ [po0; co0]) !! S cp = Some co0).
  { rewrite lookup_app_r by (unfold cp; lia).
    by replace (S cp - length h3) with 1 by (unfold cp; lia). }
  assert (Hpo4 : (h3 ++ [po0; co0]) !! cp = Some po0).
  { rewrite lookup_app_r by (unfold cp; lia).
    by replace (cp - length h3) with 0 by (unfold cp; lia). }
  apply bind_ok in H as (createPrototype & Hcp & H).
  rewrite (js_get_own _ _ co0 _ (mkProperty (VObj cp) false false false) Hco4)
    in Hcp by done.
  injection Hcp as <-. simpl in H.
  apply bind_ok in H as (h5 & Hset5 & H).
  assert (Hncp : n <= cp) by (unfold cp; lia).
  destruct (state_ok_set_proto n _ _ _ _ Hst4 Hncp Hset5)
    as (Hst5 & Hg5 & Hpr5).
  destruct (set_proto_kept _ _ _ _ Hset5) as (Hlen5 & Hoth5 & po5 & Hpo5 & Hppo5).
  apply bind_ok in H as (h6 & Hstat & H). injection H as <- <-.
  assert (Hco5 : h5 !! S cp = Some co0) by (rewrite Hoth5 by lia; done).
  destruct (Mix_statics_spec n (S cp) srcs h5 h6 co0 Hst5
              ltac:(lia) Hlt0 Hco5 Hstat)
    as (Hst6 & Hg6 & Hpr6 & Hoth6 & co & Hco & (Hsh1 & Hsh2 & Hsh3) & Hro & _).
  assert (Hg04 : grows n h (h3 ++ [po0; co0])) by (by eapply grows_trans).
  assert (Hg05 : grows n h h5) by (by eapply grows_trans).
  split; [done|]. split; [exact (grows_trans n h h5 h6 Hold Hg05 Hg6)|].
  split.
  { intros Hp. apply Hpr6, Hpr5. apply predicates_ok_app; [auto|].
    repeat constructor; intros p Hown; discriminate Hown. }
  exists h5, cp, (length h), co, co0, po5.
  split; [done|]. split; [done|]. split; [done|]. split; [done|].
  split; [done|]. split; [unfold cp; lia|]. split; [done|].
  split; [done|]. split; [done|]. split; [done|].
  split; [by apply Hro|].
  split; [rewrite Hoth6 by lia; done|]. split; [done|].
  (* every source is registered for a duplicate on the chain *)
  assert (Hedge : forall a b, edge_avoid h2 last' a b -> edge h6 a b).
  { intros a b [Hne Hab]. pose proof (edge_lt _ _ _ Hab) as Ha.
    destruct Hab as (o & Ho & Hp). exists o. split; [|done].
    rewrite Hoth6 by (unfold cp; lia). rewrite Hoth5 by (unfold cp; lia).
    rewrite lookup_app_l by lia. by rewrite Hoth3. }
  assert (Hcp6 : edge h6 cp (length h)).
  { exists po5. split; [|done]. rewrite Hoth6 by lia. done. }
  assert (Hg26 : grows n h2 h6).
  { pose proof Hst2 as (_ & Hold2).
    eapply grows_trans; [done | exact Hg3|].
    eapply grows_trans; [done | exact Hg34|].
    eapply grows_trans; [apply Hst4 | exact Hg5 | exact Hg6]. }
  constructor.
  - intros (fp' & Hfp' & Hctor). rewrite Hfp in Hfp'. injection Hfp' as <-.
    exists (length h). split.
    + eapply registered_grows; [|exact Hfirst | exact (Hreg1 _ Hctor)].
      eapply grows_trans; [apply Hst1 | exact Hg2 | exact Hg26].
    + by apply rtc_once.
  - rewrite Forall_forall in Hregs, Hlt. apply Forall_forall.
    intros s Hs Hcl.
    destruct (Hregs s Hs) as (c & Hreg & Hpc).
    { exact (class_like_grows n h h1 s Hold Hg1 (Hlt s Hs) Hcl). }
    exists c. split.
    + eapply registered_grows; [exact Hg26 | exact (Hlt s Hs) | exact Hreg].
    + eapply rtc_l; [exact Hcp6|]. eapply rtc_subrel; [exact Hedge | exact Hpc].
Qed.

(** ** Construction *)















(** ** Evaluating the augmented predicate *)

Lemma rtc_edge_chain (h : heap) (a b : loc) (c : list loc) :
  chain h (Some a) c -> rtc (edge h) a b -> b ∈ c.
Proof.
  intros Hc Hr. revert c Hc.
  induction Hr as [a|a a' b (o & Ho & Hp) _ IH]; intros c Hc.
  - inversion Hc; subst. apply elem_of_cons. by left.
  - inversion Hc as [|l o' c' Hl Hc']; subst.
    rewrite Ho in Hl. injection Hl as <-. rewrite Hp in Hc'.
    apply elem_of_cons. right. by apply IH.
Qed.


Lemma hasPrototype_chain (h : heap) (inst : loc) (io : object)
    (cc : list loc) (c : loc) :
  h !! inst = Some io -> chain h (proto io) cc ->
  hasPrototype h (VObj inst) c = Ok (bool_decide (c ∈ cc)).
Proof.
  intros Hio Hcc. unfold hasPrototype. simpl.
  rewrite (fetch_some _ _ _ Hio). simpl.
  apply hasPrototype_loop_chain; [done | by eapply chain_length].
Qed.

Section Call.
Variables (h : heap) (inst : loc) (io : object) (cc : list loc).
Hypothesis Hio : h !! inst = Some io.
Hypothesis Hcc : chain h (proto io) cc.


End Call.

(** ** Claim C1 *)

Lemma Forall_class_like_lt (h : heap) (srcs : list loc) :
  Forall (class_like h) srcs -> Forall (fun s => s < length h) srcs.
Proof.
  intros H. eapply Forall_impl; [exact H|]. intros s. apply class_like_lt.
Qed.



(** ** Claim C6 *)

(** C6. Composing a list of exactly one source returns that source itself,
    the very same constructor object, and leaves the heap as it was:
    single-source composition is the identity. *)
Theorem Mix_single_source_is_identity (h : heap) (source : loc) :
  Mix h [source] = Ok (h, source).
Proof. reflexivity. Qed.

(** ** Claim C8 *)

Lemma grows_chain_old (n : nat) (h h' : heap) (l : loc) (c : list loc) :
  old_ok n h -> grows n h h' -> l < n -> chain h (Some l) c ->
  chain h' (Some l) c /\ Forall (fun x => x < n) c.
Proof.
  intros Hold Hg Hl Hc. destruct Hold as (_ & Hch & _).
  destruct (Hch l Hl) as (c' & Hc' & Hb).
  rewrite (chain_det _ _ _ _ Hc Hc'). split; [|done].
  by eapply grows_chain.
Qed.

Lemma Mix_grows (h hF : heap) (srcs : list loc) (create : loc) :
  heap_ok h -> refs_ok h -> Forall (fun s => s < length h) srcs ->
  Mix h srcs = Ok (hF, create) ->
  grows (length h) h hF.
Proof.
  intros Hok Hrefs Hlt H. destruct srcs as [|first [|second rest]].
  - unfold Mix, define_class in H. simpl in H. injection H as <- _.
    apply grows_app.
  - injection H as <- _. apply grows_refl.
  - by destruct (Mix_spec _ _ _ _ _ _ Hok Hrefs Hlt H) as (_ & Hg & _).
Qed.

(** C8. A call to [Mix] never alters the objects that existed before it,
    but for one property: every such object keeps its prototype link, its
    extensibility and its behaviour, and either its whole property table, or
    all of it but its own [Symbol.hasInstance], which is then replaced by a
    wrapper around the predicate the object answered to before (a tower of
    augmentations, each for a duplicate allocated by this call); this
    happens only to an object that is the [constructor] of a pre-existing
    object. The prototype chain of a pre-existing object is the same after
    the call and holds no duplicate. *)
Theorem Mix_alters_only_hasInstance (h hF : heap) (srcs : list loc)
    (create : loc) :
  heap_ok h -> refs_ok h -> Forall (fun s => s < length h) srcs ->
  Mix h srcs = Ok (hF, create) ->
  forall l o, h !! l = Some o ->
    exists o',
      hF !! l = Some o' /\
      proto o' = proto o /\ extensible o' = extensible o /\
      construct_of o' = construct_of o /\
      (props o' = props o \/
       exists f orig q,
         props o' = put (props o) hasInstanceKey (augmented f) /\
         js_get h (VObj l) hasInstanceKey = Ok orig /\
         wraps (length h) f orig /\
         q < length h /\
         js_get h (VObj q) (KStr "constructor") = Ok (VObj l)) /\
      (forall c, chain h (Some l) c ->
         chain hF (Some l) c /\ Forall (fun x => x < length h) c).
Proof.
  intros Hok Hrefs Hlt H l o Hl.
  pose proof (Mix_grows _ _ _ _ Hok Hrefs Hlt H) as Hg.
  pose proof (lookup_lt_Some _ _ _ Hl) as Hlen.
  destruct (proj2 Hg l o Hlen Hl) as (o' & Hl' & (Hp & He & Hc) & Hprops).
  exists o'. repeat (split; [done|]).
  intros c Hch. eapply grows_chain_old; eauto using old_ok_start.
Qed.

(** [Mix(A, B)] on the heap that holds the two classes. *)
Lemma Mix_alters_only_hasInstance_witness :
  Mix heap_AB [class_A; class_B] = Ok mixed_AB /\
  forall l o, heap_AB !! l = Some o ->
    exists o',
      fst mixed_AB !! l = Some o' /\
      proto o' = proto o /\ extensible o' = extensible o /\
      construct_of o' = construct_of o /\
      (props o' = props o \/
       exists f orig q,
         props o' = put (props o) hasInstanceKey (augmented f) /\
         js_get heap_AB (VObj l) hasInstanceKey = Ok orig /\
         wraps (length heap_AB) f orig /\
         q < length heap_AB /\
         js_get heap_AB (VObj q) (KStr "constructor") = Ok (VObj l)) /\
      (forall c, chain heap_AB (Some l) c ->
         chain (fst mixed_AB) (Some l) c /\
         Forall (fun x => x < length heap_AB) c).
Proof.
  split; [vm_compute; reflexivity|].
  apply (Mix_alters_only_hasInstance heap_AB (fst mixed_AB)
           [class_A; class_B] (snd mixed_AB)).
  - apply heap_okb_ok. vm_compute. reflexivity.
  - apply refs_okb_ok. vm_compute. reflexivity.
  - repeat constructor; vm_compute; lia.
  - vm_compute. reflexivity.
Defined.

(** ** Claim C5 *)

Lemma last_static_grows (n : nat) (h h' : heap) (srcs : list loc) (k : key) :
  grows n h h' -> Forall (fun s => s < n) srcs -> n <= length h ->
  k <> hasInstanceKey ->
  last_static h' srcs k = last_static h srcs k.
Proof.
  intros Hg Hlt Hn Hk. induction Hlt as [|s srcs Hs _ IH]; simpl; [done|].
  rewrite IH. destruct (last_static h srcs k); [done|].
  destruct (lookup_lt_is_Some_2 h s ltac:(lia)) as [o Ho].
  destruct (proj2 Hg s o Hs Ho) as (o' & Ho' & _ & Hprops).
  rewrite Ho, Ho'. unfold enumerable_own.
  destruct Hprops as [->|(f & orig & q & -> & _)]; [done|].
  by rewrite own_put_ne.
Qed.




(** With the sources in the other order, [Mix(B, A).value] is ["a"]. *)
Example Mix_statics_other_order :
  (let* (hF, create) := Mix heap_AB [class_B; class_A] in
   js_get hF (VObj create) (KStr "value")) = Ok (VStr "a").
Proof. vm_compute. reflexivity. Qed.


(** ** Claim C4 *)

Lemma spread_ok (v : option value) (group : list value) :
  spread v = Ok group -> v = Some (VArr group).
Proof. destruct v as [[]|]; simpl; congruence. Qed.





(** ** Claims C2, C3 and C7: what the code does on three inputs *)

(** C2. The native check is not preserved: [a = new A("x")] is an instance
    of [A] before [Mix(A, B)] is evaluated and is no longer one after it.
    The wrapper calls the previous predicate,
    [Function.prototype[Symbol.hasInstance]], without a [this], and that
    predicate then answers [false]. *)
Theorem Mix_loses_native_instance_check :
  instance_of (fst heap_AB_a) (VObj (snd heap_AB_a)) (VObj class_A) = Ok true /\
  Mix (fst heap_AB_a) [class_A; class_B] = Ok mixed_AB_after_a /\
  instance_of (fst mixed_AB_after_a) (VObj (snd heap_AB_a)) (VObj class_A)
    = Ok false.
Proof. repeat split; vm_compute; reflexivity. Qed.

(** C3. The duplicates of the ancestry of a source that is neither the first
    nor the last are dropped from the chain: with [B extends B0] and [m]
    defined on [B0.prototype], an instance of [B] finds [m], an instance of
    [Mix(A, B, C)] does not. *)
Theorem Mix_drops_middle_ancestry :
  js_get (fst instance_B_of_B0) (VObj (snd instance_B_of_B0)) (KStr "m")
    = Ok (VStr "B0.prototype.m") /\
  js_get (fst instance_ABC) (VObj (snd instance_ABC)) (KStr "m") = Ok VUndef /\
  instance_of (fst instance_ABC) (VObj (snd instance_ABC))
    (VObj class_B_of_B0) = Ok true.
Proof. repeat split; vm_compute; reflexivity. Qed.

(** C7. A false positive: [m1], built from [Mix(T, U)] before [S] is ever
    composed, is not a true instance of [S] ([S extends T]), yet after
    [Mix(S, V)] the check [m1 instanceof S] answers [true]: the wrapper of
    [S] wraps the predicate [S] inherits from [T], which recognises the
    duplicate of [T.prototype]. *)
Theorem Mix_false_positive_through_inherited_predicate :
  ordinary_has_instance (fst heap_TU_instance) (VObj class_S_of_T)
    (VObj (snd heap_TU_instance)) = Ok false /\
  Mix (fst heap_TU_instance) [class_S_of_T; class_V] = Ok mixed_SV /\
  instance_of (fst mixed_SV) (VObj (snd heap_TU_instance))
    (VObj class_S_of_T) = Ok true /\
  instance_of (fst mixed_SV) (VObj (snd heap_TU_instance)) (VObj class_V)
    = Ok false.
Proof. repeat split; vm_compute; reflexivity. Qed.

(** ** [reuse]: claims C9 and C10 *)

Lemma js_in_own (h : heap) (c : loc) (o : object) (k : key) (p : property) :
  h !! c = Some o -> own (props o) k = Some p ->
  js_in h k (VObj c) = Ok true.
Proof.
  intros Ho Hown. simpl.
  by rewrite (find_prop_own_first _ _ _ _ _ Ho Hown).
Qed.

Lemma js_in_false_own (h : heap) (c : loc) (o : object) (k : key) :
  h !! c = Some o -> js_in h k (VObj c) = Ok false ->
  own (props o) k = None.
Proof.
  intros Ho H. destruct (own (props o) k) as [p|] eqn:E; [|done].
  rewrite (js_in_own _ _ _ _ _ Ho E) in H. discriminate.
Qed.

(** A container that has the slot itself answers with it. *)
Lemma reuse_hit (h : heap) (c : loc) (o : object) (p : property)
    (v : value) :
  h !! c = Some o -> own (props o) reuseSymbol = Some p ->
  reuse h (VObj c) v = Ok (h, p_value p).
Proof.
  intros Ho Hown. unfold reuse.
  rewrite (js_in_own _ _ _ _ _ Ho Hown). simpl.
  by rewrite (js_get_own _ _ _ _ _ Ho Hown).
Qed.

Lemma reuse_keeps_slot (h h' : heap) (c : loc) (o : object) (p : property)
    (x v r : value) :
  h !! c = Some o -> own (props o) reuseSymbol = Some p ->
  reuse h x v = Ok (h', r) ->
  exists o', h' !! c = Some o' /\ own (props o') reuseSymbol = Some p.
Proof.
  intros Ho Hown H. unfold reuse in H.
  apply bind_ok in H as (present & Hin & H). destruct present.
  - apply bind_ok in H as (stored & _ & H). injection H as <- _. eauto.
  - apply bind_ok in H as (h1 & Hdef & H). injection H as <- _.
    destruct x; try discriminate.
    apply defineProperty_shape in Hdef as (lo & lo' & Hlo & _ & ->).
    destruct (decide (l = c)) as [->|Hne].
    + rewrite (js_in_own _ _ _ _ _ Ho Hown) in Hin. discriminate.
    + exists o. by rewrite list_lookup_insert_ne.
Qed.

Lemma reuse_all_keeps_slot (calls : list (value * value)) :
  forall (h h' : heap) (c : loc) (o : object) (p : property),
    h !! c = Some o -> own (props o) reuseSymbol = Some p ->
    reuse_all h calls = Ok h' ->
    exists o', h' !! c = Some o' /\ own (props o') reuseSymbol = Some p.
Proof.
  induction calls as [|[x v] calls IH]; intros h h' c o p Ho Hown H;
    simpl in H.
  - injection H as <-. eauto.
  - apply bind_ok in H as ([h1 r] & Hreuse & H).
    destruct (reuse_keeps_slot _ _ _ _ _ _ _ _ Ho Hown Hreuse)
      as (o1 & Ho1 & Hown1).
    eauto.
Qed.

(** C9 (amended). For a container that is an extensible object with no
    reuse slot on its prototype chain, the first call
    [reuse(container, valueA)] stores [valueA] in a non-writable,
    non-enumerable, non-configurable own slot and returns it, and every
    later call [reuse(container, valueB)] on that container, also after
    any calls of [reuse] on whatever containers, returns [valueA] and leaves
    the heap as it is: [valueB] is discarded. *)
Theorem reuse_write_once (h : heap) (container : loc) (o : object)
    (valueA : value) :
  h !! container = Some o -> extensible o = true ->
  js_in h reuseSymbol (VObj container) = Ok false ->
  exists h1 o1,
    reuse h (VObj container) valueA = Ok (h1, valueA) /\
    h1 !! container = Some o1 /\
    own (props o1) reuseSymbol = Some (mkProperty valueA false false false) /\
    forall calls h2 valueB,
      reuse_all h1 calls = Ok h2 ->
      reuse h2 (VObj container) valueB = Ok (h2, valueA).
Proof.
  intros Ho Hext Hin.
  pose proof (js_in_false_own _ _ _ _ Ho Hin) as Hown.
  pose proof (lookup_lt_Some _ _ _ Ho) as Hlt.
  set (slot := mkProperty valueA false false false).
  exists (<[container := with_props o (put (props o) reuseSymbol slot)]> h),
         (with_props o (put (props o) reuseSymbol slot)).
  assert (Hnew : <[container := with_props o (put (props o) reuseSymbol slot)]>
                   h !! container
                 = Some (with_props o (put (props o) reuseSymbol slot)))
    by (by apply list_lookup_insert_eq).
  split.
  { unfold reuse. rewrite Hin. simpl. rewrite (fetch_some _ _ _ Ho). simpl.
    unfold define_own. by rewrite Hown, Hext. }
  split; [done|]. split; [apply own_put_eq|].
  intros calls h2 valueB Hcalls.
  destruct (reuse_all_keeps_slot calls _ _ _ _ slot Hnew (own_put_eq _ _ _)
              Hcalls) as (o2 & Ho2 & Hown2).
  exact (reuse_hit _ _ _ _ valueB Ho2 Hown2).
Qed.

(** The parent container of the example: first ["a"], then ["c"]. *)
Lemma reuse_write_once_witness :
  exists h1 o1,
    reuse containers (VObj parent_container) (VStr "a")
      = Ok (h1, VStr "a") /\
    h1 !! parent_container = Some o1 /\
    own (props o1) reuseSymbol
      = Some (mkProperty (VStr "a") false false false) /\
    forall calls h2 valueB,
      reuse_all h1 calls = Ok h2 ->
      reuse h2 (VObj parent_container) valueB = Ok (h2, VStr "a").
Proof.
  eapply (reuse_write_once containers parent_container).
  - vm_compute. reflexivity.
  - reflexivity.
  - vm_compute. reflexivity.
Defined.

(** C9, as stated, fails on a container that inherits the slot: the first
    call [reuse(child, "b")], on a child that has no slot of its own, returns
    the ["a"] stored for its parent and stores nothing. *)
Lemma reuse_first_call_inherited_counterexample :
  (props <$> containers_after_parent !! child_container) = Some [] /\
  reuse containers_after_parent (VObj child_container) (VStr "b")
    = Ok (containers_after_parent, VStr "a") /\
  VStr "a" <> VStr "b".
Proof. repeat split; try (vm_compute; reflexivity). discriminate. Qed.

(** C10 (amended). On a container that is an object of a well-formed heap,
    [reuse] completes and returns a value when the container is extensible
    or already shows the slot, its own or an inherited one; on a
    non-extensible object without the slot it throws a TypeError. *)
Theorem reuse_completes_unless_sealed (h : heap) (container : loc)
    (o : object) (val : value) :
  heap_ok h -> h !! container = Some o ->
  (extensible o = true \/ js_in h reuseSymbol (VObj container) = Ok true ->
   exists h' r, reuse h (VObj container) val = Ok (h', r)) /\
  (extensible o = false ->
   js_in h reuseSymbol (VObj container) = Ok false ->
   reuse h (VObj container) val = Fail TypeError).
Proof.
  intros Hok Ho. pose proof (lookup_lt_Some _ _ _ Ho) as Hlt.
  destruct (heap_ok_chain _ _ Hok Hlt) as [c Hc].
  assert (Hget : js_get h (VObj container) reuseSymbol
                 = Ok (value_of (first_own h c reuseSymbol)))
    by (by apply js_get_chain).
  assert (Hin : js_in h reuseSymbol (VObj container)
                = Ok (match first_own h c reuseSymbol with
                      | Some _ => true
                      | None => false
                      end)).
  { simpl. by rewrite (find_prop_chain _ _ _ _ _ Hc (chain_length _ _ _ Hc)). }
  split.
  - intros Hcase. unfold reuse. rewrite Hin.
    destruct (first_own h c reuseSymbol) as [p|] eqn:E; simpl.
    + rewrite Hget. simpl. eauto.
    + destruct Hcase as [Hext|Htrue]; [|rewrite Hin in Htrue; discriminate].
      rewrite (fetch_some _ _ _ Ho). simpl. unfold define_own.
      rewrite (js_in_false_own _ _ _ _ Ho Hin), Hext. eauto.
  - intros Hext Hfalse. unfold reuse. rewrite Hfalse. simpl.
    rewrite (fetch_some _ _ _ Ho). simpl. unfold define_own.
    by rewrite (js_in_false_own _ _ _ _ Ho Hfalse), Hext.
Qed.

(** The three containers of the example: the extensible parent, and the
    frozen object, on which the call throws. *)
Lemma reuse_completes_unless_sealed_witness :
  (exists h' r,
     reuse containers (VObj parent_container) (VStr "a") = Ok (h', r)) /\
  reuse containers (VObj frozen_container) (VStr "a") = Fail TypeError.
Proof.
  assert (Hok : heap_ok containers)
    by (apply heap_okb_ok; vm_compute; reflexivity).
  split.
  - eapply (proj1 (reuse_completes_unless_sealed containers parent_container
                     _ (VStr "a") Hok ltac:(vm_compute; reflexivity))).
    left. reflexivity.
  - eapply (proj2 (reuse_completes_unless_sealed containers frozen_container
                     _ (VStr "a") Hok ltac:(vm_compute; reflexivity)));
      vm_compute; reflexivity.
Defined.

(** C10, as stated, fails on a frozen container: the call throws. *)
Lemma reuse_frozen_container_counterexample :
  reuse containers (VObj frozen_container) (VStr "a") = Fail TypeError.
Proof. vm_compute. reflexivity. Qed.

(** ** The fuel is enough for [Mix] *)

Lemma genuine_ok {A} (a : A) : genuine (Ok a).
Proof. intros e H. discriminate H. Qed.

Lemma genuine_TypeError {A} : genuine (@Fail A TypeError).
Proof. intros e [= <-]. split; discriminate. Qed.

Lemma genuine_Unsupported {A} : genuine (@Fail A Unsupported).
Proof. intros e [= <-]. split; discriminate. Qed.

Lemma genuine_bind {A B} (m : result A) (f : A -> result B) :
  genuine m -> (forall a, m = Ok a -> genuine (f a)) -> genuine (bind m f).
Proof.
  intros Hm Hf e H. destruct m as [a|e']; simpl in H.
  - by apply (Hf a eq_refl).
  - injection H as <-. by apply Hm.
Qed.

Lemma js_get_total (h : heap) (l : loc) (k : key) :
  heap_ok h -> l < length h -> exists v, js_get h (VObj l) k = Ok v.
Proof.
  intros Hok Hl. destruct (heap_ok_chain _ _ Hok Hl) as [c Hc].
  rewrite (js_get_chain _ _ _ _ Hc). eauto.
Qed.

Lemma js_get_genuine (h : heap) (v : value) (k : key) :
  heap_ok h -> (forall l, v = VObj l -> l < length h) ->
  genuine (js_get h v k).
Proof.
  intros Hok Hv. destruct v; try apply genuine_TypeError;
    try apply genuine_Unsupported.
  destruct (js_get_total h l k Hok (Hv l eq_refl)) as [x ->].
  apply genuine_ok.
Qed.

Lemma find_prop_total (h : heap) (l : loc) (k : key) :
  heap_ok h -> l < length h ->
  exists r, find_prop (length h) h (Some l) k = Ok r.
Proof.
  intros Hok Hl. destruct (heap_ok_chain _ _ Hok Hl) as [c Hc].
  rewrite (find_prop_chain _ _ _ k _ Hc (chain_length _ _ _ Hc)). eauto.
Qed.

Lemma js_set_genuine (h : heap) (t : loc) (k : key) (v : value) :
  heap_ok h -> t < length h -> genuine (js_set h t k v).
Proof.
  intros Hok Ht. unfold js_set.
  destruct (find_prop_total h t k Hok Ht) as [found ->]. simpl.
  destruct (lookup_lt_is_Some_2 h t Ht) as [o Ho].
  rewrite (fetch_some _ _ _ Ho). simpl.
  repeat match goal with
  | |- genuine (match ?x with _ => _ end) => destruct x
  | |- genuine (if ?x then _ else _) => destruct x
  end; try apply genuine_ok; apply genuine_TypeError.
Qed.

Lemma set_proto_genuine (h : heap) (t : loc) (p : option loc) :
  heap_ok h -> t < length h -> (forall x, p = Some x -> x < length h) ->
  genuine (set_proto h t p).
Proof.
  intros Hok Ht Hp. unfold set_proto.
  destruct (lookup_lt_is_Some_2 h t Ht) as [o Ho].
  rewrite (fetch_some _ _ _ Ho). simpl.
  destruct (decide (proto o = p)); [apply genuine_ok|].
  destruct (extensible o); simpl; [|apply genuine_TypeError].
  assert (Hc : exists c, chain h p c).
  { destruct p as [x|]; [|exists []; constructor].
    apply heap_ok_chain; auto. }
  destruct Hc as [c Hc].
  rewrite (hasPrototype_loop_chain _ _ _ t _ Hc (chain_length _ _ _ Hc)).
  simpl. destruct (bool_decide (t ∈ c));
    [apply genuine_TypeError | apply genuine_ok].
Qed.

Lemma setPrototypeOf_genuine (h : heap) (t : loc) (v : value) :
  heap_ok h -> t < length h -> (forall x, v = VObj x -> x < length h) ->
  genuine (object_setPrototypeOf h (VObj t) v).
Proof.
  intros Hok Ht Hv. simpl.
  destruct v; try apply genuine_TypeError.
  - apply set_proto_genuine; auto. discriminate.
  - apply set_proto_genuine; auto. intros x [= <-]. auto.
Qed.

Lemma defineProperty_genuine (h : heap) (v : value) (k : key)
    (d : property) :
  (forall l, v = VObj l -> l < length h) ->
  genuine (object_defineProperty h v k d).
Proof.
  intros Hv. destruct v; try apply genuine_TypeError;
    try apply genuine_Unsupported.
  simpl. destruct (lookup_lt_is_Some_2 h l (Hv l eq_refl)) as [o Ho].
  rewrite (fetch_some _ _ _ Ho). simpl.
  destruct (define_own o k d); [apply genuine_ok | apply genuine_TypeError].
Qed.

Lemma clonePrototype_genuine (n : nat) (h : heap) (q : loc) :
  state_ok n h -> q < n -> genuine (clonePrototype h (VObj q)).
Proof.
  intros (Hok & Hold) Hq. pose proof Hold as (Hlen & _).
  unfold clonePrototype, object_getOwnPropertyDescriptors. simpl.
  destruct (lookup_lt_is_Some_2 h q ltac:(lia)) as [qo Hqo].
  rewrite (fetch_some _ _ _ Hqo). simpl.
  set (cl := mkObject None (props qo) true Ordinary).
  assert (Hok1 : heap_ok (h ++ [cl])).
  { apply heap_ok_alloc; [done|]. intros ? Hp. discriminate Hp. }
  assert (Hq1 : q < length (h ++ [cl])) by (rewrite length_app; lia).
  apply genuine_bind; [apply js_get_genuine; [done|]; by intros ? [= <-]|].
  intros ctor1 Hc1.
  apply genuine_bind.
  { apply js_set_genuine; [done|]. rewrite length_app. simpl. lia. }
  intros h2 Hset.
  apply js_set_shape in Hset as (o0 & p & Ho0 & Hp & ->).
  rewrite lookup_app_r in Ho0 by lia. rewrite Nat.sub_diag in Ho0.
  injection Ho0 as <-. rewrite insert_last.
  set (cl' := with_props cl (put (props cl) (KStr "constructor") p)).
  assert (Hok2 : heap_ok (h ++ [cl'])).
  { apply heap_ok_alloc; [done|]. intros ? Hx. discriminate Hx. }
  assert (Hq2 : q < length (h ++ [cl'])) by (rewrite length_app; lia).
  assert (Hctor : forall v l,
            js_get (h ++ [cl']) (VObj q) (KStr "constructor") = Ok v ->
            v = VObj l -> l < length (h ++ [cl'])).
  { intros v l Hv ->. rewrite js_get_app in Hv by (done || lia).
    pose proof (old_ok_get_lt _ _ _ _ _ Hold Hq Hv).
    rewrite length_app. lia. }
  apply genuine_bind; [apply js_get_genuine; [done|]; by intros ? [= <-]|].
  intros ctor2 Hc2.
  apply genuine_bind; [apply js_get_genuine; [done|]; eauto|].
  intros orig Horig.
  apply genuine_bind; [apply js_get_genuine; [done|]; by intros ? [= <-]|].
  intros ctor3 Hc3.
  apply genuine_bind; [apply defineProperty_genuine; eauto|].
  intros h3 _. apply genuine_ok.
Qed.

Lemma getPrototypeOf_total (h : heap) (l : loc) :
  l < length h -> exists v, object_getPrototypeOf h (VObj l) = Ok v.
Proof.
  intros Hl. unfold object_getPrototypeOf. simpl.
  destruct (lookup_lt_is_Some_2 h l Hl) as [o Ho].
  rewrite (fetch_some _ _ _ Ho). simpl. eauto.
Qed.

(** The loop of [clonePrototypeDeep] walks the chain of an old object:
    fuel for the length of that chain is enough. *)
Lemma clonePrototypeDeep_loop_genuine (n : nat) (c : list loc) :
  forall (fuel : nat) (h : heap) (last : loc) (s : option loc),
    state_ok n h -> n <= last -> last < length h ->
    chain h s c -> Forall (fun x => x < n) c -> length c <= fuel ->
    genuine (clonePrototypeDeep_loop fuel h last (of_proto s)).
Proof.
  induction c as [|np c IH]; intros fuel h last s Hst Hn Hl Hc Hb Hf.
  - inversion Hc; subst. destruct fuel; simpl; apply genuine_ok.
  - inversion Hc as [|np' npo c' Hnp Hc']; subst.
    apply Forall_cons in Hb as [Hnpn Hb].
    destruct fuel as [|fuel]; simpl in Hf; [lia|]. simpl.
    destruct (decide (np = ObjectPrototype)); [apply genuine_ok|].
    apply genuine_bind; [by apply (clonePrototype_genuine n)|].
    intros [h1 npc] Hclone.
    destruct (clonePrototype_spec _ _ _ _ _ Hst Hnpn Hclone)
      as (Hst1 & Hg1 & Hk1 & _ & -> & Hlen1 & _ & _).
    apply genuine_bind.
    { apply set_proto_genuine; [apply Hst1 | lia|].
      intros x [= <-]. lia. }
    intros h2 Hset. simpl in Hset.
    destruct (state_ok_set_proto _ _ _ _ _ Hst1 Hn Hset) as (Hst2 & Hg2 & _).
    destruct (set_proto_kept _ _ _ _ Hset) as (Hlen2 & Hother & _).
    pose proof Hst as (_ & Hold). pose proof Hold as (Hlen & _).
    destruct (proj2 Hk1 _ _ Hnp) as (o1 & Ho1 & Hp1).
    assert (Hnp2 : h2 !! np = Some o1) by (rewrite Hother by lia; done).
    unfold object_getPrototypeOf. simpl.
    rewrite (fetch_some _ _ _ Hnp2). simpl. rewrite Hp1.
    assert (Hg : grows n h h2)
      by exact (grows_trans n _ _ _ Hold Hg1 Hg2).
    apply IH; try done; try lia.
    destruct (proto npo) as [x|].
    + by apply (grows_chain n h).
    + inversion Hc'; subst. constructor.
Qed.

Lemma clonePrototypeDeep_genuine (n : nat) (h : heap) (v : value) :
  state_ok n h -> (forall q, v = VObj q -> q < n) ->
  genuine (clonePrototypeDeep h v).
Proof.
  intros Hst Hv. unfold clonePrototypeDeep.
  destruct v as [| | | | |q| |]; try apply genuine_TypeError;
    try apply genuine_Unsupported.
  specialize (Hv q eq_refl).
  apply genuine_bind; [by apply (clonePrototype_genuine n)|].
  intros [h1 clone] Hclone.
  destruct (clonePrototype_spec _ _ _ _ _ Hst Hv Hclone)
    as (Hst1 & _ & _ & _ & -> & Hlen1 & _ & _).
  pose proof Hst1 as (Hok1 & Hlen & Hch & _).
  destruct (Hch q Hv) as (c & Hc & Hb).
  inversion Hc as [|q' qo c' Hq Hc']; subst.
  apply Forall_cons in Hb as [_ Hb].
  unfold object_getPrototypeOf. simpl.
  rewrite (fetch_some _ _ _ Hq). simpl.
  apply genuine_bind; [|intros [? ?] _; apply genuine_ok].
  apply (clonePrototypeDeep_loop_genuine n c'); try done; try lia.
  - pose proof Hst as (_ & ? & _). lia.
  - by apply chain_length in Hc'.
Qed.

Lemma Mix_link_genuine (n : nat) (rest : list loc) :
  forall (h : heap) (last : loc),
    state_ok n h -> Forall (fun s => s < n) rest ->
    n <= last -> last < length h ->
    genuine (Mix_link h (VObj last) rest).
Proof.
  induction rest as [|s rest IH]; intros h last Hst Hlt Hn Hl; simpl.
  - apply genuine_ok.
  - apply Forall_cons in Hlt as [Hs Hlt].
    pose proof Hst as (Hok & Hold). pose proof Hold as (Hlen & _).
    apply genuine_bind.
    { apply js_get_genuine; [done|]. intros ? [= <-]. lia. }
    intros nextPrototype Hps.
    assert (Hq : forall q, nextPrototype = VObj q -> q < n).
    { intros q ->. by eapply old_ok_get_lt. }
    apply genuine_bind; [by apply (clonePrototypeDeep_genuine n)|].
    intros [[h1 pr] tl] Hdeep.
    destruct (clonePrototypeDeep_object _ _ _ Hdeep) as [ps ->].
    destruct (clonePrototypeDeep_spec _ _ _ _ _ _ Hst (Hq ps eq_refl) Hdeep)
      as (Hst1 & Hg1 & _ & _ & -> & Htl & Htl' & _ & _).
    apply genuine_bind.
    { apply set_proto_genuine; [apply Hst1 | lia|].
      intros x [= <-]. lia. }
    intros h2 Hset. simpl in Hset.
    destruct (state_ok_set_proto _ _ _ _ _ Hst1 Hn Hset) as (Hst2 & _ & _).
    destruct (set_proto_kept _ _ _ _ Hset) as (Hlen2 & _ & lo & Hlo & Hplo).
    unfold object_getPrototypeOf. simpl.
    rewrite (fetch_some _ _ _ Hlo). simpl. rewrite Hplo. simpl.
    apply IH; try done; lia.
Qed.

Lemma js_set_heap_ok (h h' : heap) (t : loc) (k : key) (v : value) :
  heap_ok h -> js_set h t k v = Ok h' ->
  heap_ok h' /\ length h' = length h.
Proof.
  intros Hok H. apply js_set_shape in H as (o & p & Ho & _ & ->).
  split; [by eapply heap_ok_insert | by rewrite length_insert].
Qed.

Lemma assign_keys_genuine (t s : loc) (keys : list key) :
  forall h : heap,
    heap_ok h -> t < length h -> s < length h ->
    genuine (assign_keys h t s keys) /\
    forall h', assign_keys h t s keys = Ok h' ->
               heap_ok h' /\ length h' = length h.
Proof.
  induction keys as [|k keys IH]; intros h Hok Ht Hs; simpl.
  - split; [apply genuine_ok|]. by intros h' [= <-].
  - destruct (lookup_lt_is_Some_2 h s Hs) as [so Hso].
    rewrite (fetch_some _ _ _ Hso). simpl.
    destruct (own (props so) k) as [p|]; [|by apply IH].
    destruct (p_enumerable p); [|by apply IH].
    split.
    + apply genuine_bind; [by apply js_set_genuine|].
      intros h1 Hset.
      destruct (js_set_heap_ok _ _ _ _ _ Hok Hset) as (Hok1 & Hlen1).
      apply IH; [done | lia | lia].
    + intros h' H. apply bind_ok in H as (h1 & Hset & H).
      destruct (js_set_heap_ok _ _ _ _ _ Hok Hset) as (Hok1 & Hlen1).
      destruct (IH h1 Hok1 ltac:(lia) ltac:(lia)) as (_ & Hk).
      destruct (Hk h' H) as (? & ?). split; [done | lia].
Qed.

Lemma Mix_statics_genuine (create : loc) (srcs : list loc) :
  forall h : heap,
    heap_ok h -> create < length h -> Forall (fun s => s < length h) srcs ->
    genuine (Mix_statics h create srcs).
Proof.
  induction srcs as [|s srcs IH]; intros h Hok Hc Hlt; simpl.
  - apply genuine_ok.
  - apply Forall_cons in Hlt as [Hs Hlt].
    unfold object_assign.
    destruct (lookup_lt_is_Some_2 h create Hc) as [co Hco].
    destruct (lookup_lt_is_Some_2 h s Hs) as [so Hso].
    rewrite (fetch_some _ _ _ Hco), (fetch_some _ _ _ Hso). simpl.
    destruct (assign_keys_genuine create s (map fst (props so)) h Hok Hc Hs)
      as (Hgen & Hkeep).
    apply genuine_bind; [done|]. intros h1 H1.
    destruct (Hkeep h1 H1) as (Hok1 & Hlen1).
    apply IH; [done | lia|]. by rewrite Hlen1.
Qed.

Lemma Mix_genuine (h : heap) (srcs : list loc) :
  heap_ok h -> refs_ok h -> Forall (fun s => s < length h) srcs ->
  genuine (Mix h srcs).
Proof.
  intros Hok Hrefs Hlt0.
  destruct srcs as [|first [|second rest]];
    [apply genuine_ok | apply genuine_ok |].
  set (srcs := first :: second :: rest) in *.
  set (n := length h) in *.
  assert (Hold : old_ok n h) by (by apply old_ok_start).
  assert (Hst : state_ok n h) by done.
  pose proof Hlt0 as Hlt. apply Forall_cons in Hlt as [Hfirst Hlt].
  unfold Mix. fold srcs.
  apply genuine_bind.
  { apply js_get_genuine; [done|]. by intros ? [= <-]. }
  intros firstPrototype Hfp.
  assert (Hq : forall q, firstPrototype = VObj q -> q < n).
  { intros q ->. by eapply old_ok_get_lt. }
  apply genuine_bind; [by apply (clonePrototypeDeep_genuine n)|].
  intros [[h1 prototype] lastP] Hdeep.
  destruct (clonePrototypeDeep_object _ _ _ Hdeep) as [fp ->].
  destruct (clonePrototypeDeep_spec _ _ _ _ _ _ Hst (Hq fp eq_refl) Hdeep)
    as (Hst1 & Hg1 & _ & _ & -> & Htl & Htl' & _ & _).
  assert (Hn1 : n <= lastP) by (unfold n; lia).
  apply genuine_bind; [by apply (Mix_link_genuine n)|].
  intros [h2 v'] Hlink.
  destruct (Mix_link_spec n (length h) _ _ _ _ _ Hst1 Hlt Hn1 Htl' Hlink)
    as (last' & -> & Hn2 & Hl2 & Hst2 & Hg2 & _).
  pose proof Hst2 as (Hok2 & Hold2). pose proof Hold2 as (Hlen2 & _).
  assert (Hlast : List.last (second :: rest) first < n).
  { clear -Hlt Hfirst. generalize dependent first.
    induction (second :: rest) as [|x xs IH]; intros d Hd; [done|].
    apply Forall_cons in Hlt as [Hx Hxs].
    destruct xs as [|y ys]; [done|]. by apply IH. }
  apply genuine_bind.
  { apply js_get_genuine; [done|]. intros ? [= <-].
    exact (Nat.lt_le_trans _ _ _ Hlast Hlen2). }
  intros lastOriginal Hlo.
  assert (Hlo' : forall x, lastOriginal = VObj x -> x < length h2).
  { intros x ->. pose proof (old_ok_get_lt _ _ _ _ _ Hold2 Hlast Hlo). lia. }
  apply genuine_bind; [by apply setPrototypeOf_genuine|].
  intros h3 Hset3.
  apply setPrototypeOf_object in Hset3 as (lp & -> & Hset3).
  destruct (state_ok_set_proto _ _ _ _ _ Hst2 Hn2 Hset3) as (Hst3 & Hg3 & _).
  destruct (set_proto_kept _ _ _ _ Hset3) as (Hlen3 & _ & _).
  pose proof Hst3 as (Hok3 & Hold3). pose proof Hold3 as (Hlen3' & _).
  assert (Hfirst3 : first < length h3) by lia.
  apply genuine_bind.
  { unfold define_class, is_constructor.
    destruct (lookup_lt_is_Some_2 h3 first Hfirst3) as [fo Hfo].
    rewrite (fetch_some _ _ _ Hfo). simpl.
    destruct (js_get_total h3 first (KStr "prototype") Hok3 Hfirst3)
      as [pv Hpv].
    destruct (negb _); [apply genuine_TypeError|].
    rewrite Hpv. simpl.
    destruct pv; try apply genuine_TypeError; apply genuine_ok. }
  intros [h4 create] Hclass.
  apply define_class_create in Hclass as (pp & Hpp & _ & -> & ->).
  set (cp := length h3) in *.
  set (po0 := mkObject pp [(KStr "constructor", hidden (VObj (S cp)))] true
                Ordinary) in *.
  set (co0 := mkObject (Some first) (create_props cp srcs) true
                (MixClass srcs)) in *.
  assert (Hok4 : heap_ok (h3 ++ [po0; co0])).
  { change (h3 ++ [po0; co0]) with (h3 ++ [po0] ++ [co0]).
    rewrite app_assoc. apply heap_ok_alloc.
    - apply heap_ok_alloc; [done|]. intros p Hp. simpl in Hp. subst pp.
      simpl in Hpp.
      pose proof (old_ok_get_lt _ _ _ _ _ Hold3 Hfirst Hpp). lia.
    - intros p [= <-]. rewrite length_app. simpl. lia. }
  assert (Hst4 : state_ok n (h3 ++ [po0; co0])).
  { split; [done|]. eapply grows_old_ok; [exact Hold3 | apply grows_app]. }
  assert (Hco4 : (h3 ++ [po0; co0]) !! S cp = Some co0).
  { rewrite lookup_app_r by (unfold cp; lia).
    by replace (S cp - length h3) with 1 by (unfold cp; lia). }
  rewrite (js_get_own _ _ co0 _ (mkProperty (VObj cp) false false false) Hco4)
    by done.
  simpl.
  assert (Hlen4 : length (h3 ++ [po0; co0]) = S (S cp))
    by (rewrite length_app; simpl; unfold cp; lia).
  apply genuine_bind.
  { apply set_proto_genuine; [done | lia|]. intros x [= <-]. lia. }
  intros h5 Hset5.
  assert (Hncp : n <= cp) by (unfold cp; lia).
  destruct (state_ok_set_proto n _ _ _ _ Hst4 Hncp Hset5) as (Hst5 & _ & _).
  destruct (set_proto_kept _ _ _ _ Hset5) as (Hlen5 & _ & _).
  apply genuine_bind; [|intros ? _; apply genuine_ok].
  apply (Mix_statics_genuine (S cp) srcs); [apply Hst5 | lia|].
  eapply Forall_impl; [exact Hlt0|]. simpl. intros x Hx. fold n in Hx. lia.
Qed.

(** * Further properties of the module *)

(** ** [hasPrototype] *)

Lemma chain_elem_rtc (h : heap) (s : option loc) (c : list loc) :
  chain h s c -> forall a b, s = Some a -> b ∈ c -> rtc (edge h) a b.
Proof.
  induction 1 as [|l o c Hl Hc IH]; intros a b Hs Hb; [discriminate|].
  injection Hs as <-. apply elem_of_cons in Hb as [->|Hb]; [apply rtc_refl|].
  destruct (proto o) as [x|] eqn:Hp.
  - eapply rtc_l; [exists o; split; [exact Hl | exact Hp]|]. by apply IH.
  - inversion Hc; subst. by apply elem_of_nil in Hb.
Qed.

Lemma tc_edge_chain (h : heap) (inst : loc) (io : object) (cc : list loc)
    (p : loc) :
  h !! inst = Some io -> chain h (proto io) cc ->
  p ∈ cc <-> tc (edge h) inst p.
Proof.
  intros Hio Hcc. split.
  - intros Hin. destruct (proto io) as [x|] eqn:Hp.
    + eapply tc_rtc_r; [apply tc_once; exists io; split; [exact Hio|exact Hp]|].
      by eapply chain_elem_rtc.
    + inversion Hcc; subst. by apply elem_of_nil in Hin.
  - intros Ht.
    destruct Ht as [x y (o & Ho & Hp)|x y z (o & Ho & Hp) Hyz];
      rewrite Hio in Ho; injection Ho as <-; rewrite Hp in Hcc.
    + by apply (rtc_edge_chain h y y cc).
    + apply (rtc_edge_chain h y z cc); [done|]. by apply tc_rtc.
Qed.

(** [hasPrototype(instance, prototype)] answers whether [prototype] is
    reached from [instance] by one or more prototype links; so it is never
    true of an object and itself. *)
Theorem hasPrototype_follows_links (h : heap) (instance prototype : loc) :
  heap_ok h -> instance < length h ->
  exists b,
    hasPrototype h (VObj instance) prototype = Ok b /\
    (b = true <-> tc (edge h) instance prototype) /\
    hasPrototype h (VObj instance) instance = Ok false.
Proof.
  intros Hok Hl.
  destruct (lookup_lt_is_Some_2 h instance Hl) as [io Hio].
  destruct (Hok _ _ Hio) as [cc Hcc].
  exists (bool_decide (prototype ∈ cc)).
  split; [by eapply hasPrototype_chain|]. split.
  - rewrite bool_decide_eq_true. by eapply tc_edge_chain.
  - rewrite (hasPrototype_chain _ _ _ _ instance Hio Hcc).
    f_equal. apply bool_decide_eq_false_2. intros Hin.
    assert (Hc : chain h (Some instance) (instance :: cc))
      by (by econstructor).
    apply chain_NoDup, NoDup_cons in Hc as [Hn _]. done.
Qed.

(** The instance [a] of [A]: [A.prototype] is on its chain, [a] is not. *)
Lemma hasPrototype_follows_links_witness :
  exists b,
    hasPrototype (fst heap_AB_a) (VObj (snd heap_AB_a)) 3 = Ok b /\
    (b = true <-> tc (edge (fst heap_AB_a)) (snd heap_AB_a) 3) /\
    hasPrototype (fst heap_AB_a) (VObj (snd heap_AB_a)) (snd heap_AB_a)
      = Ok false.
Proof.
  apply (hasPrototype_follows_links (fst heap_AB_a) (snd heap_AB_a) 3).
  - apply heap_okb_ok. vm_compute. reflexivity.
  - vm_compute. lia.
Defined.

(** ** The augmented predicate on [null] and [undefined] *)

(** [hasPrototype] starts with [Object.getPrototypeOf(instance)], which
    throws on [null] and [undefined]; so does every predicate that
    [clonePrototype] installs, whatever it wraps. *)
Lemma call_closure_nullish (h : heap) (f : closure) (this v : value) :
  v = VNull \/ v = VUndef -> f <> NativeHasInstance ->
  call_closure h f this v = Fail TypeError.
Proof.
  intros Hv. revert this.
  induction f as [|o c IH] using closure_wrapped_ind; intros this Hf; [done|].
  simpl. destruct o as [| | | | | | |g]; try done.
  - destruct Hv as [-> | ->]; reflexivity.
  - destruct Hv as [-> | ->]; reflexivity.
  - destruct g as [|o' c'].
    + destruct Hv as [-> | ->]; reflexivity.
    + by rewrite (IH _ eq_refl VUndef).
Qed.

(** Once a class has been a source of [Mix], [null instanceof S] and
    [undefined instanceof S] throw a TypeError, where the native check
    answers [false]. *)
Theorem Mix_instanceof_nullish_throws (h hF : heap) (srcs : list loc)
    (create : loc) (S : loc) (v : value) :
  heap_ok h -> refs_ok h -> Forall (class_like h) srcs ->
  2 <= length srcs -> Mix h srcs = Ok (hF, create) -> S ∈ srcs ->
  v = VNull \/ v = VUndef ->
  (js_get h (VObj S) hasInstanceKey = Ok (VFun NativeHasInstance) ->
   instance_of h v (VObj S) = Ok false) /\
  instance_of hF v (VObj S) = Fail TypeError.
Proof.
  intros Hok Hrefs Hcl Hlen HMix HS Hv. split.
  - intros Hnat. unfold instance_of. rewrite Hnat. simpl.
    unfold ordinary_has_instance.
    destruct (is_callable h (VObj S)) as [[|]|e] eqn:Hc; simpl.
    + by destruct Hv as [-> | ->].
    + done.
    + apply js_get_lt in Hnat. simpl in Hc.
      destruct (lookup_lt_is_Some_2 h S Hnat) as [o Ho].
      by rewrite (fetch_some _ _ _ Ho) in Hc.
  - destruct srcs as [|first [|second rest]]; simpl in Hlen; try lia.
    pose proof (Forall_class_like_lt _ _ Hcl) as Hlt.
    destruct (Mix_spec _ _ _ _ _ _ Hok Hrefs Hlt HMix)
      as (_ & _ & _ & hS & cp & head & co & coS & po & _ & _
          & _ & _ & _ & _ & _ & _ & _ & _ & _ & _ & _ & Hregs).
    rewrite Forall_forall in Hregs, Hcl.
    destruct (Hregs S HS (Hcl S HS))
      as (c & (o & p & f & Ho & Hown & Hf & Hc) & _).
    unfold instance_of. rewrite (js_get_own _ _ _ _ _ Ho Hown). simpl.
    rewrite Hf. apply call_closure_nullish; [done|].
    intros ->. exact Hc.
Qed.

(** After [Mix(A, B)], [null instanceof A] throws. *)
Lemma Mix_instanceof_nullish_throws_witness :
  (js_get heap_AB (VObj class_A) hasInstanceKey
     = Ok (VFun NativeHasInstance) ->
   instance_of heap_AB VNull (VObj class_A) = Ok false) /\
  instance_of (fst mixed_AB) VNull (VObj class_A) = Fail TypeError.
Proof.
  apply (Mix_instanceof_nullish_throws heap_AB (fst mixed_AB)
           [class_A; class_B] (snd mixed_AB) class_A VNull).
  - apply heap_okb_ok. vm_compute. reflexivity.
  - apply refs_okb_ok. vm_compute. reflexivity.
  - repeat constructor; apply class_likeb_ok; vm_compute; reflexivity.
  - simpl. lia.
  - vm_compute. reflexivity.
  - apply elem_of_cons. by left.
  - by left.
Defined.

(** ** Later compositions keep the answers of an augmented predicate *)

Section Stable.
Variables (h hF : heap) (x : loc) (io io' : object) (cc : list loc).
Hypothesis Hio : h !! x = Some io.
Hypothesis Hcc : chain h (proto io) cc.
Hypothesis Hio' : hF !! x = Some io'.
Hypothesis Hcc' : chain hF (proto io') cc.

(** A predicate installed by [clonePrototype] ignores its [this] and only
    looks at the chain of its argument. *)
Lemma call_closure_stable (f : closure) (b : bool) (this this' : value) :
  (f = NativeHasInstance -> this = VUndef /\ this' = VUndef) ->
  call_closure h f this (VObj x) = Ok b ->
  call_closure hF f this' (VObj x) = Ok b.
Proof.
  revert b this this'.
  induction f as [|o c IH] using closure_wrapped_ind;
    intros b this this' Hthis H.
  - destruct (Hthis eq_refl) as [-> ->]. exact H.
  - cbn [call_closure] in *.
    assert (Hh : forall r : bool,
      (if r then Ok true else hasPrototype h (VObj x) c) = Ok b ->
      (if r then Ok true else hasPrototype hF (VObj x) c) = Ok b).
    { intros [|]; [done|].
      by rewrite (hasPrototype_chain _ _ _ _ c Hio Hcc),
                 (hasPrototype_chain _ _ _ _ c Hio' Hcc'). }
    destruct o as [| | | | | | |g]; try discriminate H;
      try exact (Hh false H).
    destruct (call_closure h g VUndef (VObj x)) as [r|e] eqn:Hg;
      [|discriminate].
    rewrite (IH g eq_refl r VUndef VUndef (fun _ => conj eq_refl eq_refl) Hg).
    exact (Hh r H).
Qed.
End Stable.

Lemma call_closure_wraps (h : heap) (n : nat) (g : closure) (v : value)
    (f : closure) :
  wraps n f (VFun g) -> call_closure h g VUndef v = Ok true ->
  forall this, call_closure h f this v = Ok true.
Proof.
  induction f as [|o c IH] using closure_wrapped_ind;
    intros Hw Hg this; [done|].
  simpl in *. destruct Hw as [_ [->|Hw]].
  - by rewrite Hg.
  - destruct o; try done. by rewrite (IH f eq_refl Hw Hg VUndef).
Qed.

(** When the predicate of a class is already one that [clonePrototype]
    installed, whatever it recognises among the existing objects it still
    recognises after any further call of [Mix]. *)
Theorem Mix_keeps_augmented_answers (h hF : heap) (srcs : list loc)
    (create : loc) (S x : loc) (f : closure) :
  heap_ok h -> refs_ok h -> Forall (fun s => s < length h) srcs ->
  Mix h srcs = Ok (hF, create) ->
  x < length h ->
  js_get h (VObj S) hasInstanceKey = Ok (VFun f) -> f <> NativeHasInstance ->
  instance_of h (VObj x) (VObj S) = Ok true ->
  instance_of hF (VObj x) (VObj S) = Ok true.
Proof.
  intros Hok Hrefs Hlt HMix Hx Hf Hnat Hinst.
  pose proof (old_ok_start _ Hok Hrefs) as Hold.
  pose proof (Mix_grows _ _ _ _ Hok Hrefs Hlt HMix) as Hg.
  pose proof (js_get_lt _ _ _ _ Hf) as HS.
  destruct (heap_ok_chain _ _ Hok Hx) as [c Hc].
  destruct (grows_chain_old _ _ _ _ _ Hold Hg Hx Hc) as [Hc' _].
  inversion Hc as [|? io cc Hio Hcc]; subst.
  inversion Hc' as [|? io' ? Hio' Hcc']; subst.
  unfold instance_of in Hinst. rewrite Hf in Hinst. simpl in Hinst.
  destruct (grows_get_hasInstance _ _ _ S Hold Hg HS)
    as (orig & v & Horig & Hv & Hcase).
  rewrite Hf in Horig. injection Horig as <-.
  unfold instance_of. rewrite Hv. simpl.
  destruct Hcase as [->|(f' & -> & Hw)].
  - apply (call_closure_stable h hF x io io' cc Hio Hcc Hio' Hcc' f true
             (VObj S) (VObj S)); [done | exact Hinst].
  - apply (call_closure_wraps hF (length h) f (VObj x) f' Hw).
    apply (call_closure_stable h hF x io io' cc Hio Hcc Hio' Hcc' f true
             (VObj S) VUndef); [done | exact Hinst].
Qed.

(** [m1], built from [Mix(T, U)], is still an instance of [T] after
    [Mix(T, V)]. *)
Lemma Mix_keeps_augmented_answers_witness :
  instance_of (fst mixed_TV) (VObj (snd heap_TU_instance)) (VObj class_T)
    = Ok true.
Proof.
  apply (Mix_keeps_augmented_answers (fst heap_TU_instance) (fst mixed_TV)
           [class_T; class_V] (snd mixed_TV) class_T (snd heap_TU_instance)
           (AugmentedHasInstance (VFun NativeHasInstance) 11)).
  - apply heap_okb_ok. vm_compute. reflexivity.
  - apply refs_okb_ok. vm_compute. reflexivity.
  - repeat constructor; vm_compute; lia.
  - vm_compute. reflexivity.
  - vm_compute. lia.
  - vm_compute. reflexivity.
  - discriminate.
  - vm_compute. reflexivity.
Defined.

(** ** What [clonePrototype] copies *)

Lemma put_own_id (ps : list (key * property)) (k : key) (p : property) :
  own ps k = Some p -> put ps k p = ps.
Proof.
  induction ps as [|[k' p'] ps IH]; simpl; [done|].
  destruct (decide (k' = k)) as [->|Hne].
  - by intros [= ->].
  - intros H. by rewrite IH.
Qed.

(** Assignment to a property of an object that has no prototype. *)
Lemma js_set_root (h h' : heap) (t : loc) (o : object) (k : key)
    (v : value) :
  h !! t = Some o -> proto o = None -> extensible o = true ->
  js_set h t k v = Ok h' ->
  h' = <[t := with_props o
           (put (props o) k
              (match own (props o) k with
               | Some e =>
                   mkProperty v (p_writable e) (p_enumerable e)
                     (p_configurable e)
               | None => data v
               end))]> h /\
  (forall e, own (props o) k = Some e -> p_writable e = true).
Proof.
  intros Ho Hp Hext H. unfold js_set in H.
  pose proof (lookup_lt_Some _ _ _ Ho) as Hlt.
  destruct (length h) as [|m] eqn:Hlen; [lia|].
  cbn [find_prop] in H. rewrite (fetch_some _ _ _ Ho) in H.
  cbn [bind] in H. rewrite Hp in H.
  destruct (own (props o) k) as [e|] eqn:Hown.
  - cbn [bind] in H. destruct (p_writable e) eqn:Hw; [|discriminate].
    simpl in H. injection H as <-. split; [done|]. by intros ? [= <-].
  - assert (Hnone : find_prop m h None k = Ok None) by (by destruct m).
    rewrite Hnone in H. cbn [bind] in H. rewrite Hext in H.
    injection H as <-. split; [done|]. intros ? [=].
Qed.

(** The duplicate that [clonePrototype(q)] allocates. *)
Lemma clonePrototype_exact (n : nat) (h h' : heap) (q c : loc) :
  state_ok n h -> q < n -> clonePrototype h (VObj q) = Ok (h', c) ->
  exists qo ctor co,
    h !! q = Some qo /\
    js_get h (VObj q) (KStr "constructor") = Ok (VObj ctor) /\
    ctor < n /\ c = length h /\ length h' = S (length h) /\
    h' !! c = Some co /\ proto co = None /\ extensible co = true /\
    construct_of co = Ordinary /\
    props co =
      put (props qo) (KStr "constructor")
        (match own (props qo) (KStr "constructor") with
         | Some e =>
             mkProperty (VObj ctor) (p_writable e) (p_enumerable e)
               (p_configurable e)
         | None => data (VObj ctor)
         end) /\
    (forall l, n <= l -> l < length h -> h' !! l = h !! l).
Proof.
  intros (Hok & Hold) Hq H. pose proof Hold as (Hlen & _).
  destruct (clonePrototype_shape _ _ _ _ _ (conj Hok Hold) Hq H)
    as (qo & ctor & _ & _ & _ & Hqo & Hctor & Hcn & _ & _ & -> & _).
  unfold clonePrototype, object_getOwnPropertyDescriptors in H. simpl in H.
  rewrite (fetch_some _ _ _ Hqo) in H. simpl in H.
  rewrite js_get_app in H by (done || lia). rewrite Hctor in H. simpl in H.
  apply bind_ok in H as (h2 & Hset & H).
  set (cl0 := mkObject None (props qo) true Ordinary) in *.
  assert (Hcl0 : (h ++ [cl0]) !! length h = Some cl0).
  { rewrite lookup_app_r by lia. by rewrite Nat.sub_diag. }
  destruct (js_set_root _ _ _ _ _ _ Hcl0 eq_refl eq_refl Hset) as [-> _].
  rewrite insert_last in H.
  rewrite js_get_app in H by (done || lia). rewrite Hctor in H. simpl in H.
  apply bind_ok in H as (orig & Horig & H).
  apply bind_ok in H as (h3 & Hdef & H).
  injection H as <-.
  apply defineProperty_shape in Hdef as (co3 & co3' & Hco3 & Hdef & ->).
  eexists qo, ctor, _. split; [done|]. split; [done|]. split; [done|].
  split; [done|].
  split; [rewrite length_insert, length_app; simpl; lia|].
  split.
  { rewrite list_lookup_insert_ne by lia.
    rewrite lookup_app_r by lia. rewrite Nat.sub_diag. simpl. reflexivity. }
  split; [done|]. split; [done|]. split; [done|].
  split; [done|].
  intros l Hl Hl'. rewrite list_lookup_insert_ne by lia.
  by rewrite lookup_app_l by lia.
Qed.

(** [clonePrototype(q)] allocates one object, the duplicate: it has no
    prototype, is extensible, and has the own properties of [q] with their
    attributes, [constructor] being assigned what [q.constructor] evaluates
    to; when [q] has its own [constructor], as the prototype of a class has,
    the property table of the duplicate is the one of [q]. *)
Theorem clonePrototype_copies_members (h h' : heap) (q c : loc) :
  heap_ok h -> refs_ok h -> q < length h ->
  clonePrototype h (VObj q) = Ok (h', c) ->
  c = length h /\ length h' = S (length h) /\
  exists qo co ctor,
    h !! q = Some qo /\ h' !! c = Some co /\
    proto co = None /\ extensible co = true /\
    js_get h (VObj q) (KStr "constructor") = Ok (VObj ctor) /\
    own_value co (KStr "constructor") = Some (VObj ctor) /\
    (forall k, k <> KStr "constructor" ->
       own (props co) k = own (props qo) k) /\
    (is_Some (own (props qo) (KStr "constructor")) -> props co = props qo).
Proof.
  intros Hok Hrefs Hq H.
  assert (Hst : state_ok (length h) h)
    by (split; [done | by apply old_ok_start]).
  destruct (clonePrototype_exact _ _ _ _ _ Hst Hq H)
    as (qo & ctor & co & Hqo & Hctor & _ & -> & Hlen & Hco & Hp & He & _
        & Hprops & _).
  split; [done|]. split; [done|].
  exists qo, co, ctor. repeat (split; [done|]).
  split.
  { unfold own_value. rewrite Hprops, own_put_eq.
    by destruct (own (props qo) (KStr "constructor")). }
  split.
  { intros k Hk. rewrite Hprops. by apply own_put_ne. }
  intros [e He']. rewrite Hprops, He'.
  rewrite (js_get_own _ _ _ _ _ Hqo He') in Hctor.
  injection Hctor as <-. destruct e. by apply put_own_id.
Qed.

(** The duplicate of [A.prototype]. *)
Lemma clonePrototype_copies_members_witness :
  snd cloned_A_prototype = length heap_AB /\
  length (fst cloned_A_prototype) = S (length heap_AB) /\
  exists qo co ctor,
    heap_AB !! 3 = Some qo /\
    fst cloned_A_prototype !! snd cloned_A_prototype = Some co /\
    proto co = None /\ extensible co = true /\
    js_get heap_AB (VObj 3) (KStr "constructor") = Ok (VObj ctor) /\
    own_value co (KStr "constructor") = Some (VObj ctor) /\
    (forall k, k <> KStr "constructor" ->
       own (props co) k = own (props qo) k) /\
    (is_Some (own (props qo) (KStr "constructor")) -> props co = props qo).
Proof.
  apply (clonePrototype_copies_members heap_AB (fst cloned_A_prototype) 3
           (snd cloned_A_prototype)).
  - apply heap_okb_ok. vm_compute. reflexivity.
  - apply refs_okb_ok. vm_compute. reflexivity.
  - vm_compute. lia.
  - vm_compute. reflexivity.
Defined.

(** ** What [clonePrototypeDeep] builds *)

Lemma until_root_Forall (P : loc -> Prop) (c : list loc) :
  Forall P c -> Forall P (until_root c).
Proof.
  induction 1 as [|a c Ha Hc IH]; simpl; [done|].
  destruct (decide (a = ObjectPrototype)); [done | by constructor].
Qed.

Lemma duplicate_of_grows (n : nat) (h0 h h' : heap) (a c : loc) :
  old_ok n h0 -> grows n h0 h -> a < n ->
  duplicate_of h h' a c -> duplicate_of h0 h' a c.
Proof.
  intros Hold Hg Ha (qo & co & ctor & Hqo & Hco & Hsame & Hctor & Hown).
  pose proof Hold as (Hlen & _).
  destruct (lookup_lt_is_Some_2 h0 a ltac:(lia)) as [qo0 Hqo0].
  destruct (proj2 Hg a qo0 Ha Hqo0) as (o' & Ho' & _ & Hprops).
  rewrite Hqo in Ho'. injection Ho' as <-.
  exists qo0, co, ctor. split; [done|]. split; [done|].
  split.
  { intros k Hk Hk'. rewrite (Hsame k Hk Hk').
    destruct Hprops as [->|(f & orig & q & -> & _)]; [done|].
    by apply own_put_ne. }
  split; [|done].
  by rewrite <- (grows_get n h0 h a (KStr "constructor") Hold Hg Ha).
Qed.

Lemma duplicate_of_kept (h h1 h2 : heap) (a c : loc) (o1 o2 : object) :
  h1 !! c = Some o1 -> h2 !! c = Some o2 -> props o2 = props o1 ->
  duplicate_of h h1 a c -> duplicate_of h h2 a c.
Proof.
  intros H1 H2 Hp (qo & co & ctor & Hqo & Hco & Hsame & Hctor & Hown).
  rewrite H1 in Hco. injection Hco as <-.
  exists qo, o2, ctor. unfold own_value in *. rewrite Hp. done.
Qed.

Lemma clonePrototype_duplicate (n : nat) (h h' : heap) (q c : loc) :
  state_ok n h -> q < n -> clonePrototype h (VObj q) = Ok (h', c) ->
  duplicate_of h h' q c.
Proof.
  intros Hst Hq H.
  destruct (clonePrototype_exact _ _ _ _ _ Hst Hq H)
    as (qo & ctor & co & Hqo & Hctor & _ & -> & Hlen & Hco & Hp & He & _
        & Hprops & _).
  exists qo, co, ctor. split; [done|]. split; [done|].
  split; [intros k Hk _; rewrite Hprops; by apply own_put_ne|].
  split; [done|].
  unfold own_value. rewrite Hprops, own_put_eq.
  by destruct (own (props qo) (KStr "constructor")).
Qed.

(** The loop of [clonePrototypeDeep], entered with [last] the newest object
    of the heap and [s] the next prototype to duplicate, whose chain is
    [c]: one duplicate per object of [c] up to [Object.prototype], each
    linked under the one before. *)
Lemma clonePrototypeDeep_loop_mirror (n : nat) (c : list loc) :
  forall (fuel : nat) (h h' : heap) (last tail : loc) (s : option loc),
    state_ok n h -> n <= last -> S last = length h ->
    chain h s c -> Forall (fun x => x < n) c ->
    clonePrototypeDeep_loop fuel h last (of_proto s) = Ok (h', tail) ->
    length h' = length h + length (until_root c) /\
    tail = last + length (until_root c) /\
    (forall l, n <= l -> l < last -> h' !! l = h !! l) /\
    (exists lo lo',
       h !! last = Some lo /\ h' !! last = Some lo' /\
       props lo' = props lo /\
       proto lo' = match until_root c with
                   | [] => proto lo
                   | _ => Some (S last)
                   end) /\
    forall i a, until_root c !! i = Some a ->
      duplicate_of h h' a (S last + i) /\
      exists co, h' !! (S last + i) = Some co /\
        proto co = if decide (S i < length (until_root c))
                   then Some (S last + S i) else None.
Proof.
  assert (Hbase : forall (h : heap) (last : loc),
    S last = length h ->
    length h = length h + 0 /\ last = last + 0 /\
    (forall l, n <= l -> l < last -> h !! l = h !! l) /\
    (exists lo lo',
       h !! last = Some lo /\ h !! last = Some lo' /\
       props lo' = props lo /\ proto lo' = proto lo) /\
    forall i a, @nil loc !! i = Some a ->
      duplicate_of h h a (S last + i) /\
      exists co, h !! (S last + i) = Some co /\
        proto co = if decide (S i < 0) then Some (S last + S i) else None).
  { intros h last Hl. split; [lia|]. split; [lia|]. split; [done|].
    split; [|intros i a Hi; by rewrite lookup_nil in Hi].
    destruct (lookup_lt_is_Some_2 h last ltac:(lia)) as [lo Hlo].
    by exists lo, lo. }
  induction c as [|np c IH]; intros fuel h h' last tail s Hst Hn Hl Hc Hb H.
  - inversion Hc; subst. destruct fuel; simpl in H;
      injection H as <- <-; by apply Hbase.
  - inversion Hc as [|np' npo c' Hnp Hc']; subst.
    apply Forall_cons in Hb as [Hnpn Hb].
    cbn [until_root].
    destruct (decide (np = ObjectPrototype)) as [Hroot|Hroot].
    { destruct fuel; simpl in H;
        (destruct (decide (np = ObjectPrototype)); [|done]);
        injection H as <- <-; by apply Hbase. }
    destruct fuel as [|fuel]; simpl in H;
      (destruct (decide (np = ObjectPrototype)); [done|]); [discriminate|].
    apply bind_ok in H as ([h1 npc] & Hclone & H).
    apply bind_ok in H as (h2 & Hset & H).
    apply bind_ok in H as (next' & Hget & H).
    pose proof Hst as (_ & Hold). pose proof Hold as (Hlen & _).
    destruct (clonePrototype_spec _ _ _ _ _ Hst Hnpn Hclone)
      as (Hst1 & Hg1 & Hk1 & _ & _ & _ & _ & _).
    pose proof (clonePrototype_duplicate _ _ _ _ _ Hst Hnpn Hclone) as Hdup.
    destruct (clonePrototype_exact _ _ _ _ _ Hst Hnpn Hclone)
      as (_ & _ & co & _ & _ & _ & -> & Hlen1 & Hco & Hpco & _ & _ & _
          & Hfresh1).
    simpl in Hset.
    destruct (state_ok_set_proto _ _ _ _ _ Hst1 Hn Hset) as (Hst2 & Hg2 & _).
    destruct (set_proto_effect _ _ _ _ Hset) as (lo1 & Hlo1 & ->).
    assert (Hlo : h !! last = Some lo1)
      by (rewrite <- Hfresh1 by lia; done).
    assert (Hg02 : grows n h (<[last := with_proto lo1 (Some (length h))]> h1))
      by exact (grows_trans n _ _ _ Hold Hg1 Hg2).
    destruct (proj2 Hk1 _ _ Hnp) as (o1 & Ho1 & Hp1).
    unfold object_getPrototypeOf in Hget. cbn [to_loc bind] in Hget.
    assert (Ho2 : <[last := with_proto lo1 (Some (length h))]> h1 !! np
                  = Some o1)
      by (rewrite list_lookup_insert_ne by lia; done).
    rewrite (fetch_some _ _ _ Ho2) in Hget. simpl in Hget.
    rewrite Hp1 in Hget. injection Hget as <-.
    assert (Hc2 : chain (<[last := with_proto lo1 (Some (length h))]> h1)
                    (proto npo) c).
    { destruct (proto npo) as [x|].
      - by apply (grows_chain n h).
      - inversion Hc'; subst. constructor. }
    destruct (IH fuel _ h' (length h) tail (proto npo) Hst2 ltac:(lia)
                ltac:(rewrite length_insert; lia) Hc2 Hb H)
      as (Hlen' & Htail & Hfresh' & (lo2 & lo2' & Hlo2 & Hlo2' & Hpr2 & Hpp2)
          & Hdups).
    rewrite length_insert in Hlen'.
    rewrite list_lookup_insert_ne in Hlo2 by lia.
    rewrite Hco in Hlo2. injection Hlo2 as <-.
    split; [simpl; lia|]. split; [simpl; lia|].
    split.
    { intros l Hl1 Hl2. rewrite Hfresh' by lia.
      rewrite list_lookup_insert_ne by lia. apply Hfresh1; lia. }
    split.
    { exists lo1, (with_proto lo1 (Some (length h))).
      split; [done|]. split; [|split; [done|]].
      - rewrite Hfresh' by lia. apply list_lookup_insert_eq. lia.
      - simpl. f_equal. lia. }
    intros [|i] a Hi; simpl in Hi.
    + injection Hi as <-. rewrite Nat.add_0_r, Hl. split.
      * by apply (duplicate_of_kept h h1 h' np (length h) co lo2').
      * exists lo2'. split; [done|]. rewrite Hpp2, Hpco. simpl.
        destruct (until_root c) as [|x xs]; cbn [length];
          case_decide; try lia; try done. f_equal. lia.
    + destruct (Hdups i a Hi) as (Hd & co' & Hco' & Hpco').
      replace (S last + S i) with (S (length h) + i) by lia.
      split.
      * apply (duplicate_of_grows n h _ h' a _ Hold Hg02); [|done].
        pose proof (until_root_Forall _ _ Hb) as Hb'.
        rewrite Forall_forall in Hb'. apply Hb'.
        by eapply list_elem_of_lookup_2.
      * exists co'. split; [done|]. rewrite Hpco'. cbn [length].
        repeat case_decide; try lia; try done. f_equal. lia.
Qed.

Lemma clonePrototypeDeep_mirror (n : nat) (h h' : heap) (q head tail : loc)
    (c : list loc) :
  state_ok n h -> q < n -> chain h (Some q) (q :: c) ->
  clonePrototypeDeep h (VObj q) = Ok (h', head, tail) ->
  head = length h /\ tail = length h + length (until_root c) /\
  length h' = S (length h + length (until_root c)) /\
  (forall l, n <= l -> l < length h -> h' !! l = h !! l) /\
  forall i a, (q :: until_root c) !! i = Some a ->
    duplicate_of h h' a (length h + i) /\
    exists co, h' !! (length h + i) = Some co /\
      proto co = if decide (S i < S (length (until_root c)))
                 then Some (length h + S i) else None.
Proof.
  intros Hst Hq Hc H. unfold clonePrototypeDeep in H.
  apply bind_ok in H as ([h1 clone] & Hclone & H).
  apply bind_ok in H as (next & Hnext & H).
  apply bind_ok in H as ([h2 last] & Hloop & H).
  injection H as <- <- <-.
  pose proof Hst as (_ & Hold). pose proof Hold as (Hlen & Hch & _).
  destruct (Hch q Hq) as (c0 & Hc0 & Hb).
  rewrite <- (chain_det _ _ _ _ Hc Hc0) in Hb. clear c0 Hc0.
  apply Forall_cons in Hb as [_ Hb].
  inversion Hc as [|? qo ? Hqo Hc']; subst.
  destruct (clonePrototype_spec _ _ _ _ _ Hst Hq Hclone)
    as (Hst1 & Hg1 & Hk1 & _ & _ & _ & _ & _).
  pose proof (clonePrototype_duplicate _ _ _ _ _ Hst Hq Hclone) as Hdup.
  destruct (clonePrototype_exact _ _ _ _ _ Hst Hq Hclone)
    as (_ & _ & co & _ & _ & _ & -> & Hlen1 & Hco & Hpco & _ & _ & _
        & Hfresh1).
  destruct (proj2 Hk1 _ _ Hqo) as (o1 & Ho1 & Hp1).
  unfold object_getPrototypeOf in Hnext. cbn [to_loc bind] in Hnext.
  rewrite (fetch_some _ _ _ Ho1) in Hnext. simpl in Hnext.
  rewrite Hp1 in Hnext. injection Hnext as <-.
  assert (Hc1 : chain h1 (proto qo) c).
  { destruct (proto qo) as [x|].
    - by apply (grows_chain n h).
    - inversion Hc'; subst. constructor. }
  destruct (clonePrototypeDeep_loop_mirror n c _ h1 h2 (length h) last
              (proto qo) Hst1 ltac:(lia) ltac:(lia) Hc1 Hb Hloop)
    as (Hlen' & Htail & Hfresh' & (lo & lo' & Hlo & Hlo' & Hpr & Hpp)
        & Hdups).
  rewrite Hco in Hlo. injection Hlo as <-.
  split; [done|]. split; [done|]. split; [lia|].
  split.
  { intros l Hl1 Hl2. rewrite Hfresh' by lia. apply Hfresh1; lia. }
  intros [|i] a Hi; simpl in Hi.
  - injection Hi as <-. rewrite Nat.add_0_r. split.
    + by apply (duplicate_of_kept h h1 h2 q (length h) co lo').
    + exists lo'. split; [done|]. rewrite Hpp, Hpco.
      destruct (until_root c) as [|x xs]; cbn [length];
        case_decide; try lia; try done. f_equal. lia.
  - destruct (Hdups i a Hi) as (Hd & co' & Hco' & Hpco').
    replace (length h + S i) with (S (length h) + i) by lia.
    split.
    + apply (duplicate_of_grows n h h1 h2 a _ Hold Hg1); [|done].
      pose proof (until_root_Forall _ _ Hb) as Hb'.
      rewrite Forall_forall in Hb'. apply Hb'.
      by eapply list_elem_of_lookup_2.
    + exists co'. split; [done|]. rewrite Hpco'.
      repeat case_decide; try lia; try done. f_equal. lia.
Qed.

(** [clonePrototypeDeep(q)] duplicates [q] and then its ancestors, in
    order, up to [Object.prototype], which it leaves out: the duplicates
    are the new objects of the heap, in that order, each being the
    prototype of the one before; the last has no prototype and is
    [lastPrototype]. *)
Theorem clonePrototypeDeep_mirrors_ancestry (h h' : heap)
    (q head tail : loc) (c : list loc) :
  heap_ok h -> refs_ok h -> chain h (Some q) (q :: c) ->
  clonePrototypeDeep h (VObj q) = Ok (h', head, tail) ->
  head = length h /\ tail = length h + length (until_root c) /\
  length h' = S (length h + length (until_root c)) /\
  forall i a, (q :: until_root c) !! i = Some a ->
    duplicate_of h h' a (length h + i) /\
    exists co, h' !! (length h + i) = Some co /\
      proto co = if decide (S i < S (length (until_root c)))
                 then Some (length h + S i) else None.
Proof.
  intros Hok Hrefs Hc H.
  assert (Hst : state_ok (length h) h)
    by (split; [done | by apply old_ok_start]).
  assert (Hq : q < length h).
  { inversion Hc; subst. by eapply lookup_lt_Some. }
  destruct (clonePrototypeDeep_mirror _ _ _ _ _ _ _ Hst Hq Hc H)
    as (? & ? & ? & _ & ?).
  done.
Qed.

(** [B extends B0]: the ancestry of [B.prototype] is [B.prototype],
    [B0.prototype], and two duplicates are made. *)
Lemma clonePrototypeDeep_mirrors_ancestry_witness :
  snd (fst cloned_B_ancestry) = length (fst classes_ABC) /\
  snd cloned_B_ancestry
    = length (fst classes_ABC) + length (until_root [5; 0]) /\
  length (fst (fst cloned_B_ancestry))
    = S (length (fst classes_ABC) + length (until_root [5; 0])) /\
  forall i a, (7 :: until_root [5; 0]) !! i = Some a ->
    duplicate_of (fst classes_ABC) (fst (fst cloned_B_ancestry)) a
      (length (fst classes_ABC) + i) /\
    exists co,
      fst (fst cloned_B_ancestry) !! (length (fst classes_ABC) + i)
        = Some co /\
      proto co = if decide (S i < S (length (until_root [5; 0])))
                 then Some (length (fst classes_ABC) + S i) else None.
Proof.
  apply (clonePrototypeDeep_mirrors_ancestry (fst classes_ABC)
           (fst (fst cloned_B_ancestry)) 7 (snd (fst cloned_B_ancestry))
           (snd cloned_B_ancestry) [5; 0]).
  - apply heap_okb_ok. vm_compute. reflexivity.
  - apply refs_okb_ok. vm_compute. reflexivity.
  - apply (chain_of_chain _ _ _ 3). vm_compute. reflexivity.
  - vm_compute. reflexivity.
Defined.

(** ** The prototype chain that [Mix] builds *)









(** ** Member lookup on the instances of a composite *)


Lemma js_in_chain (h : heap) (l : loc) (c : list loc) (k : key) :
  chain h (Some l) c ->
  js_in h k (VObj l) = Ok (bool_decide (is_Some (first_own h c k))).
Proof.
  intros Hc. unfold js_in.
  rewrite (find_prop_chain _ _ _ k _ Hc (chain_length _ _ _ Hc)). simpl.
  f_equal. destruct (first_own h c k).
  - by rewrite bool_decide_eq_true_2.
  - rewrite bool_decide_eq_false_2; [done|]. by intros [? ?].
Qed.








(** ** Examples: the classes of the test suite *)







(** ** The constructor of the composite needs a group for every source *)

Lemma mix_each_groups
    (construct : heap -> loc -> list value -> loc -> result (heap * loc))
    (this : loc) (parameters : list value) (rest : list loc) :
  forall (h h' : heap) (index : nat),
    mix_each construct h this rest index parameters = Ok h' ->
    rest = [] \/ index + length rest < length parameters.
Proof.
  induction rest as [|s rest IH]; intros h h' index H; [by left|].
  right. simpl in H.
  apply bind_ok in H as (group & Hgroup & H). apply spread_ok in Hgroup.
  apply lookup_lt_Some in Hgroup.
  apply bind_ok in H as ([h1 tmp] & _ & H).
  apply bind_ok in H as (h2 & _ & H).
  destruct (IH _ _ _ H) as [->|Hlt]; simpl; lia.
Qed.

(** [new Composite(...groups)] returns only when there is a group for every
    source: with fewer groups, spreading the missing one throws. *)
Theorem Mix_constructor_needs_every_group (h hF h2 : heap)
    (srcs : list loc) (create inst : loc) (parameters : list value) :
  heap_ok h -> refs_ok h -> Forall (fun s => s < length h) srcs ->
  2 <= length srcs ->
  Mix h srcs = Ok (hF, create) ->
  construct hF create parameters = Ok (h2, inst) ->
  length srcs <= length parameters.
Proof.
  intros Hok Hrefs Hlt Hlen HMix Hnew.
  destruct srcs as [|first [|second rest]]; simpl in Hlen; try lia.
  destruct (Mix_spec _ _ _ _ _ _ Hok Hrefs Hlt HMix)
    as (_ & _ & _ & hS & cp & head & co & coS & po & _ & _ & _ & _ & _ & _
        & -> & Hco & Hproto & Hbeh & _).
  unfold construct, construct_as in Hnew.
  destruct (length hF) as [|m] eqn:Elen.
  { apply lookup_lt_Some in Hco. lia. }
  simpl in Hnew. rewrite (fetch_some _ _ _ Hco) in Hnew. simpl in Hnew.
  rewrite Hbeh, Hproto in Hnew.
  apply bind_ok in Hnew as (group & Hgroup & Hnew).
  apply bind_ok in Hnew as ([h1 this] & Hsuper & Hnew).
  apply bind_ok in Hnew as (h2' & Heach & Hnew).
  cbn [tail] in Heach.
  destruct (mix_each_groups (construct_fuel m) this parameters
              (second :: rest) h1 h2' 0 Heach) as [?|Hlt']; [done|].
  simpl in *. lia.
Qed.

(** The instance of [Mix(A, B)] was built from two groups. *)
Lemma Mix_constructor_needs_every_group_witness :
  length [class_A; class_B] <= length parameters_xy.
Proof.
  apply (Mix_constructor_needs_every_group heap_AB (fst mixed_AB)
           (fst instance_AB) [class_A; class_B] (snd mixed_AB)
           (snd instance_AB) parameters_xy).
  - apply heap_okb_ok. vm_compute. reflexivity.
  - apply refs_okb_ok. vm_compute. reflexivity.
  - repeat constructor; vm_compute; lia.
  - simpl. lia.
  - vm_compute. reflexivity.
  - vm_compute. reflexivity.
Defined.

(** ** Statics that collide with the read-only properties of a class *)

Lemma assign_keys_writable (t s : loc) (so : object) (k : key)
    (p : property) (keys : list key) :
  forall (h h' : heap) (o : object),
    s <> t -> h !! s = Some so -> h !! t = Some o ->
    own (props o) k = Some p -> p_writable p = false ->
    assign_keys h t s keys = Ok h' -> k ∈ keys ->
    enumerable_own so k = None.
Proof.
  induction keys as [|k' keys IH];
    intros h h' o Hne Hso Ho Hown Hw H Hin; [by apply elem_of_nil in Hin|].
  simpl in H. rewrite (fetch_some _ _ _ Hso) in H. simpl in H.
  unfold enumerable_own.
  destruct (decide (k' = k)) as [->|Hkk].
  - destruct (own (props so) k) as [q|] eqn:Hq; [|done].
    destruct (p_enumerable q) eqn:He; [|done].
    apply bind_ok in H as (h1 & Hset & _).
    destruct (js_set_effect _ _ _ _ _ Hset) as (o0 & ps & Ho0 & _ & _ & _ & Hwr).
    rewrite Ho in Ho0. injection Ho0 as <-.
    rewrite (Hwr p Hown) in Hw. discriminate.
  - apply elem_of_cons in Hin as [->|Hin]; [done|].
    assert (Hstep : forall h1 o1,
              h1 !! s = Some so -> h1 !! t = Some o1 ->
              own (props o1) k = Some p ->
              assign_keys h1 t s keys = Ok h' ->
              match own (props so) k with
              | Some q => if p_enumerable q then Some (p_value q) else None
              | None => None
              end = None).
    { intros h1 o1 Hso1 Ho1 Hown1 H1.
      exact (IH h1 h' o1 Hne Hso1 Ho1 Hown1 Hw H1 Hin). }
    destruct (own (props so) k') as [q|] eqn:Hq; [|by eapply Hstep].
    destruct (p_enumerable q); [|by eapply Hstep].
    apply bind_ok in H as (h1 & Hset & H).
    destruct (js_set_effect _ _ _ _ _ Hset)
      as (o0 & ps & Ho0 & -> & _ & Hothers & _).
    rewrite Ho in Ho0. injection Ho0 as <-.
    pose proof (lookup_lt_Some _ _ _ Ho) as Hlt.
    eapply (Hstep _ (with_props o ps)); [| |simpl|exact H].
    + by rewrite list_lookup_insert_ne.
    + by apply list_lookup_insert_eq.
    + rewrite Hothers by done. exact Hown.
Qed.

Lemma Mix_statics_writable (create : loc) (k : key) (p : property)
    (srcs : list loc) :
  forall (h h' : heap) (o : object),
    create ∉ srcs -> h !! create = Some o ->
    own (props o) k = Some p -> p_writable p = false ->
    Mix_statics h create srcs = Ok h' ->
    forall s so, s ∈ srcs -> h !! s = Some so -> enumerable_own so k = None.
Proof.
  induction srcs as [|s0 srcs IH];
    intros h h' o Hnin Ho Hown Hw H s so Hs Hso;
    [by apply elem_of_nil in Hs|].
  simpl in H. apply bind_ok in H as (h1 & Hassign & H).
  apply not_elem_of_cons in Hnin as [Hne Hnin].
  destruct (object_assign_effect _ _ _ _ (not_eq_sym Hne) Hassign)
    as (o0 & o' & so0 & Ho0 & Hso0 & -> & _ & Hro & _).
  rewrite Ho in Ho0. injection Ho0 as <-.
  pose proof (lookup_lt_Some _ _ _ Ho) as Hlt.
  apply elem_of_cons in Hs as [->|Hs].
  - rewrite Hso in Hso0. injection Hso0 as <-.
    unfold object_assign in Hassign.
    rewrite (fetch_some _ _ _ Ho), (fetch_some _ _ _ Hso) in Hassign.
    simpl in Hassign.
    destruct (own (props so) k) as [q|] eqn:Hq;
      [|unfold enumerable_own; by rewrite Hq].
    eapply (assign_keys_writable create s0 so k p _ h _ o);
      [by apply not_eq_sym |done..|].
    apply own_keys. by rewrite Hq.
  - eapply (IH _ h' o'); [done| | |done|exact H|done|].
    + by apply list_lookup_insert_eq.
    + by apply Hro.
    + rewrite list_lookup_insert_ne; [done|].
      intros <-. done.
Qed.

(** The composite has its own read-only [name], [length] and [prototype]:
    when a source has an enumerable static of one of these names,
    [Object.assign] fails on it and [Mix] throws instead of returning. *)
Theorem Mix_rejects_static_named_as_builtin (h : heap) (srcs : list loc)
    (s : loc) (so : object) (k : key) (v : value) :
  heap_ok h -> refs_ok h -> Forall (fun s => s < length h) srcs ->
  2 <= length srcs ->
  s ∈ srcs -> h !! s = Some so -> enumerable_own so k = Some v ->
  k = KStr "name" \/ k = KStr "length" \/ k = KStr "prototype" ->
  exists e, Mix h srcs = Fail e /\ e <> OutOfFuel /\ e <> BadRef.
Proof.
  intros Hok Hrefs Hlt Hlen Hs Hso Hen Hk.
  destruct (Mix h srcs) as [[hF create]|e] eqn:HMix.
  2:{ exists e. split; [done|].
      by apply (Mix_genuine h srcs Hok Hrefs Hlt). }
  exfalso.
  destruct srcs as [|first [|second rest]]; simpl in Hlen; try lia.
  set (srcs := first :: second :: rest) in *.
  pose proof (old_ok_start _ Hok Hrefs) as Hold.
  destruct (Mix_spec _ _ _ _ _ _ Hok Hrefs Hlt HMix)
    as (_ & _ & _ & hS & cp & head & co & coS & po & _ & HgS & Hstat & HcoS
        & Hprops & Hncp & -> & _).
  assert (Hnin : S cp ∉ srcs).
  { intros Hin. rewrite Forall_forall in Hlt. specialize (Hlt _ Hin). lia. }
  rewrite Forall_forall in Hlt. pose proof (Hlt s Hs) as Hsn.
  destruct (proj2 HgS s so Hsn Hso) as (so' & Hso' & _ & Hps).
  assert (Hkh : k <> hasInstanceKey) by (destruct Hk as [->|[->| ->]]; done).
  assert (Hen' : enumerable_own so' k = Some v).
  { unfold enumerable_own in *.
    destruct Hps as [->|(f & orig & q & -> & _)]; [done|].
    by rewrite own_put_ne. }
  assert (Hp : exists p, own (props coS) k = Some p /\ p_writable p = false).
  { rewrite Hprops. destruct Hk as [->|[->| ->]]; eexists; split;
      reflexivity. }
  destruct Hp as (p & Hp & Hw).
  pose proof (Mix_statics_writable (S cp) k p srcs hS hF coS Hnin HcoS Hp Hw
                Hstat s so' Hs Hso') as Hnone.
  congruence.
Qed.

(** [Mix(A, N)] throws when [N] has [static name = "n"]. *)
Lemma Mix_rejects_static_named_as_builtin_witness :
  exists e,
    Mix (fst class_with_static_name) [class_A; snd class_with_static_name]
      = Fail e /\ e <> OutOfFuel /\ e <> BadRef.
Proof.
  eapply (Mix_rejects_static_named_as_builtin (fst class_with_static_name)
            [class_A; snd class_with_static_name]
            (snd class_with_static_name) _ (KStr "name") (VStr "n")).
  - apply heap_okb_ok. vm_compute. reflexivity.
  - apply refs_okb_ok. vm_compute. reflexivity.
  - repeat constructor; vm_compute; lia.
  - simpl. lia.
  - apply elem_of_cons. right. apply elem_of_cons. by left.
  - vm_compute. reflexivity.
  - vm_compute. reflexivity.
  - by left.
Defined.

(** ** The [mixOf] static of the composite *)

(** The composite is defined with [static [mixOf] = constructors], and the
    statics of the sources are assigned afterwards: [Composite[mixOf]] is the
    list of the sources, unless a source has an enumerable [mixOf] of its
    own, as a composite has; then it is the list of the last such source. *)
Theorem Mix_mixOf_is_overwritten_by_sources (h hF : heap) (srcs : list loc)
    (create : loc) :
  heap_ok h -> refs_ok h -> Forall (fun s => s < length h) srcs ->
  2 <= length srcs ->
  Mix h srcs = Ok (hF, create) ->
  exists co,
    hF !! create = Some co /\
    own_value co mixOf =
      Some (match last_static h srcs mixOf with
            | Some v => v
            | None => VArr (map VObj srcs)
            end).
Proof.
  intros Hok Hrefs Hlt Hlen HMix.
  destruct srcs as [|first [|second rest]]; simpl in Hlen; try lia.
  set (srcs := first :: second :: rest) in *.
  destruct (Mix_spec _ _ _ _ _ _ Hok Hrefs Hlt HMix)
    as (_ & _ & _ & hS & cp & head & co & coS & po & HstS & HgS & Hstat
        & HcoS & Hprops & Hncp & -> & Hco & _).
  destruct (Mix_statics_spec (length h) (S cp) srcs hS hF coS HstS
              ltac:(lia) Hlt HcoS Hstat)
    as (_ & _ & _ & _ & co' & Hco' & _ & _ & Hval).
  rewrite Hco in Hco'. injection Hco' as <-.
  exists co. split; [done|]. rewrite Hval.
  rewrite (last_static_grows (length h) h hS srcs mixOf HgS Hlt) by done.
  destruct (last_static h srcs mixOf); [done|].
  unfold own_value. by rewrite Hprops.
Qed.

(** [Mix(Mix(A, B), A)[mixOf]] is [[A, B]], the list of the inner
    composite. *)
Lemma Mix_mixOf_is_overwritten_by_sources_witness :
  exists co,
    fst mixed_AB_A !! snd mixed_AB_A = Some co /\
    own_value co mixOf = Some (VArr [VObj class_A; VObj class_B]).
Proof.
  apply (Mix_mixOf_is_overwritten_by_sources (fst mixed_AB) (fst mixed_AB_A)
           [snd mixed_AB; class_A] (snd mixed_AB_A)).
  - apply heap_okb_ok. vm_compute. reflexivity.
  - apply refs_okb_ok. vm_compute. reflexivity.
  - repeat constructor; vm_compute; lia.
  - simpl. lia.
  - vm_compute. reflexivity.
Defined.

(** ** Classes that extend a composite *)





(** ** The instances of a composite and the composite itself *)




(** ** What [Mix] asks of its sources *)



(** ** [Mix] of no source *)

(** [Mix()] evaluates [class {}]: it allocates a new prototype object and a
    new constructor, touches nothing else, and the instances of the class
    are empty objects that inherit from that prototype. *)
Theorem Mix_of_no_source (h : heap) (args : list value) :
  exists po co,
    Mix h [] = Ok (h ++ [po; co], S (length h)) /\
    proto po = Some ObjectPrototype /\
    props po = [(KStr "constructor", hidden (VObj (S (length h))))] /\
    construct (h ++ [po; co]) (S (length h)) args
      = Ok (h ++ [po; co; mkObject (Some (length h)) [] true Ordinary],
            S (S (length h))).
Proof.
  eexists _, _. split; [reflexivity|]. split; [reflexivity|].
  split; [reflexivity|].
  unfold construct, construct_as.
  set (po := mkObject _ _ _ _). set (co := mkObject _ _ _ _).
  assert (Hco : (h ++ [po; co]) !! S (length h) = Some co).
  { rewrite lookup_app_r by lia.
    by replace (S (length h) - length h) with 1 by lia. }
  assert (Hlen : length (h ++ [po; co]) = S (S (length h)))
    by (rewrite length_app; simpl; lia).
  rewrite Hlen. cbn [construct_fuel].
  rewrite (fetch_some _ _ _ Hco). cbn [bind construct_of co].
  rewrite (js_get_own _ _ co (KStr "prototype")
             (mkProperty (VObj (length h)) false false false) Hco eq_refl).
  cbn [bind p_value alloc]. unfold define_fields.
  assert (Hnew : ((h ++ [po; co]) ++
                  [mkObject (Some (length h)) [] true Ordinary])
                 !! length (h ++ [po; co])
                 = Some (mkObject (Some (length h)) [] true Ordinary)).
  { rewrite lookup_app_r by lia. by rewrite Nat.sub_diag. }
  rewrite (fetch_some _ _ _ Hnew). cbn [bind define_all].
  rewrite insert_last. rewrite <- app_assoc. simpl. by rewrite Hlen.
Qed.

(** ** What [reuse] changes *)

(** A call of [reuse] that returns changes nothing but the container, and
    of the container nothing but the slot: the other objects, the
    prototype, the extensibility and the other properties of the container
    are as before. *)
Theorem reuse_changes_only_the_slot (h h' : heap) (container : loc)
    (val r : value) :
  reuse h (VObj container) val = Ok (h', r) ->
  length h' = length h /\
  (forall l, l <> container -> h' !! l = h !! l) /\
  exists o o',
    h !! container = Some o /\ h' !! container = Some o' /\
    same_shape o o' /\
    forall k, k <> reuseSymbol -> own (props o') k = own (props o) k.
Proof.
  intros H. unfold reuse in H.
  apply bind_ok in H as (present & Hin & H).
  assert (Ho : exists o, h !! container = Some o).
  { simpl in Hin. apply bind_ok in Hin as (p & Hp & _).
    destruct (length h) eqn:E; [discriminate|]. simpl in Hp.
    apply bind_ok in Hp as (o & Ho & _). apply fetch_ok in Ho. eauto. }
  destruct Ho as [o Ho]. destruct present.
  - apply bind_ok in H as (stored & _ & H). injection H as <- _.
    split; [done|]. split; [done|]. exists o, o.
    split; [done|]. split; [done|]. split; [apply same_shape_refl | done].
  - apply bind_ok in H as (h1 & Hdef & H). injection H as <- _.
    apply defineProperty_shape in Hdef as (lo & lo' & Hlo & Hdef & ->).
    rewrite Ho in Hlo. injection Hlo as <-.
    split; [by rewrite length_insert|].
    split; [intros l Hl; by rewrite list_lookup_insert_ne|].
    exists o, lo'. split; [done|].
    split; [apply list_lookup_insert_eq; by eapply lookup_lt_Some|].
    apply define_own_shape in Hdef as [->| ->].
    + split; [apply same_shape_refl | done].
    + split; [done|]. intros k Hk. simpl. by rewrite own_put_ne.
Qed.



(** The first call on the parent container of the example. *)
Lemma reuse_changes_only_the_slot_witness :
  length containers_after_parent = length containers /\
  (forall l, l <> parent_container ->
     containers_after_parent !! l = containers !! l) /\
  exists o o',
    containers !! parent_container = Some o /\
    containers_after_parent !! parent_container = Some o' /\
    same_shape o o' /\
    forall k, k <> reuseSymbol -> own (props o') k = own (props o) k.
Proof.
  apply (reuse_changes_only_the_slot containers containers_after_parent
           parent_container (VStr "a") (VStr "a")).
  vm_compute. reflexivity.
Defined.

(** ** Containers that inherit from a container *)

Lemma first_own_None (h : heap) (s : option loc) (c : list loc) (k : key) :
  chain h s c -> first_own h c k = None ->
  forall l o, l ∈ c -> h !! l = Some o -> own (props o) k = None.
Proof.
  induction 1 as [|l0 o0 c Hl0 Hc IH]; intros Hnone l o Hl Ho.
  - by apply elem_of_nil in Hl.
  - rewrite (first_own_cons _ _ _ _ _ Hl0) in Hnone.
    destruct (own (props o0) k) eqn:E; [discriminate|].
    apply elem_of_cons in Hl as [->|Hl]; [|exact (IH Hnone l o Hl Ho)].
    rewrite Hl0 in Ho. by injection Ho as <-.
Qed.

Lemma first_own_all_None (h : heap) (c : list loc) (k : key) :
  (forall l o, l ∈ c -> h !! l = Some o -> own (props o) k = None) ->
  first_own h c k = None.
Proof.
  induction c as [|l c IH]; intros H; [done|]. simpl.
  destruct (h !! l) as [o|] eqn:Hl; [|done].
  rewrite (H l o (proj2 (elem_of_cons _ _ _) (or_introl eq_refl)) Hl).
  apply IH. intros l' o' Hl' Ho'. apply (H l' o'); [|done].
  apply elem_of_cons. by right.
Qed.

Lemma first_own_insert (h : heap) (t : loc) (o o' : object) (k : key)
    (p : property) (s : option loc) (c : list loc) :
  h !! t = Some o -> proto o' = proto o -> own (props o') k = Some p ->
  chain h s c -> first_own h c k = None -> t ∈ c ->
  first_own (<[t := o']> h) c k = Some p.
Proof.
  intros Ht Hp Hown. induction 1 as [|l0 o0 c Hl0 Hc IH]; intros Hnone Hin.
  - by apply elem_of_nil in Hin.
  - rewrite (first_own_cons _ _ _ _ _ Hl0) in Hnone.
    destruct (own (props o0) k) eqn:E; [discriminate|].
    pose proof (lookup_lt_Some _ _ _ Ht) as Hlt.
    destruct (decide (l0 = t)) as [->|Hne].
    + rewrite (first_own_cons _ _ _ _ o'), Hown; [done|].
      by apply list_lookup_insert_eq.
    + rewrite (first_own_cons _ _ _ _ o0), E;
        [|by rewrite list_lookup_insert_ne].
      apply elem_of_cons in Hin as [->|Hin]; [done|]. by apply IH.
Qed.

(** The guard of [reuse] is [reuseSymbol in container], which follows the
    prototype chain: once a value is stored for a container, every object
    that inherits from it, and had no slot in sight, answers with that
    value and stores nothing. *)
Theorem reuse_is_inherited (h : heap) (parent child : loc) (o : object)
    (valueA : value) :
  heap_ok h -> h !! parent = Some o -> extensible o = true ->
  rtc (edge h) child parent ->
  js_in h reuseSymbol (VObj child) = Ok false ->
  exists h1,
    reuse h (VObj parent) valueA = Ok (h1, valueA) /\
    forall valueB, reuse h1 (VObj child) valueB = Ok (h1, valueA).
Proof.
  intros Hok Ho Hext Hpath Hin.
  assert (Hchild : child < length h).
  { destruct Hpath as [|? ? ? Hedge _]; [by eapply lookup_lt_Some|].
    by eapply edge_lt. }
  destruct (heap_ok_chain _ _ Hok Hchild) as [cs Hcs].
  pose proof (rtc_edge_chain _ _ _ _ Hcs Hpath) as Hpin.
  rewrite (js_in_chain _ _ _ _ Hcs) in Hin. injection Hin as Hin.
  apply bool_decide_eq_false in Hin.
  assert (Hnone : first_own h cs reuseSymbol = None).
  { destruct (first_own h cs reuseSymbol) eqn:E; [|done].
    exfalso. apply Hin. eauto. }
  pose proof (first_own_None _ _ _ _ Hcs Hnone parent o Hpin Ho) as Hown.
  set (slot := mkProperty valueA false false false).
  set (o' := with_props o (put (props o) reuseSymbol slot)).
  pose proof (lookup_lt_Some _ _ _ Ho) as Hplt.
  destruct (chain_split _ _ _ _ Hcs Hpin) as (c1 & c2 & Hsplit & Hc2).
  assert (Hinp : js_in h reuseSymbol (VObj parent) = Ok false).
  { rewrite (js_in_chain _ _ _ _ Hc2). f_equal.
    apply bool_decide_eq_false_2. intros [x Hx].
    rewrite first_own_all_None in Hx; [done|].
    intros l lo Hl Hlo.
    apply (first_own_None _ _ _ _ Hcs Hnone l lo); [|done].
    rewrite Hsplit. apply elem_of_app. by right. }
  exists (<[parent := o']> h). split.
  - unfold reuse. rewrite Hinp. simpl. rewrite (fetch_some _ _ _ Ho). simpl.
    unfold define_own. by rewrite Hown, Hext.
  - intros valueB.
    assert (Hcs' : chain (<[parent := o']> h) (Some child) cs).
    { eapply chain_frame; [exact Hcs|]. intros l lo _ Hlo.
      destruct (decide (l = parent)) as [->|Hne].
      - rewrite Ho in Hlo. injection Hlo as <-. exists o'.
        split; [by apply list_lookup_insert_eq | done].
      - exists lo. by rewrite list_lookup_insert_ne. }
    assert (Hfirst : first_own (<[parent := o']> h) cs reuseSymbol
                     = Some slot).
    { apply (first_own_insert h parent o o' reuseSymbol slot (Some child));
        try done. apply own_put_eq. }
    unfold reuse. rewrite (js_in_chain _ _ _ _ Hcs'), Hfirst.
    rewrite bool_decide_eq_true_2 by eauto. cbn [bind].
    by rewrite (js_get_chain _ _ _ reuseSymbol Hcs'), Hfirst.
Qed.

(** The child container of the example inherits from the parent. *)
Lemma reuse_is_inherited_witness :
  exists h1,
    reuse containers (VObj parent_container) (VStr "a")
      = Ok (h1, VStr "a") /\
    forall valueB,
      reuse h1 (VObj child_container) valueB = Ok (h1, VStr "a").
Proof.
  apply (reuse_is_inherited containers parent_container child_container
           (mkObject (Some ObjectPrototype) [] true Ordinary) (VStr "a")).
  - apply heap_okb_ok. vm_compute. reflexivity.
  - reflexivity.
  - reflexivity.
  - apply rtc_once. eexists. split; reflexivity.
  - vm_compute. reflexivity.
Defined.

(** ** Containers that do not inherit from each other *)

Lemma first_own_frame (h h' : heap) (c : list loc) (k : key) :
  (forall l, l ∈ c -> h' !! l = h !! l) ->
  first_own h' c k = first_own h c k.
Proof.
  induction c as [|l c IH]; intros H; [done|]. simpl.
  rewrite (H l) by (apply elem_of_cons; by left).
  rewrite IH; [done|]. intros l' Hl'. apply H. apply elem_of_cons. by right.
Qed.

Lemma reuse_frame (h h' : heap) (container : loc) (val r : value) :
  reuse h (VObj container) val = Ok (h', r) ->
  length h' = length h /\ forall l, l <> container -> h' !! l = h !! l.
Proof.
  intros H. unfold reuse in H.
  apply bind_ok in H as (present & _ & H). destruct present.
  - apply bind_ok in H as (stored & _ & H). by injection H as <- _.
  - apply bind_ok in H as (h1 & Hdef & H). injection H as <- _.
    apply defineProperty_shape in Hdef as (lo & lo' & _ & _ & ->).
    split; [by rewrite length_insert|].
    intros l Hl. by rewrite list_lookup_insert_ne.
Qed.

(** A call of [reuse] on a container [a] does not change what [reuse]
    answers for a container [b] that does not inherit from [a]. *)
Theorem reuse_containers_are_independent (h h1 h2 : heap) (a b : loc)
    (cb : list loc) (va ra vb r : value) :
  chain h (Some b) cb -> a ∉ cb ->
  reuse h (VObj a) va = Ok (h1, ra) ->
  reuse h (VObj b) vb = Ok (h2, r) ->
  exists h2',
    reuse h1 (VObj b) vb = Ok (h2', r) /\
    forall l, l <> a -> h2' !! l = h2 !! l.
Proof.
  intros Hcb Hna Ha Hb.
  destruct (reuse_frame _ _ _ _ _ Ha) as (Hlen & Hsame).
  assert (Hcb1 : chain h1 (Some b) cb).
  { eapply chain_frame; [exact Hcb|]. intros l lo Hl Hlo. exists lo.
    split; [|done]. rewrite Hsame; [done|]. by intros ->. }
  assert (Hfirst : first_own h1 cb reuseSymbol = first_own h cb reuseSymbol).
  { apply first_own_frame. intros l Hl. apply Hsame. by intros ->. }
  assert (Hba : b <> a).
  { intros ->. apply Hna. inversion Hcb; subst. apply elem_of_cons. by left. }
  unfold reuse in *.
  rewrite (js_in_chain _ _ _ _ Hcb) in Hb.
  rewrite (js_in_chain _ _ _ _ Hcb1), Hfirst.
  cbn [bind] in *.
  destruct (bool_decide (is_Some (first_own h cb reuseSymbol))).
  - rewrite (js_get_chain _ _ _ reuseSymbol Hcb) in Hb.
    rewrite (js_get_chain _ _ _ reuseSymbol Hcb1), Hfirst.
    cbn [bind] in *. injection Hb as <- <-. exists h1. split; [done|].
    exact Hsame.
  - apply bind_ok in Hb as (hb & Hdef & Hb). injection Hb as <- <-.
    apply defineProperty_shape in Hdef as (o & o' & Ho & Hdef & ->).
    cbn [object_defineProperty].
    rewrite <- (Hsame b Hba) in Ho. rewrite (fetch_some _ _ _ Ho).
    cbn [bind]. rewrite Hdef. cbn [bind].
    exists (<[b := o']> h1). split; [done|].
    intros l Hl. destruct (decide (l = b)) as [->|Hne].
    + rewrite !list_lookup_insert_eq; [done | |].
      * rewrite <- Hlen. by eapply lookup_lt_Some.
      * by eapply lookup_lt_Some.
    + rewrite !list_lookup_insert_ne by done. by apply Hsame.
Qed.

(** The parent container of the example does not inherit from its
    child. *)
Lemma reuse_containers_are_independent_witness :
  exists h2',
    reuse
      (fst (run (reuse containers (VObj child_container) (VStr "a"))
              ([], VUndef)))
      (VObj parent_container) (VStr "b") = Ok (h2', VStr "b") /\
    forall l, l <> child_container ->
      h2' !! l
      = fst (run (reuse containers (VObj parent_container) (VStr "b"))
               ([], VUndef)) !! l.
Proof.
  apply (reuse_containers_are_independent containers _ _ child_container
           parent_container [3; 0] (VStr "a") (VStr "a") (VStr "b")
           (VStr "b")).
  - apply (chain_of_chain _ _ _ 3). vm_compute. reflexivity.
  - unfold child_container. intros Hin.
    repeat (apply elem_of_cons in Hin as [Hin|Hin]; [discriminate|]).
    by apply elem_of_nil in Hin.
  - vm_compute. reflexivity.
  - vm_compute. reflexivity.
Defined.

(** ** [Mix] ends *)

(** On a well-formed heap [Mix] either returns or throws as the program
    does: the walks along the prototype chains end, so the fuel of the model
    never runs out, and no reference leaves the heap. *)
Theorem Mix_fuel_suffices (h : heap) (srcs : list loc) (e : error) :
  heap_ok h -> refs_ok h -> Forall (fun s => s < length h) srcs ->
  Mix h srcs = Fail e -> e = TypeError \/ e = Unsupported.
Proof.
  intros Hok Hrefs Hlt H.
  destruct (Mix_genuine h srcs Hok Hrefs Hlt e H) as [H1 H2].
  destruct e; auto; done.
Qed.

(** [Mix(A, N)], where [N] has [static name], throws a TypeError. *)
Lemma Mix_fuel_suffices_witness :
  Mix (fst class_with_static_name) [class_A; snd class_with_static_name]
    = Fail TypeError /\
  (TypeError = TypeError \/ TypeError = Unsupported).
Proof.
  assert (H : Mix (fst class_with_static_name)
                [class_A; snd class_with_static_name] = Fail TypeError)
    by (vm_compute; reflexivity).
  split; [exact H|].
  apply (Mix_fuel_suffices (fst class_with_static_name)
           [class_A; snd class_with_static_name] TypeError).
  - apply heap_okb_ok. vm_compute. reflexivity.
  - apply refs_okb_ok. vm_compute. reflexivity.
  - repeat constructor; vm_compute; lia.
  - exact H.
Defined.

(** ** The fields of an instance of a composite *)






(** ** Sealed sources *)

Lemma define_own_sealed (o : object) (k : key) (d : property) :
  sealed o -> p_configurable d = true -> define_own o k d = None.
Proof.
  intros [Hext Hconf] Hd. unfold define_own.
  destruct (own (props o) k) as [cur|] eqn:E.
  - by rewrite (Hconf _ _ E), Hd.
  - by rewrite Hext.
Qed.

Section Sealed.
Variables (n : nat) (s : loc) (so : object).
Hypothesis Hs : s < n.
Hypothesis Hsealed : sealed so.

(** [clonePrototype] defines [Symbol.hasInstance] on the constructor of the
    object it duplicates: it does not return when that is sealed. *)
Lemma clonePrototype_sealed (h h' : heap) (q c : loc) :
  state_ok n h -> q < n -> h !! s = Some so ->
  clonePrototype h (VObj q) = Ok (h', c) ->
  h' !! s = Some so /\
  js_get h (VObj q) (KStr "constructor") <> Ok (VObj s).
Proof.
  intros (Hok & Hold) Hq Hso H. pose proof Hold as (Hlen & _).
  destruct (clonePrototype_shape _ _ _ _ _ (conj Hok Hold) Hq H)
    as (qo & ctor & co & orig & p & Hqo & Hctor & Hcn & Hco & _ & -> & Hh').
  assert (Hne : ctor <> s).
  { intros ->. rewrite Hso in Hco. injection Hco as <-.
    unfold clonePrototype, object_getOwnPropertyDescriptors in H.
    simpl in H. rewrite (fetch_some _ _ _ Hqo) in H. simpl in H.
    rewrite js_get_app in H by (done || lia). rewrite Hctor in H.
    simpl in H. apply bind_ok in H as (h2 & Hset & H).
    apply js_set_shape in Hset as (o0 & p0 & Ho0 & _ & ->).
    rewrite lookup_app_r in Ho0 by lia. rewrite Nat.sub_diag in Ho0.
    injection Ho0 as <-. rewrite insert_last in H.
    rewrite js_get_app in H by (done || lia). rewrite Hctor in H.
    simpl in H. apply bind_ok in H as (orig' & _ & H).
    apply bind_ok in H as (h3 & Hdef & _).
    apply defineProperty_shape in Hdef as (co3 & co3' & Hco3 & Hdef & _).
    rewrite lookup_app_l in Hco3 by lia. rewrite Hso in Hco3.
    injection Hco3 as <-.
    rewrite define_own_sealed in Hdef;
      [discriminate | exact Hsealed | reflexivity]. }
  split.
  - rewrite Hh'. rewrite list_lookup_insert_ne by done.
    by apply lookup_app_l_Some.
  - rewrite Hctor. by intros [= ->].
Qed.

Lemma clonePrototypeDeep_loop_sealed (fuel : nat) :
  forall (h h' : heap) (last tail : loc) (next : value),
    state_ok n h -> n <= last -> last < length h ->
    (forall np, next = VObj np -> np < n) ->
    h !! s = Some so ->
    clonePrototypeDeep_loop fuel h last next = Ok (h', tail) ->
    h' !! s = Some so.
Proof.
  induction fuel as [|fuel IH];
    intros h h' last tail next Hst Hn Hl Hnext Hso H.
  - destruct next as [| | | | |np| |]; simpl in H; try discriminate;
      try (by injection H as <- <-).
    destruct (decide (np = ObjectPrototype)); [|discriminate].
    by injection H as <- <-.
  - destruct next as [| | | | |np| |]; simpl in H; try discriminate;
      try (by injection H as <- <-).
    destruct (decide (np = ObjectPrototype)); [by injection H as <- <-|].
    specialize (Hnext np eq_refl).
    apply bind_ok in H as ([h1 npc] & Hclone & H).
    apply bind_ok in H as (h2 & Hset & H).
    apply bind_ok in H as (next' & Hget & H).
    destruct (clonePrototype_spec _ _ _ _ _ Hst Hnext Hclone)
      as (Hst1 & _ & _ & _ & -> & Hlen1 & _ & _).
    destruct (clonePrototype_sealed _ _ _ _ Hst Hnext Hso Hclone)
      as (Hso1 & _).
    simpl in Hset.
    destruct (state_ok_set_proto _ _ _ _ _ Hst1 Hn Hset) as (Hst2 & _ & _).
    destruct (set_proto_kept _ _ _ _ Hset) as (Hlen2 & Hother & _).
    apply (IH h2 h' (length h) tail next' Hst2); try lia; [| |exact H].
    + intros x ->. eapply getPrototypeOf_old; [apply Hst2| |exact Hget]. done.
    + rewrite Hother by lia. done.
Qed.

Lemma clonePrototypeDeep_sealed (h h' : heap) (q head tail : loc) :
  state_ok n h -> q < n -> h !! s = Some so ->
  clonePrototypeDeep h (VObj q) = Ok (h', head, tail) ->
  h' !! s = Some so /\
  js_get h (VObj q) (KStr "constructor") <> Ok (VObj s).
Proof.
  intros Hst Hq Hso H. unfold clonePrototypeDeep in H.
  apply bind_ok in H as ([h1 clone] & Hclone & H).
  apply bind_ok in H as (next & Hnext & H).
  apply bind_ok in H as ([h2 last] & Hloop & H).
  injection H as <- <- <-.
  destruct (clonePrototype_spec _ _ _ _ _ Hst Hq Hclone)
    as (Hst1 & _ & _ & _ & -> & Hlen1 & _ & _).
  destruct (clonePrototype_sealed _ _ _ _ Hst Hq Hso Hclone) as (Hso1 & Hne).
  pose proof Hst as (_ & Hold). pose proof Hold as (Hlen & _).
  split; [|done].
  apply (clonePrototypeDeep_loop_sealed (length h1) h1 h2 (length h) last
           next Hst1); try lia; [|done|done].
  intros x ->. eapply getPrototypeOf_old; [apply Hst1| |exact Hnext]. done.
Qed.

Lemma Mix_link_sealed (rest : list loc) :
  forall (h h' : heap) (last : loc) (v' : value),
    state_ok n h -> Forall (fun x => x < n) rest ->
    n <= last -> last < length h -> h !! s = Some so ->
    Mix_link h (VObj last) rest = Ok (h', v') ->
    forall x p, x ∈ rest ->
      js_get h (VObj x) (KStr "prototype") = Ok (VObj p) ->
      js_get h (VObj p) (KStr "constructor") <> Ok (VObj s).
Proof.
  induction rest as [|x0 rest IH];
    intros h h' last v' Hst Hlt Hn Hl Hso H x p Hx Hp;
    [by apply elem_of_nil in Hx|].
  simpl in H. apply Forall_cons in Hlt as [Hx0 Hlt].
  pose proof Hst as (_ & Hold). pose proof Hold as (Hlen & _).
  apply bind_ok in H as (nextPrototype & Hps & H).
  apply bind_ok in H as ([[h1 pr] tl] & Hdeep & H).
  destruct (clonePrototypeDeep_object _ _ _ Hdeep) as [ps ->].
  assert (Hpsn : ps < n) by (by eapply old_ok_get_lt).
  apply bind_ok in H as (h2 & Hset & H).
  apply bind_ok in H as (lp & Hget & H).
  destruct (clonePrototypeDeep_spec _ _ _ _ _ _ Hst Hpsn Hdeep)
    as (Hst1 & Hg1 & _ & _ & -> & Htl & Htl' & _ & _).
  destruct (clonePrototypeDeep_sealed _ _ _ _ _ Hst Hpsn Hso Hdeep)
    as (Hso1 & Hne).
  simpl in Hset.
  destruct (state_ok_set_proto _ _ _ _ _ Hst1 Hn Hset) as (Hst2 & Hg2 & _).
  destruct (set_proto_kept _ _ _ _ Hset)
    as (Hlen2 & Hother & lo & Hlo & Hplo).
  unfold object_getPrototypeOf in Hget. simpl in Hget.
  rewrite (fetch_some _ _ _ Hlo) in Hget. simpl in Hget.
  rewrite Hplo in Hget. injection Hget as <-. simpl in H.
  assert (Hg02 : grows n h h2) by (by eapply grows_trans).
  apply elem_of_cons in Hx as [->|Hx].
  - rewrite Hps in Hp. by injection Hp as <-.
  - rewrite Forall_forall in Hlt. pose proof (Hlt x Hx) as Hxn.
    assert (Hpn : p < n) by (by eapply old_ok_get_lt).
    rewrite <- (grows_get n h h2 p (KStr "constructor") Hold Hg02 Hpn)
      by done.
    assert (Hlt' : Forall (fun x => x < n) rest) by (by apply Forall_forall).
    assert (Hso2 : h2 !! s = Some so) by (rewrite Hother by lia; done).
    assert (Hl2 : length h < length h2) by lia.
    apply (IH h2 h' (length h) v' Hst2 Hlt' Hlen Hl2 Hso2 H x p Hx).
    by rewrite (grows_get n h h2 x (KStr "prototype") Hold Hg02 Hxn).
Qed.
End Sealed.

(** [Mix] installs [Symbol.hasInstance] on every source, with
    [Object.defineProperty]: on a source that is sealed or frozen this
    throws, and [Mix] does not return. *)
Theorem Mix_rejects_sealed_source (h : heap) (srcs : list loc) (s : loc)
    (so : object) :
  heap_ok h -> refs_ok h -> Forall (fun s => s < length h) srcs ->
  2 <= length srcs ->
  s ∈ srcs -> class_like h s -> h !! s = Some so -> sealed so ->
  exists e, Mix h srcs = Fail e /\ e <> OutOfFuel /\ e <> BadRef.
Proof.
  intros Hok Hrefs Hlt Hlen Hs (p & Hp & Hctor) Hso Hsealed.
  destruct (Mix h srcs) as [[hF create]|e] eqn:HMix.
  2:{ exists e. split; [done|]. by apply (Mix_genuine h srcs Hok Hrefs Hlt). }
  exfalso.
  destruct srcs as [|first [|second rest]]; simpl in Hlen; try lia.
  set (n := length h) in *.
  assert (Hold : old_ok n h) by (by apply old_ok_start).
  assert (Hst : state_ok n h) by done.
  assert (Hsn : s < n) by exact (lookup_lt_Some _ _ _ Hso).
  pose proof Hlt as Hlt0. apply Forall_cons in Hlt as [Hfirst Hlt].
  unfold Mix in HMix.
  apply bind_ok in HMix as (firstPrototype & Hfp & H).
  apply bind_ok in H as ([[h1 prototype] lastP] & Hdeep & H).
  destruct (clonePrototypeDeep_object _ _ _ Hdeep) as [fp ->].
  assert (Hfpn : fp < n)
    by exact (old_ok_get_lt n h first fp _ Hold Hfirst Hfp).
  destruct (clonePrototypeDeep_spec _ _ _ _ _ _ Hst Hfpn Hdeep)
    as (Hst1 & Hg1 & _ & _ & -> & Htl & Htl' & _ & _).
  destruct (clonePrototypeDeep_sealed n s so Hsn Hsealed _ _ _ _ _ Hst Hfpn
              Hso Hdeep) as (Hso1 & Hne1).
  apply bind_ok in H as ([h2 v'] & Hlink & _).
  apply elem_of_cons in Hs as [->|Hs].
  - rewrite Hp in Hfp. injection Hfp as <-. done.
  - rewrite Forall_forall in Hlt. pose proof (Hlt s Hs) as Hsn'.
    assert (Hpn : p < n) by exact (old_ok_get_lt n h s p _ Hold Hsn Hp).
    apply (Mix_link_sealed n s so Hsn Hsealed (second :: rest) h1 h2 lastP v'
             Hst1 (proj2 (Forall_forall _ _) Hlt) ltac:(unfold n; lia) Htl'
             Hso1 Hlink s p Hs).
    + by rewrite (grows_get n h h1 s (KStr "prototype") Hold Hg1 Hsn).
    + by rewrite (grows_get n h h1 p (KStr "constructor") Hold Hg1 Hpn).
Qed.

(** After [Object.seal(B)], [Mix(A, B)] throws. *)
Lemma Mix_rejects_sealed_source_witness :
  exists e,
    Mix heap_AB_sealed [class_A; class_B] = Fail e /\
    e <> OutOfFuel /\ e <> BadRef.
Proof.
  eapply (Mix_rejects_sealed_source heap_AB_sealed [class_A; class_B]
            class_B
            (default (mkObject None [] true Ordinary)
               (heap_AB_sealed !! class_B))).
  - apply heap_okb_ok. vm_compute. reflexivity.
  - apply refs_okb_ok. vm_compute. reflexivity.
  - repeat constructor; vm_compute; lia.
  - simpl. lia.
  - apply elem_of_cons. right. apply elem_of_cons. by left.
  - apply class_likeb_ok. vm_compute. reflexivity.
  - vm_compute. reflexivity.
  - split; [vm_compute; reflexivity|].
    intros k p. vm_compute.
    repeat (match goal with
            | |- context [match ?x with _ => _ end] => destruct x
            end; try (intros [= <-]; reflexivity)); try discriminate.
Defined.

(** ** The slot of [reuse] and [Object.assign] *)

(** The slot is defined with [enumerable: false]: [Object.assign(target,
    container)] does not copy the stored value, and the target keeps what
    it had under the slot. *)
Theorem reuse_slot_is_not_copied (h h1 h2 : heap) (container target : loc)
    (val r : value) :
  js_in h reuseSymbol (VObj container) = Ok false ->
  reuse h (VObj container) val = Ok (h1, r) ->
  target <> container ->
  object_assign h1 target container = Ok h2 ->
  exists co t t',
    h1 !! container = Some co /\
    own_value co reuseSymbol = Some val /\
    h1 !! target = Some t /\ h2 !! target = Some t' /\
    own_value t' reuseSymbol = own_value t reuseSymbol.
Proof.
  intros Hin H Hne Hassign. unfold reuse in H. rewrite Hin in H.
  cbn [bind] in H. apply bind_ok in H as (hd & Hdef & H).
  injection H as <- <-.
  apply defineProperty_shape in Hdef as (o & o' & Ho & Hdef & ->).
  pose proof (js_in_false_own _ _ _ _ Ho Hin) as Hown.
  unfold define_own in Hdef. rewrite Hown in Hdef.
  destruct (extensible o); [|discriminate]. injection Hdef as <-.
  pose proof (lookup_lt_Some _ _ _ Ho) as Hlt.
  destruct (object_assign_effect _ _ _ _ (not_eq_sym Hne) Hassign)
    as (t & t' & so & Ht & Hso & -> & _ & _ & Hval).
  rewrite list_lookup_insert_eq in Hso by done. injection Hso as <-.
  eexists _, t, t'. split; [by apply list_lookup_insert_eq|].
  split; [unfold own_value; simpl; by rewrite own_put_eq|].
  split; [done|].
  split; [apply list_lookup_insert_eq; by eapply lookup_lt_Some|].
  rewrite Hval. unfold enumerable_own. simpl. by rewrite own_put_eq.
Qed.

(** [Object.assign(child, parent)] after [reuse(parent, "a")] gives the
    child no slot of its own. *)
Lemma reuse_slot_is_not_copied_witness :
  exists co t t',
    containers_after_parent !! parent_container = Some co /\
    own_value co reuseSymbol = Some (VStr "a") /\
    containers_after_parent !! child_container = Some t /\
    containers_assigned !! child_container = Some t' /\
    own_value t' reuseSymbol = own_value t reuseSymbol.
Proof.
  apply (reuse_slot_is_not_copied containers containers_after_parent
           containers_assigned parent_container child_container (VStr "a")
           (VStr "a")).
  - vm_compute. reflexivity.
  - vm_compute. reflexivity.
  - discriminate.
  - vm_compute. reflexivity.
Defined.

(** ** The statics of a class that extends a composite *)





(** ** The [constructor] of an instance *)


